(** * Priority-inheritance RTOS scheduler: model and verified properties

    A shallow embedding of the simulated real-time scheduler (task.c,
    scheduler.c, mutex.c, semaphore.c, rtos_time.c).

    The C program is a graph of heap records that point at each other
    (tasks at mutexes through [held_mutexes] and [blocked_on], mutexes at
    tasks through [owner] and [wait_queue]).  The model keeps one arena
    per record type, a [list] indexed by handle, and a pointer becomes the
    index of its target; a handle that names no record plays the part of
    a NULL or invalid pointer.  Every operation is a function from the
    whole [System] to the whole [System], so that aliasing between queues,
    held sets and the registry is the aliasing of the C program.

    Not modelled: the timeline (an append-only log that is never read back
    by the core), task names, the simulated stack and the task function
    pointers, and allocation failure ([calloc]/[realloc] always succeed). *)

From Stdlib Require Import ZArith Lia Bool List Sorted Permutation.
From stdpp Require Import base tactics option list sorting.

Local Open Scope Z_scope.

(** ** Constants *)

Definition MAX_READY_TASKS : nat := 64.
Definition MAX_ALL_TASKS : nat := 64.
Definition PRIORITY_IDLE : Z := 255.
Definition SEM_WAIT_QUEUE_CAP : nat := 16.
Definition UINT64_MAX : Z := 2 ^ 64 - 1.

(** mutex.h (the second half of src/unnamed/part_002, line 126). *)
Definition MUTEX_WAIT_QUEUE_CAP : nat := 16.

(** Fixed-width counters: [uint32_t] and [uint64_t] wrap around, and the
    narrowing cast [(int)period] keeps the low 32 bits in two's
    complement. *)
Definition wrap32 (z : Z) : Z := z mod 2 ^ 32.
Definition wrap64 (z : Z) : Z := z mod 2 ^ 64.
Definition to_int (z : Z) : Z := (z + 2 ^ 31) mod 2 ^ 32 - 2 ^ 31.

#[local] Arguments wrap32 : simpl never.
#[local] Arguments wrap64 : simpl never.
#[local] Arguments to_int : simpl never.
#[local] Arguments Nat.leb : simpl never.

(** ** Data model *)

Inductive TaskState : Set :=
  | TASK_READY
  | TASK_RUNNING
  | TASK_BLOCKED
  | TASK_SUSPENDED
  | TASK_TERMINATED.

Inductive SchedPolicy : Set :=
  | SCHED_PRIORITY
  | SCHED_RATE_MONOTONIC.

#[global] Instance TaskState_eq_dec : EqDecision TaskState.
Proof. solve_decision. Defined.

#[global] Instance SchedPolicy_eq_dec : EqDecision SchedPolicy.
Proof. solve_decision. Defined.

(** The task control block of task.h.  Priorities are C [int]s compared
    as signed numbers (lower number = higher priority); times are
    [uint64_t] and statistics [uint32_t], all carried as [Z]. *)
Record TaskControlBlock : Set := mkTCB {
  task_id : Z;
  state : TaskState;
  priority : Z;
  original_priority : Z;
  priority_inherited : bool;
  period : Z;
  relative_deadline : Z;
  next_release : Z;
  absolute_deadline : Z;
  exec_time : Z;
  wcet_observed : Z;
  total_exec_time : Z;
  invocations : Z;
  deadline_misses : Z;
  preemptions : Z;
  priority_boosts : Z;
  held_mutexes : list nat;
  blocked_on : option nat;
  remaining_work : Z;
  ready_since : Z
}.

(** [struct Mutex] of mutex.h (src/unnamed/part_002, lines 129-139):
    [locked], [owner], and the wait queue with its count; the name and
    the back-pointer to the scheduler are not modelled. *)
Record Mutex : Set := mkMutex {
  locked : bool;
  owner : option nat;
  wait_queue : list nat
}.

Record Semaphore : Set := mkSemaphore {
  sem_count : Z;
  sem_max_count : Z;
  sem_wait_queue : list nat
}.

(** The scheduler of scheduler.h together with the three arenas.
    [ready_count] and [task_count] are the lengths of [ready_queue] and
    [all_tasks]. *)
Record System : Set := mkSystem {
  policy : SchedPolicy;
  priority_inheritance_enabled : bool;
  current_task : option nat;
  idle_task : option nat;
  ready_queue : list nat;
  all_tasks : list nat;
  system_ticks : Z;
  context_switches : Z;
  next_id : Z;
  tasks : list TaskControlBlock;
  mutexes : list Mutex;
  semaphores : list Semaphore
}.

(** Field updates, one per field that the program assigns. *)

Definition set_state (v : TaskState) (t : TaskControlBlock) : TaskControlBlock :=
  mkTCB (task_id t) v (priority t) (original_priority t) (priority_inherited
    t) (period t) (relative_deadline t) (next_release t) (absolute_deadline
    t) (exec_time t) (wcet_observed t) (total_exec_time t) (invocations t)
    (deadline_misses t) (preemptions t) (priority_boosts t) (held_mutexes t)
    (blocked_on t) (remaining_work t) (ready_since t).
Definition set_priority (v : Z) (t : TaskControlBlock) : TaskControlBlock :=
  mkTCB (task_id t) (state t) v (original_priority t) (priority_inherited t)
    (period t) (relative_deadline t) (next_release t) (absolute_deadline t)
    (exec_time t) (wcet_observed t) (total_exec_time t) (invocations t)
    (deadline_misses t) (preemptions t) (priority_boosts t) (held_mutexes t)
    (blocked_on t) (remaining_work t) (ready_since t).
Definition set_original_priority (v : Z) (t : TaskControlBlock) : TaskControlBlock :=
  mkTCB (task_id t) (state t) (priority t) v (priority_inherited t) (period
    t) (relative_deadline t) (next_release t) (absolute_deadline t)
    (exec_time t) (wcet_observed t) (total_exec_time t) (invocations t)
    (deadline_misses t) (preemptions t) (priority_boosts t) (held_mutexes t)
    (blocked_on t) (remaining_work t) (ready_since t).
Definition set_priority_inherited (v : bool) (t : TaskControlBlock) : TaskControlBlock :=
  mkTCB (task_id t) (state t) (priority t) (original_priority t) v (period
    t) (relative_deadline t) (next_release t) (absolute_deadline t)
    (exec_time t) (wcet_observed t) (total_exec_time t) (invocations t)
    (deadline_misses t) (preemptions t) (priority_boosts t) (held_mutexes t)
    (blocked_on t) (remaining_work t) (ready_since t).
Definition set_next_release (v : Z) (t : TaskControlBlock) : TaskControlBlock :=
  mkTCB (task_id t) (state t) (priority t) (original_priority t)
    (priority_inherited t) (period t) (relative_deadline t) v
    (absolute_deadline t) (exec_time t) (wcet_observed t) (total_exec_time
    t) (invocations t) (deadline_misses t) (preemptions t) (priority_boosts
    t) (held_mutexes t) (blocked_on t) (remaining_work t) (ready_since t).
Definition set_absolute_deadline (v : Z) (t : TaskControlBlock) : TaskControlBlock :=
  mkTCB (task_id t) (state t) (priority t) (original_priority t)
    (priority_inherited t) (period t) (relative_deadline t) (next_release t)
    v (exec_time t) (wcet_observed t) (total_exec_time t) (invocations t)
    (deadline_misses t) (preemptions t) (priority_boosts t) (held_mutexes t)
    (blocked_on t) (remaining_work t) (ready_since t).
Definition set_exec_time (v : Z) (t : TaskControlBlock) : TaskControlBlock :=
  mkTCB (task_id t) (state t) (priority t) (original_priority t)
    (priority_inherited t) (period t) (relative_deadline t) (next_release t)
    (absolute_deadline t) v (wcet_observed t) (total_exec_time t)
    (invocations t) (deadline_misses t) (preemptions t) (priority_boosts t)
    (held_mutexes t) (blocked_on t) (remaining_work t) (ready_since t).
Definition set_wcet_observed (v : Z) (t : TaskControlBlock) : TaskControlBlock :=
  mkTCB (task_id t) (state t) (priority t) (original_priority t)
    (priority_inherited t) (period t) (relative_deadline t) (next_release t)
    (absolute_deadline t) (exec_time t) v (total_exec_time t) (invocations
    t) (deadline_misses t) (preemptions t) (priority_boosts t) (held_mutexes
    t) (blocked_on t) (remaining_work t) (ready_since t).
Definition set_total_exec_time (v : Z) (t : TaskControlBlock) : TaskControlBlock :=
  mkTCB (task_id t) (state t) (priority t) (original_priority t)
    (priority_inherited t) (period t) (relative_deadline t) (next_release t)
    (absolute_deadline t) (exec_time t) (wcet_observed t) v (invocations t)
    (deadline_misses t) (preemptions t) (priority_boosts t) (held_mutexes t)
    (blocked_on t) (remaining_work t) (ready_since t).
Definition set_invocations (v : Z) (t : TaskControlBlock) : TaskControlBlock :=
  mkTCB (task_id t) (state t) (priority t) (original_priority t)
    (priority_inherited t) (period t) (relative_deadline t) (next_release t)
    (absolute_deadline t) (exec_time t) (wcet_observed t) (total_exec_time
    t) v (deadline_misses t) (preemptions t) (priority_boosts t)
    (held_mutexes t) (blocked_on t) (remaining_work t) (ready_since t).
Definition set_deadline_misses (v : Z) (t : TaskControlBlock) : TaskControlBlock :=
  mkTCB (task_id t) (state t) (priority t) (original_priority t)
    (priority_inherited t) (period t) (relative_deadline t) (next_release t)
    (absolute_deadline t) (exec_time t) (wcet_observed t) (total_exec_time
    t) (invocations t) v (preemptions t) (priority_boosts t) (held_mutexes
    t) (blocked_on t) (remaining_work t) (ready_since t).
Definition set_preemptions (v : Z) (t : TaskControlBlock) : TaskControlBlock :=
  mkTCB (task_id t) (state t) (priority t) (original_priority t)
    (priority_inherited t) (period t) (relative_deadline t) (next_release t)
    (absolute_deadline t) (exec_time t) (wcet_observed t) (total_exec_time
    t) (invocations t) (deadline_misses t) v (priority_boosts t)
    (held_mutexes t) (blocked_on t) (remaining_work t) (ready_since t).
Definition set_priority_boosts (v : Z) (t : TaskControlBlock) : TaskControlBlock :=
  mkTCB (task_id t) (state t) (priority t) (original_priority t)
    (priority_inherited t) (period t) (relative_deadline t) (next_release t)
    (absolute_deadline t) (exec_time t) (wcet_observed t) (total_exec_time
    t) (invocations t) (deadline_misses t) (preemptions t) v (held_mutexes
    t) (blocked_on t) (remaining_work t) (ready_since t).
Definition set_held_mutexes (v : list nat) (t : TaskControlBlock) : TaskControlBlock :=
  mkTCB (task_id t) (state t) (priority t) (original_priority t)
    (priority_inherited t) (period t) (relative_deadline t) (next_release t)
    (absolute_deadline t) (exec_time t) (wcet_observed t) (total_exec_time
    t) (invocations t) (deadline_misses t) (preemptions t) (priority_boosts
    t) v (blocked_on t) (remaining_work t) (ready_since t).
Definition set_blocked_on (v : option nat) (t : TaskControlBlock) : TaskControlBlock :=
  mkTCB (task_id t) (state t) (priority t) (original_priority t)
    (priority_inherited t) (period t) (relative_deadline t) (next_release t)
    (absolute_deadline t) (exec_time t) (wcet_observed t) (total_exec_time
    t) (invocations t) (deadline_misses t) (preemptions t) (priority_boosts
    t) (held_mutexes t) v (remaining_work t) (ready_since t).
Definition set_remaining_work (v : Z) (t : TaskControlBlock) : TaskControlBlock :=
  mkTCB (task_id t) (state t) (priority t) (original_priority t)
    (priority_inherited t) (period t) (relative_deadline t) (next_release t)
    (absolute_deadline t) (exec_time t) (wcet_observed t) (total_exec_time
    t) (invocations t) (deadline_misses t) (preemptions t) (priority_boosts
    t) (held_mutexes t) (blocked_on t) v (ready_since t).
Definition set_ready_since (v : Z) (t : TaskControlBlock) : TaskControlBlock :=
  mkTCB (task_id t) (state t) (priority t) (original_priority t)
    (priority_inherited t) (period t) (relative_deadline t) (next_release t)
    (absolute_deadline t) (exec_time t) (wcet_observed t) (total_exec_time
    t) (invocations t) (deadline_misses t) (preemptions t) (priority_boosts
    t) (held_mutexes t) (blocked_on t) (remaining_work t) v.

Definition set_locked (v : bool) (m : Mutex) : Mutex :=
  mkMutex v (owner m) (wait_queue m).
Definition set_owner (v : option nat) (m : Mutex) : Mutex :=
  mkMutex (locked m) v (wait_queue m).
Definition set_wait_queue (v : list nat) (m : Mutex) : Mutex :=
  mkMutex (locked m) (owner m) v.

Definition set_sem_count (v : Z) (m : Semaphore) : Semaphore :=
  mkSemaphore v (sem_max_count m) (sem_wait_queue m).
Definition set_sem_wait_queue (v : list nat) (m : Semaphore) : Semaphore :=
  mkSemaphore (sem_count m) (sem_max_count m) v.

Definition set_current_task (v : option nat) (s : System) : System :=
  mkSystem (policy s) (priority_inheritance_enabled s) v (idle_task s)
    (ready_queue s) (all_tasks s) (system_ticks s) (context_switches s)
    (next_id s) (tasks s) (mutexes s) (semaphores s).
Definition set_idle_task (v : option nat) (s : System) : System :=
  mkSystem (policy s) (priority_inheritance_enabled s) (current_task s) v
    (ready_queue s) (all_tasks s) (system_ticks s) (context_switches s)
    (next_id s) (tasks s) (mutexes s) (semaphores s).
Definition set_ready_queue (v : list nat) (s : System) : System :=
  mkSystem (policy s) (priority_inheritance_enabled s) (current_task s)
    (idle_task s) v (all_tasks s) (system_ticks s) (context_switches s)
    (next_id s) (tasks s) (mutexes s) (semaphores s).
Definition set_all_tasks (v : list nat) (s : System) : System :=
  mkSystem (policy s) (priority_inheritance_enabled s) (current_task s)
    (idle_task s) (ready_queue s) v (system_ticks s) (context_switches s)
    (next_id s) (tasks s) (mutexes s) (semaphores s).
Definition set_system_ticks (v : Z) (s : System) : System :=
  mkSystem (policy s) (priority_inheritance_enabled s) (current_task s)
    (idle_task s) (ready_queue s) (all_tasks s) v (context_switches s)
    (next_id s) (tasks s) (mutexes s) (semaphores s).
Definition set_context_switches (v : Z) (s : System) : System :=
  mkSystem (policy s) (priority_inheritance_enabled s) (current_task s)
    (idle_task s) (ready_queue s) (all_tasks s) (system_ticks s) v (next_id
    s) (tasks s) (mutexes s) (semaphores s).
Definition set_next_id (v : Z) (s : System) : System :=
  mkSystem (policy s) (priority_inheritance_enabled s) (current_task s)
    (idle_task s) (ready_queue s) (all_tasks s) (system_ticks s)
    (context_switches s) v (tasks s) (mutexes s) (semaphores s).
Definition set_tasks (v : list TaskControlBlock) (s : System) : System :=
  mkSystem (policy s) (priority_inheritance_enabled s) (current_task s)
    (idle_task s) (ready_queue s) (all_tasks s) (system_ticks s)
    (context_switches s) (next_id s) v (mutexes s) (semaphores s).
Definition set_mutexes (v : list Mutex) (s : System) : System :=
  mkSystem (policy s) (priority_inheritance_enabled s) (current_task s)
    (idle_task s) (ready_queue s) (all_tasks s) (system_ticks s)
    (context_switches s) (next_id s) (tasks s) v (semaphores s).
Definition set_semaphores (v : list Semaphore) (s : System) : System :=
  mkSystem (policy s) (priority_inheritance_enabled s) (current_task s)
    (idle_task s) (ready_queue s) (all_tasks s) (system_ticks s)
    (context_switches s) (next_id s) (tasks s) (mutexes s) v.

(** ** Arena access *)

Definition upd_task (h : nat) (f : TaskControlBlock → TaskControlBlock)
    (s : System) : System :=
  set_tasks (alter f h (tasks s)) s.

Definition upd_mutex (m : nat) (f : Mutex → Mutex) (s : System) : System :=
  set_mutexes (alter f m (mutexes s)) s.

Definition upd_semaphore (k : nat) (f : Semaphore → Semaphore)
    (s : System) : System :=
  set_semaphores (alter f k (semaphores s)) s.

(** [task_get_priority]: [task ? task->priority : PRIORITY_IDLE]. *)
Definition task_get_priority (s : System) (h : nat) : Z :=
  match tasks s !! h with
  | Some t => priority t
  | None => PRIORITY_IDLE
  end.

Definition task_state (s : System) (h : nat) : option TaskState :=
  state <$> tasks s !! h.

(** ** Priority-ordered arrays

    scheduler.c, mutex.c and semaphore.c each carry the same two loops: a
    scan for the first entry whose priority number is strictly greater
    than the new task's, and a shift that opens the slot. *)

Fixpoint insert_pos (s : System) (p : Z) (q : list nat) : nat :=
  match q with
  | [] => O
  | x :: q' =>
      if p <? task_get_priority s x then O else S (insert_pos s p q')
  end.

Definition array_insert_at (pos : nat) (h : nat) (q : list nat) : list nat :=
  take pos q ++ h :: drop pos q.

Definition priority_insert (s : System) (h : nat) (q : list nat) : list nat :=
  array_insert_at (insert_pos s (task_get_priority s h) q) h q.

(** Removal by identity: the first slot holding [h] is closed by shifting
    the tail left. *)
Fixpoint remove_first (h : nat) (q : list nat) : list nat :=
  match q with
  | [] => []
  | x :: q' => if decide (x = h) then q' else x :: remove_first h q'
  end.

(** ** scheduler.c: ready queue *)

Definition ready_queue_insert (s : System) (h : nat) : System :=
  match tasks s !! h with
  | None => s
  | Some _ =>
      if (MAX_READY_TASKS <=? length (ready_queue s))%nat then s
      else set_ready_queue (priority_insert s h (ready_queue s)) s
  end.

(** The C function also returns whether the task was found; no caller
    looks at the result. *)
Definition ready_queue_remove (s : System) (h : nat) : System :=
  set_ready_queue (remove_first h (ready_queue s)) s.

Definition ready_queue_peek (s : System) : option nat :=
  head (ready_queue s).

Definition ready_queue_pop (s : System) : System * option nat :=
  (set_ready_queue (tail (ready_queue s)) s, head (ready_queue s)).

Definition ready_queue_empty (s : System) : bool :=
  (length (ready_queue s) =? 0)%nat.

(** ** task.c *)

Definition task_set_state (s : System) (h : nat) (new_state : TaskState)
    : System :=
  match tasks s !! h with
  | None => s
  | Some t =>
      let old := state t in
      if decide (old = new_state) then s
      else
        let s1 := upd_task h (set_state new_state) s in
        let s2 :=
          if bool_decide (old = TASK_READY)
             && negb (bool_decide (new_state = TASK_READY))
          then ready_queue_remove s1 h else s1 in
        if bool_decide (new_state = TASK_READY)
           && negb (bool_decide (old = TASK_READY))
        then
          ready_queue_insert
            (upd_task h (set_ready_since (system_ticks s2)) s2) h
        else s2
  end.

Definition task_suspend (s : System) (h : nat) : System :=
  match task_state s h with
  | None | Some TASK_TERMINATED => s
  | Some _ => task_set_state s h TASK_SUSPENDED
  end.

Definition task_resume (s : System) (h : nat) : System :=
  match task_state s h with
  | Some TASK_SUSPENDED => task_set_state s h TASK_READY
  | _ => s
  end.

Definition task_terminate (s : System) (h : nat) : System :=
  task_set_state s h TASK_TERMINATED.

Definition task_set_priority (s : System) (h : nat) (new_priority : Z)
    : System :=
  match tasks s !! h with
  | None => s
  | Some t =>
      let s1 := upd_task h (set_priority new_priority) s in
      if decide (state t = TASK_READY) then
        ready_queue_insert (ready_queue_remove s1 h) h
      else s1
  end.

Definition task_add_held_mutex (s : System) (h m : nat) : System :=
  match mutexes s !! m with
  | None => s
  | Some _ => upd_task h (λ t, set_held_mutexes (held_mutexes t ++ [m]) t) s
  end.

Definition task_remove_held_mutex (s : System) (h m : nat) : System :=
  match mutexes s !! m with
  | None => s
  | Some _ =>
      upd_task h (λ t, set_held_mutexes (remove_first m (held_mutexes t)) t) s
  end.

(** [task_create]: the name, function and argument are not modelled.  The
    new record is placed at the first free handle of the arena.  [next_id]
    is a C [int]; it is bounded by the registry size in every run, so its
    increment is not wrapped. *)
Definition new_task (s : System) (prio : Z) (period0 deadline wcet : Z)
    : TaskControlBlock :=
  let rm := bool_decide (policy s = SCHED_RATE_MONOTONIC) && (period0 >? 0) in
  let dl := if deadline >? 0 then deadline else period0 in
  {| task_id := next_id s;
     state := TASK_READY;
     priority := if rm then to_int period0 else prio;
     original_priority := if rm then to_int period0 else prio;
     priority_inherited := false;
     period := period0;
     relative_deadline := dl;
     next_release := wrap64 (system_ticks s + period0);
     absolute_deadline := wrap64 (system_ticks s + dl);
     exec_time := 0;
     wcet_observed := 0;
     total_exec_time := 0;
     invocations := 1;
     deadline_misses := 0;
     preemptions := 0;
     priority_boosts := 0;
     held_mutexes := [];
     blocked_on := None;
     remaining_work := wcet;
     ready_since := system_ticks s |}.

Definition task_create (s : System) (prio : Z) (period0 deadline wcet : Z)
    : System * option nat :=
  if (MAX_ALL_TASKS <=? length (all_tasks s))%nat then (s, None)
  else
    let h := length (tasks s) in
    let s1 := set_next_id (next_id s + 1) s in
    let s2 := set_tasks (tasks s ++ [new_task s prio period0 deadline wcet]) s1 in
    let s3 := set_all_tasks (all_tasks s ++ [h]) s2 in
    (ready_queue_insert s3 h, Some h).

(** ** scheduler.c: dispatch *)

Definition scheduler_init (pol : SchedPolicy) (pi : bool) : System :=
  let s0 := mkSystem pol pi None None [] [] 0 0 0 [] [] [] in
  match task_create s0 PRIORITY_IDLE 0 0 0 with
  | (s1, Some idle) =>
      upd_task idle (set_remaining_work UINT64_MAX)
        (ready_queue_remove (set_idle_task (Some idle) s1) idle)
  | (s1, None) => s1
  end.

Definition scheduler_get_next_task (s : System) : option nat :=
  match ready_queue_peek s with
  | Some h => Some h
  | None => idle_task s
  end.

Definition scheduler_context_switch (s : System) (from to : option nat)
    : System :=
  match to with
  | None => s
  | Some n =>
      if decide (from = Some n) then s
      else
        let s1 :=
          match from with
          | Some c =>
              if decide (task_state s c = Some TASK_RUNNING) then
                let s' :=
                  upd_task c
                    (λ t, set_ready_since (system_ticks s)
                            (set_state TASK_READY t)) s in
                upd_task c
                  (λ t, set_preemptions (wrap32 (preemptions t + 1)) t)
                  (ready_queue_insert s' c)
              else s
          | None => s
          end in
        let s2 := upd_task n (set_state TASK_RUNNING) (ready_queue_remove s1 n) in
        set_context_switches (wrap64 (context_switches s2 + 1))
          (set_current_task (Some n) s2)
  end.

(** When the current task is running and there is neither a ready task
    nor an idle task, the C code reads through a NULL [next]; the model
    leaves the system unchanged there. *)
Definition scheduler_schedule (s : System) : System :=
  let next := scheduler_get_next_task s in
  let curr := current_task s in
  if decide (next = curr) then s
  else
    match curr with
    | Some c =>
        if decide (task_state s c = Some TASK_RUNNING) then
          match next with
          | Some n =>
              if task_get_priority s n >=? task_get_priority s c then s
              else scheduler_context_switch s curr next
          | None => s
          end
        else scheduler_context_switch s curr next
    | None => scheduler_context_switch s curr next
    end.

Definition scheduler_needs_preemption (s : System) : bool :=
  match current_task s with
  | None => true
  | Some c =>
      match ready_queue_peek s with
      | None => false
      | Some n => task_get_priority s n <? task_get_priority s c
      end
  end.

(** ** mutex.c *)

Definition wait_queue_insert (s : System) (m h : nat) : System :=
  match mutexes s !! m with
  | None => s
  | Some mx =>
      if (MUTEX_WAIT_QUEUE_CAP <=? length (wait_queue mx))%nat then s
      else upd_mutex m (set_wait_queue (priority_insert s h (wait_queue mx))) s
  end.

Definition wait_queue_pop (s : System) (m : nat) : System * option nat :=
  match mutexes s !! m with
  | None => (s, None)
  | Some mx =>
      match wait_queue mx with
      | [] => (s, None)
      | w :: rest => (upd_mutex m (set_wait_queue rest) s, Some w)
      end
  end.

Definition mutex_create (s : System) : System * nat :=
  (set_mutexes (mutexes s ++ [mkMutex false None []]) s, length (mutexes s)).

(** The number of tasks that a boost to [p] can still change: the
    recursion of [priority_inherit] spends one unit of it per boost. *)
Definition boostable (p : Z) (s : System) : nat :=
  length (filter (λ t, p < priority t) (tasks s)).

(** One boost of [priority_inherit], on the record and on the system:
    snapshot the original priority unless one is already saved, install
    the new priority, count the boost, and re-sort the ready queue when
    the task is in it. *)
Definition boost_task (new_priority : Z) (t : TaskControlBlock)
    : TaskControlBlock :=
  let t1 :=
    if priority_inherited t then t
    else set_priority_inherited true (set_original_priority (priority t) t) in
  set_priority_boosts (wrap32 (priority_boosts t1 + 1))
    (set_priority new_priority t1).

Definition boost_step (s : System) (h : nat) (t : TaskControlBlock)
    (new_priority : Z) : System :=
  let s1 := upd_task h (boost_task new_priority) s in
  if decide (state t = TASK_READY) then
    ready_queue_insert (ready_queue_remove s1 h) h
  else s1.

(** [task->blocked_on && task->blocked_on->owner]: the next link of the
    chain, if there is one. *)
Definition chain_next (s : System) (t : TaskControlBlock) : option nat :=
  match blocked_on t with
  | None => None
  | Some m =>
      match mutexes s !! m with
      | None => None
      | Some mx => owner mx
      end
  end.

(** The body of [priority_inherit].  The C function calls itself on the
    owner of the mutex the task is blocked on; [fuel] bounds the number
    of boosts, the early return on [new_priority >= task->priority] costs
    nothing. *)
Fixpoint priority_inherit_rec (fuel : nat) (s : System) (h : nat)
    (new_priority : Z) : option System :=
  match tasks s !! h with
  | None => Some s
  | Some t =>
      if new_priority >=? priority t then Some s
      else
        match fuel with
        | O => None
        | S fuel' =>
            let s' := boost_step s h t new_priority in
            match chain_next s' t with
            | None => Some s'
            | Some o => priority_inherit_rec fuel' s' o new_priority
            end
        end
  end.

Definition priority_inherit (s : System) (h : nat) (new_priority : Z)
    : System :=
  default s (priority_inherit_rec (boostable new_priority s) s h new_priority).

(** The two nested loops of [priority_restore]: the lowest priority
    number among [needed] and the waiters of the mutexes still held. *)
Definition waiter_pressure (s : System) (needed : Z) (q : list nat) : Z :=
  fold_left
    (λ acc w, if task_get_priority s w <? acc then task_get_priority s w
              else acc)
    q needed.

Definition needed_priority (s : System) (t : TaskControlBlock) : Z :=
  fold_left
    (λ acc m,
       match mutexes s !! m with
       | Some mx => waiter_pressure s acc (wait_queue mx)
       | None => acc
       end)
    (held_mutexes t) (original_priority t).

(** [task->priority = needed], and the flag is cleared when that is the
    original priority. *)
Definition restore_task (needed : Z) (t : TaskControlBlock)
    : TaskControlBlock :=
  let t1 := set_priority needed t in
  if decide (priority t1 = original_priority t1) then
    set_priority_inherited false t1
  else t1.

Definition priority_restore (s : System) (h : nat) : System :=
  match tasks s !! h with
  | None => s
  | Some t =>
      if negb (priority_inherited t) then s
      else
        let s1 := upd_task h (restore_task (needed_priority s t)) s in
        if decide (state t = TASK_READY) then
          ready_queue_insert (ready_queue_remove s1 h) h
        else s1
  end.

(** A contended lock reads [mtx->owner->priority]; with a locked mutex
    that has no owner the C code reads through NULL, and the model skips
    the boost. *)
Definition mutex_lock (s : System) (m h : nat) : System :=
  match mutexes s !! m, tasks s !! h with
  | Some mx, Some t =>
      if negb (locked mx) then
        task_add_held_mutex
          (upd_mutex m (λ x, set_owner (Some h) (set_locked true x)) s) h m
      else
        let s1 :=
          if priority_inheritance_enabled s then
            match owner mx with
            | Some o =>
                if priority t <? task_get_priority s o then
                  priority_inherit s o (priority t)
                else s
            | None => s
            end
          else s in
        let s2 := upd_task h (set_blocked_on (Some m)) s1 in
        let s3 := task_set_state s2 h TASK_BLOCKED in
        let s4 := wait_queue_insert s3 m h in
        scheduler_schedule s4
  | _, _ => s
  end.

(** The part of [mutex_unlock] between the priority restore and the final
    dispatch: wake the first waiter and make it the owner, or unlock. *)
Definition mutex_handoff (s : System) (m : nat) : System :=
  match wait_queue_pop s m with
  | (s1, Some w) =>
      let s2 := upd_task w (set_blocked_on None) s1 in
      let s3 := upd_mutex m (set_owner (Some w)) s2 in
      let s4 := task_add_held_mutex s3 w m in
      task_set_state s4 w TASK_READY
  | (_, None) => upd_mutex m (λ x, set_owner None (set_locked false x)) s
  end.

Definition mutex_unlock (s : System) (m h : nat) : System :=
  match mutexes s !! m, tasks s !! h with
  | Some mx, Some _ =>
      if decide (owner mx = Some h) then
        let s1 := task_remove_held_mutex s h m in
        let s2 :=
          if priority_inheritance_enabled s1 then priority_restore s1 h
          else s1 in
        scheduler_schedule (mutex_handoff s2 m)
      else s
  | _, _ => s
  end.

(** ** semaphore.c *)

Definition sem_wait_queue_insert (s : System) (k h : nat) : System :=
  match semaphores s !! k with
  | None => s
  | Some sm =>
      if (SEM_WAIT_QUEUE_CAP <=? length (sem_wait_queue sm))%nat then s
      else
        upd_semaphore k
          (set_sem_wait_queue (priority_insert s h (sem_wait_queue sm))) s
  end.

Definition semaphore_create (s : System) (initial max_count : Z)
    : System * nat :=
  (set_semaphores (semaphores s ++ [mkSemaphore initial max_count []]) s,
   length (semaphores s)).

Definition semaphore_wait (s : System) (k h : nat) : System :=
  match semaphores s !! k, tasks s !! h with
  | Some sm, Some _ =>
      if sem_count sm >? 0 then
        upd_semaphore k (set_sem_count (sem_count sm - 1)) s
      else
        scheduler_schedule
          (sem_wait_queue_insert (task_set_state s h TASK_BLOCKED) k h)
  | _, _ => s
  end.

Definition semaphore_signal (s : System) (k : nat) : System :=
  match semaphores s !! k with
  | None => s
  | Some sm =>
      match sem_wait_queue sm with
      | w :: rest =>
          scheduler_schedule
            (task_set_state (upd_semaphore k (set_sem_wait_queue rest) s)
               w TASK_READY)
      | [] =>
          if sem_count sm <? sem_max_count sm then
            upd_semaphore k (set_sem_count (sem_count sm + 1)) s
          else s
      end
  end.

(** ** rtos_time.c *)

(** One iteration of the loop of [check_periodic_releases]. *)
Definition release_if_due (s : System) (h : nat) : System :=
  match tasks s !! h with
  | None => s
  | Some t =>
      if decide (idle_task s = Some h) then s
      else if period t =? 0 then s
      else if bool_decide (state t = TASK_SUSPENDED)
              && (system_ticks s >=? next_release t)
              && ((system_ticks s - next_release t) mod period t =? 0)
              && (system_ticks s =? next_release t)
      then
        let s1 :=
          upd_task h
            (λ t,
               set_invocations (wrap32 (invocations t + 1))
                 (set_exec_time 0
                    (set_absolute_deadline
                       (wrap64 (system_ticks s + relative_deadline t))
                       (set_next_release (wrap64 (system_ticks s + period t))
                          t)))) s in
        task_set_state s1 h TASK_READY
      else s
  end.

Definition check_periodic_releases (s : System) : System :=
  fold_left release_if_due (all_tasks s) s.

(** The condition under which [check_deadlines] records a miss. *)
Definition deadline_missed (s : System) (h : nat) (t : TaskControlBlock)
    : bool :=
  negb (bool_decide (idle_task s = Some h))
  && negb ((period t =? 0) && (relative_deadline t =? 0))
  && (bool_decide (state t = TASK_RUNNING)
      || bool_decide (state t = TASK_READY))
  && (absolute_deadline t >? 0)
  && (system_ticks s >? absolute_deadline t)
  && (remaining_work t >? 0).

(** [t->deadline_misses++; t->absolute_deadline = UINT64_MAX]. *)
Definition record_miss (t : TaskControlBlock) : TaskControlBlock :=
  set_absolute_deadline UINT64_MAX
    (set_deadline_misses (wrap32 (deadline_misses t + 1)) t).

(** One iteration of the loop of [check_deadlines]. *)
Definition check_deadline (s : System) (h : nat) : System :=
  match tasks s !! h with
  | None => s
  | Some t => if deadline_missed s h t then upd_task h record_miss s else s
  end.

Definition check_deadlines (s : System) : System :=
  fold_left check_deadline (all_tasks s) s.

Definition tick_handler (s : System) : System :=
  let s1 := set_system_ticks (wrap64 (system_ticks s + 1)) s in
  let s2 :=
    match current_task s1 with
    | Some c =>
        if decide (task_state s1 c = Some TASK_RUNNING) then
          upd_task c
            (λ t,
               let t1 :=
                 set_total_exec_time (wrap64 (total_exec_time t + 1))
                   (set_exec_time (wrap64 (exec_time t + 1)) t) in
               let t2 :=
                 if remaining_work t1 >? 0 then
                   set_remaining_work (remaining_work t1 - 1) t1
                 else t1 in
               if exec_time t2 >? wcet_observed t2 then
                 set_wcet_observed (exec_time t2) t2
               else t2) s1
        else s1
    | None => s1
    end in
  check_deadlines (check_periodic_releases s2).

Definition advance_time (s : System) (ticks : nat) : System :=
  Nat.iter ticks (λ s, scheduler_schedule (tick_handler s)) s.

Fixpoint simulate_work_loop (n : nat) (s : System) (h : nat) : System :=
  match n with
  | O => s
  | S n' =>
      if decide (current_task s = Some h) then
        let s1 := tick_handler s in
        if scheduler_needs_preemption s1 then scheduler_schedule s1
        else simulate_work_loop n' s1 h
      else s
  end.

Definition simulate_work (s : System) (h : nat) (work_ticks : nat) : System :=
  match tasks s !! h with
  | None => s
  | Some _ =>
      simulate_work_loop work_ticks
        (upd_task h (set_remaining_work (Z.of_nat work_ticks)) s) h
  end.

(** ** scheduler.c: rate-monotonic priorities *)

Definition cmp_period (s : System) (a b : nat) : Z :=
  match tasks s !! a, tasks s !! b with
  | Some ta, Some tb =>
      if (period ta =? 0) && (period tb =? 0) then 0
      else if period ta =? 0 then 1
      else if period tb =? 0 then -1
      else if period ta <? period tb then -1
      else if period ta >? period tb then 1
      else 0
  | _, _ => 0
  end.

(** The test under which [rms_recalculate_priorities] collects a task. *)
Definition is_periodic (s : System) (h : nat) : bool :=
  match tasks s !! h with
  | Some t =>
      (period t >? 0)
      && negb (bool_decide (state t = TASK_TERMINATED))
      && negb (bool_decide (idle_task s = Some h))
  | None => false
  end.

(** The test under which the rebuild loop re-inserts a task. *)
Definition is_ready_task (s : System) (h : nat) : bool :=
  match tasks s !! h with
  | Some t =>
      bool_decide (state t = TASK_READY)
      && negb (bool_decide (idle_task s = Some h))
  | None => false
  end.

(** [periodic[i]->priority = i; periodic[i]->original_priority = i]. *)
Fixpoint assign_ranks (s : System) (i : Z) (l : list nat) : System :=
  match l with
  | [] => s
  | h :: l' =>
      assign_ranks
        (upd_task h (λ t, set_original_priority i (set_priority i t)) s)
        (i + 1) l'
  end.

Definition rebuild_ready_queue (s : System) : System :=
  fold_left
    (λ acc h, if is_ready_task acc h then ready_queue_insert acc h else acc)
    (all_tasks s) (set_ready_queue [] s).

(** [qsort] belongs to the C library, not to the program: it is a
    parameter, and what the properties below need of it is assumed where
    they need it. *)
Definition rms_recalculate_priorities
    (qsort : (nat → nat → Z) → list nat → list nat) (s : System) : System :=
  let periodic := filter (λ h, is_periodic s h = true) (all_tasks s) in
  let sorted := qsort (cmp_period s) periodic in
  rebuild_ready_queue (assign_ranks s 0 sorted).

(** ** Drivers

    The operations a driver may invoke on a scheduler, and the states it
    can reach with them from [scheduler_init]. *)

Inductive op : Set :=
  | OpTaskCreate (prio period0 deadline wcet : Z)
  | OpTaskSetState (h : nat) (st : TaskState)
  | OpTaskSuspend (h : nat)
  | OpTaskResume (h : nat)
  | OpTaskTerminate (h : nat)
  | OpTaskSetPriority (h : nat) (p : Z)
  | OpMutexCreate
  | OpMutexLock (m h : nat)
  | OpMutexUnlock (m h : nat)
  | OpPriorityInherit (h : nat) (p : Z)
  | OpPriorityRestore (h : nat)
  | OpSemaphoreCreate (initial max_count : Z)
  | OpSemaphoreWait (k h : nat)
  | OpSemaphoreSignal (k : nat)
  | OpSchedule
  | OpTick
  | OpAdvanceTime (n : nat)
  | OpSimulateWork (h : nat) (n : nat)
  | OpRmsRecalculate.

Definition run_op (qsort : (nat → nat → Z) → list nat → list nat)
    (o : op) (s : System) : System :=
  match o with
  | OpTaskCreate prio period0 deadline wcet =>
      fst (task_create s prio period0 deadline wcet)
  | OpTaskSetState h st => task_set_state s h st
  | OpTaskSuspend h => task_suspend s h
  | OpTaskResume h => task_resume s h
  | OpTaskTerminate h => task_terminate s h
  | OpTaskSetPriority h p => task_set_priority s h p
  | OpMutexCreate => fst (mutex_create s)
  | OpMutexLock m h => mutex_lock s m h
  | OpMutexUnlock m h => mutex_unlock s m h
  | OpPriorityInherit h p => priority_inherit s h p
  | OpPriorityRestore h => priority_restore s h
  | OpSemaphoreCreate initial max_count =>
      fst (semaphore_create s initial max_count)
  | OpSemaphoreWait k h => semaphore_wait s k h
  | OpSemaphoreSignal k => semaphore_signal s k
  | OpSchedule => scheduler_schedule s
  | OpTick => tick_handler s
  | OpAdvanceTime n => advance_time s n
  | OpSimulateWork h n => simulate_work s h n
  | OpRmsRecalculate => rms_recalculate_priorities qsort s
  end.

(** [reachable qsort allowed s]: [s] is the result of [scheduler_init]
    followed by operations, each of which the discipline [allowed]
    admits in the state it is applied to. *)
Inductive reachable (qsort : (nat → nat → Z) → list nat → list nat)
    (allowed : System → op → Prop) : System → Prop :=
  | reachable_init pol pi : reachable qsort allowed (scheduler_init pol pi)
  | reachable_step s o :
      reachable qsort allowed s → allowed s o →
      reachable qsort allowed (run_op qsort o s).

(** Running a script of operations from left to right. *)
Definition run_ops (qsort : (nat → nat → Z) → list nat → list nat)
    (l : list op) (s : System) : System :=
  fold_left (λ acc o, run_op qsort o acc) l s.

(** Insertion sort by a three-way comparison: one function that meets
    what the C standard asks of [qsort], used to run examples. *)
Fixpoint isort_insert (cmp : nat → nat → Z) (x : nat) (l : list nat)
    : list nat :=
  match l with
  | [] => [x]
  | y :: l' => if cmp x y <=? 0 then x :: l else y :: isort_insert cmp x l'
  end.

Definition isort (cmp : nat → nat → Z) (l : list nat) : list nat :=
  fold_right (isort_insert cmp) [] l.

(** ** Scenarios *)

(** The transitive chain of the fifth test scenario, with one more task
    queued on the first mutex.  Handles: tasks 1 VeryLow (20), 2 Low (15),
    3 Med (10), 4 High (1); mutexes 0 A, 1 B.  VeryLow holds A; Low holds
    B and waits for A; Med waits for A; High waits for B.  Each lock is
    issued by the task that is running at that point. *)
Definition wake_order_script : list op :=
  [ OpMutexCreate; OpMutexCreate;
    OpTaskCreate 20 0 0 30; OpSchedule; OpMutexLock 0 1;
    OpTaskCreate 15 0 0 20; OpSchedule; OpMutexLock 1 2; OpMutexLock 0 2;
    OpTaskCreate 10 0 0 15; OpSchedule; OpMutexLock 0 3;
    OpTaskCreate 1 0 0 10; OpSchedule; OpMutexLock 1 4 ].

Definition wake_order_state : System :=
  Eval vm_compute in
  run_ops isort wake_order_script (scheduler_init SCHED_PRIORITY true).

(** An aperiodic task without a deadline, created at tick 2 and looked
    at after the deadline pass of tick 3. *)
Definition aperiodic_script : list op :=
  [ OpTick; OpTick; OpTaskCreate 5 0 0 10; OpTick ].

Definition aperiodic_state : System :=
  Eval vm_compute in
  run_ops isort aperiodic_script (scheduler_init SCHED_PRIORITY false).

(** A task with a relative deadline of 10 ticks and 15 ticks of work,
    after ten ticks with dispatch. *)
Definition deadline_script : list op :=
  [ OpTaskCreate 2 0 10 15; OpAdvanceTime 10 ].

Definition deadline_state : System :=
  Eval vm_compute in
  run_ops isort deadline_script (scheduler_init SCHED_PRIORITY false).

(** The three periodic tasks of the sixth test scenario, created out of
    period order. *)
Definition rate_monotonic_script : list op :=
  [ OpTaskCreate 0 10 10 3; OpTaskCreate 0 20 20 5; OpTaskCreate 0 15 15 4 ].

Definition rate_monotonic_state : System :=
  Eval vm_compute in
  run_ops isort rate_monotonic_script
    (scheduler_init SCHED_RATE_MONOTONIC false).

(** ** Vocabulary of the statements *)

(** The priorities of all waiters of all mutexes in the held set of [t],
    in the order in which [priority_restore] visits them. *)
Definition waiter_priorities (s : System) (t : TaskControlBlock) : list Z :=
  flat_map
    (λ m,
       match mutexes s !! m with
       | Some mx => map (task_get_priority s) (wait_queue mx)
       | None => []
       end)
    (held_mutexes t).

(** The period of the task behind a handle. *)
Definition period_of (s : System) (h : nat) : Z :=
  match tasks s !! h with
  | Some t => period t
  | None => 0
  end.

(** What the C standard promises of [qsort] when the comparison orders
    the elements of the array consistently: the result is a rearrangement
    of the array, in ascending order of the comparison. *)
Definition sorts (qsort : (nat → nat → Z) → list nat → list nat) : Prop :=
  ∀ (cmp : nat → nat → Z) (l : list nat),
    (∀ a b c, a ∈ l → b ∈ l → c ∈ l →
              cmp a b ≤ 0 → cmp b c ≤ 0 → cmp a c ≤ 0) →
    (∀ a b, a ∈ l → b ∈ l → cmp a b ≤ 0 ∨ cmp b a ≤ 0) →
    qsort cmp l ≡ₚ l ∧ StronglySorted (λ a b, cmp a b ≤ 0) (qsort cmp l).

(** [tasks_rel R s s']: the two arenas have the same handles, and [R]
    relates the record behind each handle in [s] to the one in [s']. *)
Definition tasks_rel (R : relation TaskControlBlock) (s s' : System) : Prop :=
  Forall2 R (tasks s) (tasks s').

(** "Same value under [proj]", as a relation on records, and lifted to
    systems. *)
Definition proj_eq {A} (proj : TaskControlBlock → A)
    : relation TaskControlBlock :=
  λ t t', proj t' = proj t.

Definition same_proj {A} (proj : TaskControlBlock → A) (s s' : System)
    : Prop :=
  tasks_rel (proj_eq proj) s s'.

(** "The block pointer is kept and the task has not become Blocked". *)
Definition no_new_block : relation TaskControlBlock :=
  λ t t',
    blocked_on t' = blocked_on t
    ∧ (state t' = TASK_BLOCKED → state t = TASK_BLOCKED).

(** [R] is respected by every assignment to a bookkeeping field: the
    fields that only the dispatcher, the time engine and the held-set
    tracking write. *)
Record bookkeeping_stable (R : relation TaskControlBlock) : Prop := {
  bk_ready_since : ∀ v t, R t (set_ready_since v t);
  bk_preemptions : ∀ v t, R t (set_preemptions v t);
  bk_exec_time : ∀ v t, R t (set_exec_time v t);
  bk_total_exec_time : ∀ v t, R t (set_total_exec_time v t);
  bk_remaining_work : ∀ v t, R t (set_remaining_work v t);
  bk_wcet_observed : ∀ v t, R t (set_wcet_observed v t);
  bk_invocations : ∀ v t, R t (set_invocations v t);
  bk_next_release : ∀ v t, R t (set_next_release v t);
  bk_absolute_deadline : ∀ v t, R t (set_absolute_deadline v t);
  bk_deadline_misses : ∀ v t, R t (set_deadline_misses v t);
  bk_held_mutexes : ∀ v t, R t (set_held_mutexes v t)
}.

(** [R] is respected by making a task Ready or Running. *)
Record wake_stable (R : relation TaskControlBlock) : Prop := {
  wk_ready : ∀ t, R t (set_state TASK_READY t);
  wk_running : ∀ t, R t (set_state TASK_RUNNING t)
}.

(** "Inheritance only boosts": the effective priority number is at most
    the original one; and the relation of keeping that bound. *)
Definition boost_only (t : TaskControlBlock) : Prop :=
  priority t ≤ original_priority t.

Definition keeps_boost_only : relation TaskControlBlock :=
  λ t t', boost_only t → boost_only t'.




(** Every operation of a script is admitted by the discipline in the
    state it is applied to. *)
Fixpoint script_allowed (qsort : (nat → nat → Z) → list nat → list nat)
    (allowed : System → op → Prop) (l : list op) (s : System) : Prop :=
  match l with
  | [] => True
  | o :: l' => allowed s o ∧ script_allowed qsort allowed l' (run_op qsort o s)
  end.


(** A mutex whose wait queue lists each waiter once, is empty while the
    mutex is unlocked, and does not contain the owner. *)
Definition mutex_wf (mx : Mutex) : Prop :=
  NoDup (wait_queue mx)
  ∧ (locked mx = false → wait_queue mx = [])
  ∧ (∀ h, owner mx = Some h → h ∉ wait_queue mx).

(** The driver never lets a task lock a mutex that it owns or already
    waits for. *)
Definition lock_discipline (s : System) (o : op) : Prop :=
  match o with
  | OpMutexLock m h =>
      ∀ mx, mutexes s !! m = Some mx →
            owner mx ≠ Some h ∧ h ∉ wait_queue mx
  | _ => True
  end.

(** A task that locks the mutex it already owns. *)
Definition self_lock_script : list op :=
  [ OpMutexCreate; OpTaskCreate 5 0 0 10; OpSchedule;
    OpMutexLock 0 1; OpMutexLock 0 1 ].

Definition self_lock_state : System :=
  Eval vm_compute in
  run_ops isort self_lock_script (scheduler_init SCHED_PRIORITY true).

(** Two tasks that each hold one mutex and wait for the other's. *)
Definition deadlock_script : list op :=
  [ OpMutexCreate; OpMutexCreate;
    OpTaskCreate 5 0 0 10; OpSchedule; OpMutexLock 0 1;
    OpTaskCreate 3 0 0 10; OpSchedule; OpMutexLock 1 2;
    OpMutexLock 0 2; OpMutexLock 1 1 ].



(** A task that waits on a semaphore without tokens. *)
Definition semaphore_block_script : list op :=
  [ OpTaskCreate 5 0 0 10; OpSchedule; OpSemaphoreCreate 0 5;
    OpSemaphoreWait 0 1 ].

Definition semaphore_block_state : System :=
  Eval vm_compute in
  run_ops isort semaphore_block_script (scheduler_init SCHED_PRIORITY true).

(** The order of the ready queue: ascending priority number. *)
Definition priority_le (s : System) (a b : nat) : Prop :=
  task_get_priority s a ≤ task_get_priority s b.

(** The ready queue is sorted, lists each task once, and lists only tasks
    in state Ready; the registry lists each task once and only handles
    of the arena. *)
Definition ready_queue_wf (s : System) : Prop :=
  StronglySorted (priority_le s) (ready_queue s)
  ∧ NoDup (ready_queue s)
  ∧ (∀ h, h ∈ ready_queue s → task_state s h = Some TASK_READY)
  ∧ NoDup (all_tasks s)
  ∧ (∀ h, h ∈ all_tasks s → (h < length (tasks s))%nat).

(** The discipline that admits every operation with every argument. *)
Definition any_op (s : System) (o : op) : Prop := True.

(** The three fields that priority inheritance works on. *)
Definition priority_fields (t : TaskControlBlock) : Z * Z * bool :=
  (priority t, original_priority t, priority_inherited t).

(** ** Further scenarios *)

(** A chain of two holders: VeryLow (task 1) holds mutex 0; Low (task 2)
    holds mutex 1 and is blocked on mutex 0; Med (task 3) is blocked on
    mutex 0, which has boosted VeryLow to 10; High (task 4, priority 1)
    runs and has not yet asked for mutex 1. *)
Definition chain_script : list op :=
  [ OpMutexCreate; OpMutexCreate;
    OpTaskCreate 20 0 0 30; OpSchedule; OpMutexLock 0 1;
    OpTaskCreate 15 0 0 20; OpSchedule; OpMutexLock 1 2; OpMutexLock 0 2;
    OpTaskCreate 10 0 0 15; OpSchedule; OpMutexLock 0 3;
    OpTaskCreate 1 0 0 10; OpSchedule ].

Definition chain_state : System :=
  Eval vm_compute in
  run_ops isort chain_script (scheduler_init SCHED_PRIORITY true).

(** Priority inheritance disabled: task 1 (priority 10) holds mutex 0,
    its only mutex, and has been boosted to 3 by a call of
    [priority_inherit]. *)
Definition unrestored_script : list op :=
  [ OpMutexCreate; OpTaskCreate 10 0 0 10; OpSchedule; OpMutexLock 0 1;
    OpPriorityInherit 1 3 ].

Definition unrestored_state : System :=
  Eval vm_compute in
  run_ops isort unrestored_script (scheduler_init SCHED_PRIORITY false).

(** A running task of priority 20 and a ready task of priority 5 that
    has not been dispatched yet. *)
Definition preempt_script : list op :=
  [ OpTaskCreate 20 0 0 30; OpSchedule; OpTaskCreate 5 0 0 10 ].

Definition preempt_state : System :=
  Eval vm_compute in
  run_ops isort preempt_script (scheduler_init SCHED_PRIORITY false).

(** The same two tasks with the ready array filled to its capacity: 64
    entries that all name task 2.  No sequence of operations reaches a
    full ready queue beside a running task; the state is an argument
    that [scheduler_schedule] accepts. *)
Definition crowded_state : System :=
  Eval vm_compute in
  set_ready_queue (replicate MAX_READY_TASKS 2%nat) preempt_state.

(** Two aperiodic tasks of priority 5.  Task 1 is suspended and resumed
    at tick 1, which puts it behind task 2, ready since tick 0. *)
Definition requeued_script : list op :=
  [ OpTaskCreate 5 0 0 10; OpTaskCreate 5 0 0 10; OpTick;
    OpTaskSuspend 1; OpTaskResume 1 ].

Definition requeued_state : System :=
  Eval vm_compute in
  run_ops isort requeued_script (scheduler_init SCHED_PRIORITY false).

(** Three periodic tasks created under the fixed-priority policy, with
    priorities that run against their periods: periods 10, 20 and 15,
    priorities 7, 3 and 5.  Task 2 is suspended. *)
Definition unranked_script : list op :=
  [ OpTaskCreate 7 10 10 3; OpTaskCreate 3 20 20 5; OpTaskCreate 5 15 15 4;
    OpTaskSuspend 2 ].

Definition unranked_state : System :=
  Eval vm_compute in
  run_ops isort unranked_script (scheduler_init SCHED_PRIORITY false).

(** ** Definitions for the further properties *)

Record dispatch_stable (R : relation TaskControlBlock) : Prop := {
  ds_state : ∀ st t, R t (set_state st t);
  ds_ready_since : ∀ v t, R t (set_ready_since v t);
  ds_preemptions : ∀ v t, R t (set_preemptions v t);
  ds_exec_time : ∀ v t, R t (set_exec_time v t);
  ds_total_exec_time : ∀ v t, R t (set_total_exec_time v t);
  ds_remaining_work : ∀ v t, R t (set_remaining_work v t);
  ds_wcet_observed : ∀ v t, R t (set_wcet_observed v t);
  ds_invocations : ∀ v t, R t (set_invocations v t);
  ds_next_release : ∀ v t, R t (set_next_release v t);
  ds_absolute_deadline : ∀ v t, R t (set_absolute_deadline v t);
  ds_deadline_misses : ∀ v t, R t (set_deadline_misses v t)
}.

(** The fields of a task record that belong to the priority protocol,
    to the task's timing parameters and to its resources: the dispatcher
    and the time engine have no business with them. *)
Definition static_fields (t : TaskControlBlock)
    : Z * Z * Z * bool * Z * Z * Z * list nat * option nat :=
  (task_id t, priority t, original_priority t, priority_inherited t,
   priority_boosts t, period t, relative_deadline t, held_mutexes t,
   blocked_on t).

(** The operations of the dispatcher, the time engine, the state
    transitions and the semaphores. *)
Definition dispatch_op (o : op) : bool :=
  match o with
  | OpTaskSetState _ _ | OpTaskSuspend _ | OpTaskResume _
  | OpTaskTerminate _ | OpSemaphoreWait _ _ | OpSemaphoreSignal _
  | OpSchedule | OpTick | OpAdvanceTime _ | OpSimulateWork _ _ => true
  | _ => false
  end.

(** The registry lists the handles of the arena in order of creation,
    within its capacity; the identifier of a task is its handle; the
    idle task is the first task. *)
Definition registry_wf (s : System) : Prop :=
  all_tasks s = seq 0 (length (tasks s))
  ∧ (length (tasks s) ≤ MAX_ALL_TASKS)%nat
  ∧ next_id s = Z.of_nat (length (tasks s))
  ∧ idle_task s = Some 0%nat
  ∧ ∀ h t, tasks s !! h = Some t → task_id t = Z.of_nat h.

(** The part of the scheduler record that only [task_create] writes
    after initialisation. *)
Definition registry (s : System) : option nat * list nat * Z :=
  (idle_task s, all_tasks s, next_id s).

(** "The priority number has not gone up". *)
Definition not_demoted : relation TaskControlBlock :=
  λ t t', priority t' ≤ priority t.

(** The steps of a contended [mutex_lock] after the boost: record the
    mutex, block, queue, dispatch. *)
Definition block_on (s : System) (m h : nat) : System :=
  scheduler_schedule
    (wait_queue_insert
       (task_set_state (upd_task h (set_blocked_on (Some m)) s) h TASK_BLOCKED)
       m h).

(** Owners and held sets agree: a mutex is locked exactly when it has an
    owner, has waiters only while locked, never more of them than its
    queue holds, and is in the held set of its owner; a held set lists
    each mutex once, and only mutexes that the task owns. *)
Definition ownership_wf (s : System) : Prop :=
  (∀ m mx, mutexes s !! m = Some mx →
     (locked mx = true ↔ is_Some (owner mx))
     ∧ (locked mx = false → wait_queue mx = [])
     ∧ (length (wait_queue mx) ≤ MUTEX_WAIT_QUEUE_CAP)%nat
     ∧ (∀ w, w ∈ wait_queue mx → is_Some (tasks s !! w))
     ∧ (∀ h, owner mx = Some h →
             ∃ t, tasks s !! h = Some t ∧ m ∈ held_mutexes t))
  ∧ (∀ h t, tasks s !! h = Some t →
       NoDup (held_mutexes t)
       ∧ ∀ m, m ∈ held_mutexes t →
              ∃ mx, mutexes s !! m = Some mx ∧ owner mx = Some h).

(** Every Ready task other than the idle task is in the ready queue. *)
Definition ready_complete (s : System) : Prop :=
  ∀ h t, tasks s !! h = Some t → state t = TASK_READY →
         idle_task s ≠ Some h → h ∈ ready_queue s.

(** The ready queue is well formed, misses no Ready task, and the arena
    is no larger than the queue's capacity. *)
Definition ready_queue_exact (s : System) : Prop :=
  ready_queue_wf s
  ∧ ready_complete s
  ∧ (length (tasks s) ≤ MAX_READY_TASKS)%nat.

(** The condition under which [check_periodic_releases] releases a
    task, as the loop body tests it. *)
Definition release_due (s : System) (h : nat) (t : TaskControlBlock) : bool :=
  negb (bool_decide (idle_task s = Some h))
  && negb (period t =? 0)
  && (bool_decide (state t = TASK_SUSPENDED)
      && (system_ticks s >=? next_release t)
      && ((system_ticks s - next_release t) mod period t =? 0)
      && (system_ticks s =? next_release t)).

(** The record of a released task. *)
Definition release_task (now : Z) (t : TaskControlBlock) : TaskControlBlock :=
  set_ready_since now
    (set_state TASK_READY
       (set_invocations (wrap32 (invocations t + 1))
          (set_exec_time 0
             (set_absolute_deadline (wrap64 (now + relative_deadline t))
                (set_next_release (wrap64 (now + period t)) t))))).

(** What one tick does to the record of the running task. *)
Definition account_tick (t : TaskControlBlock) : TaskControlBlock :=
  let t1 :=
    set_total_exec_time (wrap64 (total_exec_time t + 1))
      (set_exec_time (wrap64 (exec_time t + 1)) t) in
  let t2 :=
    if remaining_work t1 >? 0 then
      set_remaining_work (remaining_work t1 - 1) t1
    else t1 in
  if exec_time t2 >? wcet_observed t2 then
    set_wcet_observed (exec_time t2) t2
  else t2.

(** The work counters of a task, and the fields that the deadline pass
    leaves alone. *)
Definition work_counters (t : TaskControlBlock) : Z * Z * Z :=
  (total_exec_time t, remaining_work t, wcet_observed t).

Definition outside_deadline (t : TaskControlBlock) :=
  (state t, exec_time t, work_counters t, static_fields t).

(** A semaphore within its bounds: the count lies between zero and the
    maximum, tasks wait only while there is no token, and the wait queue
    is within its capacity. *)
Definition semaphore_wf (sm : Semaphore) : Prop :=
  0 ≤ sem_count sm ≤ sem_max_count sm
  ∧ (sem_wait_queue sm ≠ [] → sem_count sm = 0)
  ∧ (length (sem_wait_queue sm) ≤ SEM_WAIT_QUEUE_CAP)%nat.

(** Semaphores are created with an initial count between zero and the
    maximum. *)
Definition semaphore_discipline (s : System) (o : op) : Prop :=
  match o with
  | OpSemaphoreCreate initial max_count => 0 ≤ initial ≤ max_count
  | _ => True
  end.

(** The part of the scheduler record that the deadline pass leaves
    alone. *)
Definition outside_tasks (s : System) :=
  (policy s, priority_inheritance_enabled s, current_task s, idle_task s,
   ready_queue s, all_tasks s, system_ticks s, context_switches s, next_id s,
   mutexes s, semaphores s).

(** One task that runs, and one free mutex. *)
Definition lone_script : list op :=
  [ OpMutexCreate; OpTaskCreate 5 0 0 10; OpSchedule ].

Definition lone_state : System :=
  Eval vm_compute in
  run_ops isort lone_script (scheduler_init SCHED_PRIORITY false).

(** A task of priority 20 that holds the mutex and is Ready, and a
    running task of priority 5. *)
Definition contended_script : list op :=
  [ OpMutexCreate; OpTaskCreate 20 0 0 30; OpSchedule; OpMutexLock 0 1;
    OpTaskCreate 5 0 0 10; OpSchedule ].

Definition contended_state : System :=
  Eval vm_compute in
  run_ops isort contended_script (scheduler_init SCHED_PRIORITY true).

(** A mutex held by task 1 with sixteen waiters, tasks 2 to 17, and a
    running task 18. *)
Definition full_queue_script : list op :=
  [ OpMutexCreate; OpTaskCreate 100 0 0 10; OpSchedule; OpMutexLock 0 1 ]
  ++ flat_map
       (λ i, [ OpTaskCreate (90 - Z.of_nat i) 0 0 10; OpSchedule;
               OpMutexLock 0 (2 + i) ])
       (seq 0 16)
  ++ [ OpTaskCreate 50 0 0 10; OpSchedule ].

Definition full_queue_state : System :=
  Eval vm_compute in
  run_ops isort full_queue_script (scheduler_init SCHED_PRIORITY false).

(** A semaphore without tokens with sixteen waiters, tasks 1 to 16, and
    a running task 17. *)
Definition full_semaphore_script : list op :=
  [ OpSemaphoreCreate 0 1 ]
  ++ flat_map
       (λ i, [ OpTaskCreate (90 - Z.of_nat i) 0 0 10; OpSchedule;
               OpSemaphoreWait 0 (1 + i) ])
       (seq 0 16)
  ++ [ OpTaskCreate 50 0 0 10; OpSchedule ].

Definition full_semaphore_state : System :=
  Eval vm_compute in
  run_ops isort full_semaphore_script (scheduler_init SCHED_PRIORITY false).

(** A periodic task of period 10 that is suspended at tick 10, the tick
    of its next release. *)
Definition release_script : list op :=
  [ OpTaskCreate 5 10 10 3; OpAdvanceTime 10; OpTaskSuspend 1 ].

Definition release_state : System :=
  Eval vm_compute in
  run_ops isort release_script (scheduler_init SCHED_PRIORITY false).

(** A running task and a semaphore with one token of two. *)
Definition token_script : list op :=
  [ OpTaskCreate 5 0 0 10; OpSchedule; OpSemaphoreCreate 1 2 ].

Definition token_state : System :=
  Eval vm_compute in
  run_ops isort token_script (scheduler_init SCHED_PRIORITY false).

(** The current task suspended and resumed without a scheduling
    decision in between. *)
Definition stall_script : list op :=
  [ OpTaskCreate 5 0 0 10; OpSchedule; OpTaskSuspend 1; OpTaskResume 1 ].

Definition stall_state : System :=
  Eval vm_compute in
  run_ops isort stall_script (scheduler_init SCHED_PRIORITY false).

(** The state of [deadline_state] one tick later, as the deadline pass of
    that tick finds it: the clock is past the deadline of task 1. *)
Definition overdue_state : System :=
  Eval vm_compute in
  set_system_ticks (wrap64 (system_ticks deadline_state + 1)) deadline_state.

(** * Properties *)

(** ** Frames: which component each primitive leaves alone *)

Lemma tasks_upd_task h f s : tasks (upd_task h f s) = alter f h (tasks s).
Proof. reflexivity. Qed.

Lemma tasks_ready_queue_insert s h : tasks (ready_queue_insert s h) = tasks s.
Proof. unfold ready_queue_insert. repeat case_match; reflexivity. Qed.

Lemma tasks_ready_queue_remove s h : tasks (ready_queue_remove s h) = tasks s.
Proof. reflexivity. Qed.

Lemma mutexes_upd_task h f s : mutexes (upd_task h f s) = mutexes s.
Proof. reflexivity. Qed.

Lemma mutexes_ready_queue_insert s h :
  mutexes (ready_queue_insert s h) = mutexes s.
Proof. unfold ready_queue_insert. repeat case_match; reflexivity. Qed.

Lemma tasks_boost_step s h t p :
  tasks (boost_step s h t p) = alter (boost_task p) h (tasks s).
Proof.
  unfold boost_step. case_decide; [rewrite tasks_ready_queue_insert|]; done.
Qed.

Lemma mutexes_boost_step s h t p : mutexes (boost_step s h t p) = mutexes s.
Proof.
  unfold boost_step. case_decide; [rewrite mutexes_ready_queue_insert|]; done.
Qed.

Lemma priority_boost_task p t : priority (boost_task p t) = p.
Proof. unfold boost_task. destruct (priority_inherited t); reflexivity. Qed.

(** ** Termination of the transitive boost *)

Lemma filter_length_alter {A} (P : A → Prop) `{!∀ x, Decision (P x)}
    (f : A → A) (l : list A) i x :
  l !! i = Some x → P x → ¬ P (f x) →
  S (length (filter P (alter f i l))) = length (filter P l).
Proof.
  revert i. induction l as [|a l IH]; intros [|i] Hi Hx Hy; simplify_eq/=.
  - rewrite filter_cons_False, filter_cons_True by done. reflexivity.
  - specialize (IH i Hi Hx Hy).
    destruct (decide (P a)).
    + rewrite !filter_cons_True by done. simpl. congruence.
    + rewrite !filter_cons_False by done. done.
Qed.

Lemma boostable_boost_step s h t p :
  tasks s !! h = Some t → p < priority t →
  S (boostable p (boost_step s h t p)) = boostable p s.
Proof.
  intros Ht Hp. unfold boostable. rewrite tasks_boost_step.
  apply (filter_length_alter (λ t, p < priority t)) with (x := t); [done..|].
  pose proof (priority_boost_task p t). simpl. lia.
Qed.

Lemma priority_inherit_rec_enough fuel s h p :
  (boostable p s ≤ fuel)%nat → is_Some (priority_inherit_rec fuel s h p).
Proof.
  revert s h. induction fuel as [|fuel IH]; intros s h Hfuel; simpl.
  - destruct (tasks s !! h) as [t|] eqn:Ht; [|by eexists].
    destruct (Z.geb_spec p (priority t)); [by eexists|].
    pose proof (boostable_boost_step s h t p Ht ltac:(lia)). lia.
  - destruct (tasks s !! h) as [t|] eqn:Ht; [|by eexists].
    destruct (Z.geb_spec p (priority t)); [by eexists|].
    pose proof (boostable_boost_step s h t p Ht ltac:(lia)).
    destruct (chain_next _ t); [|by eexists].
    apply IH. lia.
Qed.

Lemma priority_inherit_rec_more fuel fuel' s h p s' :
  priority_inherit_rec fuel s h p = Some s' → (fuel ≤ fuel')%nat →
  priority_inherit_rec fuel' s h p = Some s'.
Proof.
  revert fuel' s h. induction fuel as [|fuel IH]; intros fuel' s h; simpl.
  - destruct fuel'; simpl; repeat case_match; intros; simplify_eq; done.
  - destruct fuel'; [lia|]. simpl. repeat case_match; intros; simplify_eq;
      try done.
    apply IH; [done|lia].
Qed.

(** The unfolding of [priority_inherit] that the C function reads as. *)
Lemma priority_inherit_unfold s h p :
  priority_inherit s h p =
  match tasks s !! h with
  | None => s
  | Some t =>
      if p >=? priority t then s
      else
        let s' := boost_step s h t p in
        match chain_next s' t with
        | None => s'
        | Some o => priority_inherit s' o p
        end
  end.
Proof.
  unfold priority_inherit.
  destruct (tasks s !! h) as [t|] eqn:Ht.
  2: { destruct (boostable p s); simpl; rewrite Ht; done. }
  destruct (Z.geb_spec p (priority t)) as [Hge|Hlt].
  { destruct (boostable p s); simpl; rewrite Ht;
      destruct (Z.geb_spec p (priority t)); done || lia. }
  pose proof (boostable_boost_step s h t p Ht Hlt) as Hb.
  rewrite <- Hb. simpl. rewrite Ht.
  destruct (Z.geb_spec p (priority t)); [lia|].
  destruct (chain_next _ t) as [o|]; [|done].
  destruct (priority_inherit_rec_enough
              (boostable p (boost_step s h t p)) (boost_step s h t p) o p)
    as [s' Hs']; [done|].
  rewrite Hs'. done.
Qed.

(** A boost to [p] leaves every task whose priority number is already at
    most [p] as it is. *)
Lemma priority_inherit_rec_frame fuel s h p s' i ti :
  priority_inherit_rec fuel s h p = Some s' →
  tasks s !! i = Some ti → priority ti ≤ p → tasks s' !! i = Some ti.
Proof.
  revert s h. induction fuel as [|fuel IH]; intros s h; simpl.
  - repeat case_match; intros; simplify_eq; done.
  - destruct (tasks s !! h) as [t|] eqn:Ht; [|intros; simplify_eq; done].
    destruct (Z.geb_spec p (priority t)); [intros; simplify_eq; done|].
    intros Hrec Hi Hle.
    assert (i ≠ h) by (intros ->; simplify_eq; lia).
    assert (tasks (boost_step s h t p) !! i = Some ti) as Hi'.
    { rewrite tasks_boost_step, list_lookup_alter_ne by done. done. }
    destruct (chain_next _ t); [|by simplify_eq].
    eapply IH; done.
Qed.

Lemma priority_inherit_frame s h p i ti :
  tasks s !! i = Some ti → priority ti ≤ p →
  tasks (priority_inherit s h p) !! i = Some ti.
Proof.
  intros Hi Hle. unfold priority_inherit.
  destruct (priority_inherit_rec_enough (boostable p s) s h p) as [s' Hs'];
    [done|].
  rewrite Hs'. simpl. eapply priority_inherit_rec_frame; done.
Qed.

Lemma chain_next_boost_step s h t p t0 :
  chain_next (boost_step s h t p) t0 = chain_next s t0.
Proof. unfold chain_next. rewrite mutexes_boost_step. reflexivity. Qed.

Lemma priority_inherit_step s h t p :
  tasks s !! h = Some t → p < priority t →
  priority_inherit s h p =
  match blocked_on t with
  | Some m =>
      match mutexes s !! m with
      | Some mx =>
          match owner mx with
          | Some o => priority_inherit (boost_step s h t p) o p
          | None => boost_step s h t p
          end
      | None => boost_step s h t p
      end
  | None => boost_step s h t p
  end.
Proof.
  intros Ht Hlt. rewrite priority_inherit_unfold, Ht.
  destruct (Z.geb_spec p (priority t)); [lia|].
  simpl. rewrite chain_next_boost_step. unfold chain_next.
  destruct (blocked_on t) as [m|]; [|done].
  destruct (mutexes s !! m) as [mx|]; [|done].
  by destruct (owner mx).
Qed.

Lemma priority_inherit_record s h t p :
  tasks s !! h = Some t → p < priority t →
  tasks (priority_inherit s h p) !! h = Some (boost_task p t).
Proof.
  intros Ht Hlt.
  assert (tasks (boost_step s h t p) !! h = Some (boost_task p t)) as Hstep.
  { rewrite tasks_boost_step, list_lookup_alter_eq, Ht. reflexivity. }
  rewrite (priority_inherit_step s h t p Ht Hlt).
  destruct (blocked_on t) as [m|]; [|done].
  destruct (mutexes s !! m) as [mx|]; [|done].
  destruct (owner mx) as [o|]; [|done].
  apply priority_inherit_frame; [done|].
  rewrite priority_boost_task. lia.
Qed.

(** C1.  [priority_inherit(task, p)] changes nothing when [p] is not
    strictly below the task's priority number.  Otherwise the task's
    record becomes [boost_task p t]: the priority is [p], the inherited
    flag is set, the original priority is snapshotted only if the flag
    was clear (a nested boost keeps the earlier snapshot), and the boost
    counter goes up by one.  If the task is not blocked on a mutex, or
    that mutex does not exist or has no owner, the call ends there.  If
    the task is blocked on a mutex [m] whose owner is [o], the call
    continues as [priority_inherit(o, p)]: an owner other than the task
    itself ends boosted to [p] in the same way when its priority number
    was above [p], and unchanged when it was not.  Every boost lowers
    [boostable p] by one, so the recursion returns for every state: any
    fuel of at least [boostable p s] yields the result. *)
Theorem priority_inherit_boost s h t p :
  tasks s !! h = Some t →
  (priority t ≤ p → priority_inherit s h p = s)
  ∧ (p < priority t →
     tasks (priority_inherit s h p) !! h = Some (boost_task p t)
     ∧ priority (boost_task p t) = p
     ∧ priority_inherited (boost_task p t) = true
     ∧ original_priority (boost_task p t) =
         (if priority_inherited t then original_priority t else priority t)
     ∧ priority_boosts (boost_task p t) = wrap32 (priority_boosts t + 1)
     ∧ (blocked_on t = None →
        priority_inherit s h p = boost_step s h t p)
     ∧ (∀ m, blocked_on t = Some m →
          mutexes s !! m = None
          ∨ (∃ mx, mutexes s !! m = Some mx ∧ owner mx = None) →
          priority_inherit s h p = boost_step s h t p)
     ∧ (∀ m mx o,
          blocked_on t = Some m → mutexes s !! m = Some mx →
          owner mx = Some o →
          priority_inherit s h p =
            priority_inherit (boost_step s h t p) o p
          ∧ ∀ to,
              tasks s !! o = Some to → o ≠ h →
              (p < priority to →
               tasks (priority_inherit s h p) !! o =
                 Some (boost_task p to))
              ∧ (priority to ≤ p →
                 tasks (priority_inherit s h p) !! o = Some to))
     ∧ S (boostable p (boost_step s h t p)) = boostable p s)
  ∧ (∀ fuel, (boostable p s ≤ fuel)%nat →
       priority_inherit_rec fuel s h p =
       Some (priority_inherit s h p)).
Proof.
  intros Ht. split; [|split].
  - intros Hle. rewrite priority_inherit_unfold, Ht.
    destruct (Z.geb_spec p (priority t)); [done|lia].
  - intros Hlt.
    pose proof (priority_inherit_step s h t p Ht Hlt) as Hunf.
    split_and!.
    + by apply priority_inherit_record.
    + apply priority_boost_task.
    + unfold boost_task. destruct (priority_inherited t) eqn:E; simpl; done.
    + unfold boost_task. destruct (priority_inherited t); reflexivity.
    + unfold boost_task. destruct (priority_inherited t); reflexivity.
    + intros Hb. by rewrite Hunf, Hb.
    + intros m Hb [Hm|(mx & Hm & Ho)]; rewrite Hunf, Hb, Hm; [done|].
      by rewrite Ho.
    + intros m mx o Hb Hm Ho. rewrite Hunf, Hb, Hm, Ho.
      split; [done|]. intros to Hto Hne.
      assert (tasks (boost_step s h t p) !! o = Some to) as Hto'.
      { by rewrite tasks_boost_step, list_lookup_alter_ne. }
      split; intros Hp.
      * by apply priority_inherit_record.
      * by apply priority_inherit_frame.
    + apply boostable_boost_step; done.
  - intros fuel Hfuel. unfold priority_inherit.
    destruct (priority_inherit_rec_enough (boostable p s) s h p)
      as [s' Hs']; [done|].
    rewrite Hs'. simpl. eapply priority_inherit_rec_more; done.
Qed.

(** ** Frames on task records

    An operation that assigns only some fields of some records relates
    the arena before to the arena after record by record.  Each
    operation gets one frame lemma, for any preorder [R] that the
    assignments it makes respect. *)

#[global] Instance proj_eq_preorder {A} (proj : TaskControlBlock → A) :
  PreOrder (proj_eq proj).
Proof. split; unfold proj_eq; [intros ?|intros ???]; congruence. Qed.

#[global] Instance no_new_block_preorder : PreOrder no_new_block.
Proof.
  split; unfold no_new_block; [intros ?|intros ???]; intuition congruence.
Qed.

Section TasksRel.
Context (R : relation TaskControlBlock) `{!PreOrder R}.

Lemma tasks_rel_refl s : tasks_rel R s s.
Proof. unfold tasks_rel. apply Forall2_same_length_lookup. naive_solver. Qed.

Lemma tasks_rel_trans s1 s2 s3 :
  tasks_rel R s1 s2 → tasks_rel R s2 s3 → tasks_rel R s1 s3.
Proof. unfold tasks_rel. intros H1 H2. by etrans. Qed.

Lemma tasks_rel_tasks s s' : tasks s' = tasks s → tasks_rel R s s'.
Proof. unfold tasks_rel. intros ->. apply tasks_rel_refl. Qed.

Lemma tasks_rel_lookup s s' h t :
  tasks_rel R s s' → tasks s !! h = Some t →
  ∃ t', tasks s' !! h = Some t' ∧ R t t'.
Proof. unfold tasks_rel. intros H Ht. by eapply Forall2_lookup_l. Qed.

Lemma tasks_rel_lookup_r s s' h t' :
  tasks_rel R s s' → tasks s' !! h = Some t' →
  ∃ t, tasks s !! h = Some t ∧ R t t'.
Proof. unfold tasks_rel. intros H Ht. by eapply Forall2_lookup_r. Qed.

Lemma tasks_rel_length s s' :
  tasks_rel R s s' → length (tasks s') = length (tasks s).
Proof. unfold tasks_rel. intros H. symmetry. by eapply Forall2_length. Qed.

Lemma tasks_rel_upd_task s h f :
  (∀ t, R t (f t)) → tasks_rel R s (upd_task h f s).
Proof.
  intros Hf. unfold tasks_rel. rewrite tasks_upd_task.
  apply Forall2_same_length_lookup. split; [by rewrite length_alter|].
  intros i x y Hx Hy. destruct (decide (h = i)) as [->|].
  - rewrite list_lookup_alter_eq, Hx in Hy. simplify_eq/=. apply Hf.
  - rewrite list_lookup_alter_ne in Hy by done. by simplify_eq.
Qed.

Lemma tasks_rel_ready_queue_insert s h :
  tasks_rel R s (ready_queue_insert s h).
Proof. apply tasks_rel_tasks, tasks_ready_queue_insert. Qed.

End TasksRel.

(** Chains of primitive updates: peel the outermost one. *)
Ltac frame_setter :=
  match goal with
  | |- tasks_rel ?R ?s (set_current_task _ ?x) => change (tasks_rel R s x)
  | |- tasks_rel ?R ?s (set_idle_task _ ?x) => change (tasks_rel R s x)
  | |- tasks_rel ?R ?s (set_ready_queue _ ?x) => change (tasks_rel R s x)
  | |- tasks_rel ?R ?s (set_all_tasks _ ?x) => change (tasks_rel R s x)
  | |- tasks_rel ?R ?s (set_system_ticks _ ?x) => change (tasks_rel R s x)
  | |- tasks_rel ?R ?s (set_context_switches _ ?x) => change (tasks_rel R s x)
  | |- tasks_rel ?R ?s (set_next_id _ ?x) => change (tasks_rel R s x)
  | |- tasks_rel ?R ?s (set_mutexes _ ?x) => change (tasks_rel R s x)
  | |- tasks_rel ?R ?s (set_semaphores _ ?x) => change (tasks_rel R s x)
  | |- tasks_rel ?R ?s (upd_mutex _ _ ?x) => change (tasks_rel R s x)
  | |- tasks_rel ?R ?s (upd_semaphore _ _ ?x) => change (tasks_rel R s x)
  | |- tasks_rel ?R ?s (ready_queue_remove ?x _) => change (tasks_rel R s x)
  end.

Ltac frame_step :=
  first
    [ apply tasks_rel_refl; solve [tc_solve]
    | frame_setter
    | eapply tasks_rel_trans;
      [solve [tc_solve]
      | |first [ apply tasks_rel_ready_queue_insert; solve [tc_solve]
               | apply tasks_rel_upd_task;
                 [solve [tc_solve] | intros; simpl; eauto] ]] ].

Ltac frame := repeat (case_match || case_decide); repeat frame_step.

Section Frames.
Context (R : relation TaskControlBlock) `{!PreOrder R}.

Lemma tasks_rel_task_set_state s h st :
  (∀ t, R t (set_state st t)) → (∀ v t, R t (set_ready_since v t)) →
  tasks_rel R s (task_set_state s h st).
Proof. intros H1 H2. unfold task_set_state. frame. Qed.

Lemma tasks_rel_context_switch s from to :
  (∀ t, R t (set_state TASK_READY t)) →
  (∀ t, R t (set_state TASK_RUNNING t)) →
  (∀ v t, R t (set_ready_since v t)) →
  (∀ v t, R t (set_preemptions v t)) →
  tasks_rel R s (scheduler_context_switch s from to).
Proof.
  intros H1 H2 H3 H4. unfold scheduler_context_switch. frame.
  all: etrans; [apply H1|apply H3].
Qed.

Lemma tasks_rel_schedule s :
  (∀ t, R t (set_state TASK_READY t)) →
  (∀ t, R t (set_state TASK_RUNNING t)) →
  (∀ v t, R t (set_ready_since v t)) →
  (∀ v t, R t (set_preemptions v t)) →
  tasks_rel R s (scheduler_schedule s).
Proof.
  intros H1 H2 H3 H4. unfold scheduler_schedule.
  repeat (case_match || case_decide);
    first [by apply tasks_rel_refl | by apply tasks_rel_context_switch].
Qed.

Lemma tasks_rel_add_held_mutex s h m :
  (∀ v t, R t (set_held_mutexes v t)) →
  tasks_rel R s (task_add_held_mutex s h m).
Proof. intros H1. unfold task_add_held_mutex. frame. Qed.

Lemma tasks_rel_remove_held_mutex s h m :
  (∀ v t, R t (set_held_mutexes v t)) →
  tasks_rel R s (task_remove_held_mutex s h m).
Proof. intros H1. unfold task_remove_held_mutex. frame. Qed.

Lemma tasks_rel_wait_queue_insert s m h :
  tasks_rel R s (wait_queue_insert s m h).
Proof. unfold wait_queue_insert. frame. Qed.

Lemma tasks_rel_mutex_handoff s m :
  (∀ t, R t (set_state TASK_READY t)) →
  (∀ v t, R t (set_ready_since v t)) →
  (∀ v t, R t (set_held_mutexes v t)) →
  (∀ t, R t (set_blocked_on None t)) →
  tasks_rel R s (mutex_handoff s m).
Proof.
  intros H1 H2 H3 H4. unfold mutex_handoff, wait_queue_pop.
  repeat case_match; simplify_eq; try solve [frame].
  eapply tasks_rel_trans; [done| |by apply tasks_rel_task_set_state].
  eapply tasks_rel_trans; [done| |by apply tasks_rel_add_held_mutex].
  frame.
Qed.

End Frames.

(** Frames that say "same value of [proj]". *)

Lemma same_proj_refl {A} (proj : TaskControlBlock → A) s : same_proj proj s s.
Proof. apply tasks_rel_refl, _. Qed.

Lemma same_proj_trans {A} (proj : TaskControlBlock → A) s1 s2 s3 :
  same_proj proj s1 s2 → same_proj proj s2 s3 → same_proj proj s1 s3.
Proof. apply tasks_rel_trans, _. Qed.

Lemma same_proj_lookup {A} (proj : TaskControlBlock → A) s s' h :
  same_proj proj s s' → proj <$> tasks s' !! h = proj <$> tasks s !! h.
Proof.
  intros H. destruct (tasks s !! h) as [t|] eqn:Ht.
  - destruct (tasks_rel_lookup _ _ _ _ _ H Ht) as (t' & -> & E). simpl.
    by f_equal.
  - destruct (tasks s' !! h) as [t'|] eqn:Ht'; [|done].
    destruct (tasks_rel_lookup_r _ _ _ _ _ H Ht') as (t & ? & _). congruence.
Qed.

Lemma same_proj_lookup_Some {A} (proj : TaskControlBlock → A) s s' h t :
  same_proj proj s s' → tasks s !! h = Some t →
  ∃ t', tasks s' !! h = Some t' ∧ proj t' = proj t.
Proof. intros H Ht. by eapply (tasks_rel_lookup (proj_eq proj)). Qed.

Lemma same_proj_lookup_None {A} (proj : TaskControlBlock → A) s s' h :
  same_proj proj s s' → tasks s !! h = None → tasks s' !! h = None.
Proof.
  intros H Ht. apply (same_proj_lookup _ _ _ h) in H. rewrite Ht in H.
  destruct (tasks s' !! h); simplify_eq/=. done.
Qed.

Lemma same_proj_upd_task {A} (proj : TaskControlBlock → A) s h f :
  (∀ t, proj (f t) = proj t) → same_proj proj s (upd_task h f s).
Proof. intros Hf. apply tasks_rel_upd_task; [apply _|done]. Qed.

Lemma same_proj_ready_queue_insert {A} (proj : TaskControlBlock → A) s h :
  same_proj proj s (ready_queue_insert s h).
Proof. apply tasks_rel_ready_queue_insert, _. Qed.

Lemma same_proj_weaken {A B} (proj : TaskControlBlock → A) (f : A → B) s s' :
  same_proj proj s s' → same_proj (f ∘ proj) s s'.
Proof.
  unfold same_proj, tasks_rel. intros H. eapply Forall2_impl; [exact H|].
  unfold proj_eq. simpl. intros ?? ->. done.
Qed.

(** ** Priority restoration *)

Lemma fold_left_min_spec (l : list Z) (n : Z) :
  fold_left Z.min l n ≤ n
  ∧ Forall (Z.le (fold_left Z.min l n)) l
  ∧ (fold_left Z.min l n = n ∨ fold_left Z.min l n ∈ l).
Proof.
  revert n. induction l as [|x l IH]; intros n; simpl.
  - split_and!; [lia|constructor|by left].
  - destruct (IH (Z.min n x)) as (H1 & H2 & H3). split_and!.
    + lia.
    + constructor; [lia|done].
    + destruct H3 as [H3|H3]; [|right; by constructor].
      destruct (Z.min_spec n x) as [[? E]|[? E]].
      * left. lia.
      * right. rewrite H3, E. constructor.
Qed.

Lemma waiter_pressure_min s n q :
  waiter_pressure s n q = fold_left Z.min (map (task_get_priority s) q) n.
Proof.
  unfold waiter_pressure. revert n. induction q as [|w q IH]; intros n;
    simpl; [done|].
  rewrite IH. f_equal. destruct (Z.ltb_spec (task_get_priority s w) n); lia.
Qed.

Lemma needed_priority_min s t :
  needed_priority s t =
  fold_left Z.min (waiter_priorities s t) (original_priority t).
Proof.
  unfold needed_priority, waiter_priorities.
  generalize (original_priority t).
  induction (held_mutexes t) as [|m l IH]; intros n; simpl; [done|].
  rewrite fold_left_app, IH. f_equal.
  destruct (mutexes s !! m); [apply waiter_pressure_min|done].
Qed.

Lemma waiter_priorities_uncontended s t :
  (∀ m mx, m ∈ held_mutexes t → mutexes s !! m = Some mx →
           wait_queue mx = []) →
  waiter_priorities s t = [].
Proof.
  unfold waiter_priorities.
  induction (held_mutexes t) as [|m l IH]; intros H; simpl; [done|].
  rewrite IH by (intros; eapply H; [by constructor|done]).
  destruct (mutexes s !! m) as [mx|] eqn:E; [|done].
  rewrite (H m mx); [done|constructor|done].
Qed.

Lemma priority_restore_lookup s h t :
  tasks s !! h = Some t → priority_inherited t = true →
  tasks (priority_restore s h) !! h =
  Some (restore_task (needed_priority s t) t).
Proof.
  intros Ht Hinh. unfold priority_restore. rewrite Ht, Hinh. simpl.
  case_decide; rewrite ?tasks_ready_queue_insert; simpl;
    rewrite list_lookup_alter_eq, Ht; done.
Qed.

Lemma priority_fields_unlock_tail s m :
  same_proj priority_fields s (scheduler_schedule (mutex_handoff s m)).
Proof.
  eapply same_proj_trans;
    [apply tasks_rel_mutex_handoff|apply tasks_rel_schedule];
    first [apply _ | by intros].
Qed.

(** C2.  For a task whose inherited flag is set, [priority_restore]
    installs the minimum of the saved original priority and the
    priorities of all waiters of all mutexes in the held set, keeps the
    saved original, and clears the flag exactly when that minimum is the
    original.  Hence, with priority inheritance enabled, when the owner
    unlocks a mutex and none of the mutexes that stay in its held set
    has a waiter, it ends with the flag clear and its priority equal to
    its original priority.  With priority inheritance disabled
    [mutex_unlock] does not restore: the task keeps its priority, its
    saved original and its flag. *)
Theorem priority_restore_minimum s h t :
  tasks s !! h = Some t → priority_inherited t = true →
  let needed := needed_priority s t in
  (needed ≤ original_priority t
   ∧ Forall (Z.le needed) (waiter_priorities s t)
   ∧ (needed = original_priority t ∨ needed ∈ waiter_priorities s t))
  ∧ (∃ t', tasks (priority_restore s h) !! h = Some t'
       ∧ priority t' = needed
       ∧ original_priority t' = original_priority t
       ∧ (priority_inherited t' = false ↔ needed = original_priority t))
  ∧ (∀ m mx,
       priority_inheritance_enabled s = true →
       mutexes s !! m = Some mx → owner mx = Some h →
       (∀ m' mx', m' ∈ remove_first m (held_mutexes t) →
                  mutexes s !! m' = Some mx' → wait_queue mx' = []) →
       ∃ t', tasks (mutex_unlock s m h) !! h = Some t'
         ∧ priority_inherited t' = false
         ∧ priority t' = original_priority t'
         ∧ original_priority t' = original_priority t)
  ∧ (∀ m,
       priority_inheritance_enabled s = false →
       ∃ t', tasks (mutex_unlock s m h) !! h = Some t'
         ∧ priority_inherited t' = true
         ∧ priority t' = priority t
         ∧ original_priority t' = original_priority t).
Proof.
  intros Ht Hinh needed. split_and!.
  - unfold needed. rewrite needed_priority_min. apply fold_left_min_spec.
  - unfold needed. rewrite needed_priority_min. apply fold_left_min_spec.
  - unfold needed. rewrite needed_priority_min. apply fold_left_min_spec.
  - eexists. split; [by apply priority_restore_lookup|].
    unfold restore_task. simpl. case_decide; simpl; split_and!; try done.
    rewrite Hinh. split; [done|]. intros E. by destruct H.
  - intros m mx Hpi Hm Hown Hfree.
    unfold mutex_unlock. rewrite Hm, Ht. rewrite decide_True by done.
    unfold task_remove_held_mutex at 1 2. rewrite Hm.
    change (priority_inheritance_enabled (upd_task _ _ s))
      with (priority_inheritance_enabled s). rewrite Hpi.
    set (t1 := set_held_mutexes (remove_first m (held_mutexes t)) t).
    set (s1 := upd_task h _ s).
    assert (tasks s1 !! h = Some t1) as Ht1.
    { unfold s1. rewrite tasks_upd_task, list_lookup_alter_eq, Ht. done. }
    assert (needed_priority s1 t1 = original_priority t) as Hneed.
    { rewrite needed_priority_min, waiter_priorities_uncontended; [done|].
      intros m' mx' Hin Hm'. eapply Hfree; done. }
    pose proof (priority_restore_lookup s1 h t1 Ht1 Hinh) as Hres.
    rewrite Hneed in Hres.
    destruct (same_proj_lookup_Some priority_fields _ _ h _
                (priority_fields_unlock_tail (priority_restore s1 h) m) Hres)
      as (t' & Ht' & Hf).
    exists t'. split; [done|].
    unfold priority_fields, restore_task in Hf. simpl in Hf.
    rewrite decide_True in Hf by done. simpl in Hf.
    injection Hf as E1 E2 E3. rewrite E1, E2, E3. done.
  - intros m Hpi.
    assert (same_proj priority_fields s (mutex_unlock s m h)) as Hsame.
    { unfold mutex_unlock.
      destruct (mutexes s !! m) as [mx|] eqn:Hm; [|apply same_proj_refl].
      rewrite Ht. case_decide; [|apply same_proj_refl].
      assert (task_remove_held_mutex s h m =
              upd_task h
                (λ t, set_held_mutexes (remove_first m (held_mutexes t)) t)
                s) as ->.
      { unfold task_remove_held_mutex. by rewrite Hm. }
      change (priority_inheritance_enabled (upd_task _ _ s))
        with (priority_inheritance_enabled s). rewrite Hpi.
      eapply same_proj_trans; [|apply priority_fields_unlock_tail].
      by apply same_proj_upd_task. }
    destruct (same_proj_lookup_Some _ _ _ _ _ Hsame Ht) as (t' & Ht' & E).
    exists t'. unfold priority_fields in E. injection E as E1 E2 E3.
    split_and!; congruence.
Qed.

(** With priority inheritance disabled, a task that was boosted by
    [priority_inherit] and releases its only mutex stays boosted:
    [mutex_unlock] calls [priority_restore] only when inheritance is
    enabled. *)
Theorem mutex_unlock_keeps_boost :
  priority_inheritance_enabled unrestored_state = false
  ∧ ∃ mx t t',
      mutexes unrestored_state !! 0%nat = Some mx
      ∧ owner mx = Some 1%nat ∧ wait_queue mx = []
      ∧ tasks unrestored_state !! 1%nat = Some t
      ∧ held_mutexes t = [0%nat]
      ∧ priority_inherited t = true
      ∧ tasks (mutex_unlock unrestored_state 0 1) !! 1%nat = Some t'
      ∧ held_mutexes t' = []
      ∧ priority_inherited t' = true
      ∧ priority t' = 3
      ∧ original_priority t' = 10.
Proof.
  split; [reflexivity|]. eexists. eexists. eexists.
  split; [vm_compute; reflexivity|]. split; [reflexivity|].
  split; [reflexivity|]. split; [vm_compute; reflexivity|].
  split; [reflexivity|]. split; [reflexivity|].
  split; [vm_compute; reflexivity|]. by repeat split.
Qed.

(** ** Frames on the mutex arena *)

Lemma mutexes_task_set_state s h st :
  mutexes (task_set_state s h st) = mutexes s.
Proof.
  unfold task_set_state. repeat (case_match || case_decide);
    rewrite ?mutexes_ready_queue_insert; reflexivity.
Qed.

Lemma mutexes_context_switch s from to :
  mutexes (scheduler_context_switch s from to) = mutexes s.
Proof.
  unfold scheduler_context_switch. repeat (case_match || case_decide);
    simpl; rewrite ?mutexes_ready_queue_insert; reflexivity.
Qed.

Lemma mutexes_schedule s : mutexes (scheduler_schedule s) = mutexes s.
Proof.
  unfold scheduler_schedule. repeat (case_match || case_decide);
    rewrite ?mutexes_context_switch; reflexivity.
Qed.

Lemma mutexes_add_held_mutex s h m :
  mutexes (task_add_held_mutex s h m) = mutexes s.
Proof. unfold task_add_held_mutex. by case_match. Qed.

Lemma mutexes_remove_held_mutex s h m :
  mutexes (task_remove_held_mutex s h m) = mutexes s.
Proof. unfold task_remove_held_mutex. by case_match. Qed.

Lemma mutexes_priority_restore s h : mutexes (priority_restore s h) = mutexes s.
Proof.
  unfold priority_restore. repeat (case_match || case_decide);
    rewrite ?mutexes_ready_queue_insert; reflexivity.
Qed.

Lemma mutexes_priority_inherit_rec fuel s h p s' :
  priority_inherit_rec fuel s h p = Some s' → mutexes s' = mutexes s.
Proof.
  revert s h. induction fuel as [|fuel IH]; intros s h; simpl;
    repeat case_match; intros Hrec; simplify_eq; try done.
  - by rewrite (IH _ _ Hrec), mutexes_boost_step.
  - by rewrite mutexes_boost_step.
Qed.

Lemma mutexes_priority_inherit s h p :
  mutexes (priority_inherit s h p) = mutexes s.
Proof.
  unfold priority_inherit.
  destruct (priority_inherit_rec _ s h p) eqn:E; simpl; [|done].
  by eapply mutexes_priority_inherit_rec.
Qed.

(** ** State changes *)

Lemma task_state_upd_task s h f i :
  task_state (upd_task h f s) i =
  if decide (h = i) then state ∘ f <$> tasks s !! i else task_state s i.
Proof.
  unfold task_state. rewrite tasks_upd_task. case_decide as E.
  - subst. rewrite list_lookup_alter_eq. by destruct (tasks s !! i).
  - by rewrite list_lookup_alter_ne.
Qed.

Lemma task_state_ready_queue_insert s h i :
  task_state (ready_queue_insert s h) i = task_state s i.
Proof. unfold task_state. by rewrite tasks_ready_queue_insert. Qed.

Lemma task_set_state_state s h st t :
  tasks s !! h = Some t → task_state (task_set_state s h st) h = Some st.
Proof.
  intros Ht. unfold task_set_state. rewrite Ht.
  case_decide as E; [unfold task_state; rewrite Ht; simpl; congruence|].
  repeat case_match;
    rewrite ?task_state_ready_queue_insert;
    repeat (rewrite task_state_upd_task, decide_True by done;
            rewrite ?tasks_upd_task, ?list_lookup_alter_eq);
    unfold task_state, ready_queue_remove; simpl;
    rewrite ?list_lookup_alter_eq, ?Ht; done.
Qed.

(** ** The steps of an unlock *)

(** [mutex_unlock] by the owner is, in this order: removal from the held
    set, priority restore (with inheritance enabled), handoff, dispatch.
    The restore runs on a mutex arena that still shows the old owner and
    the full wait queue.  The handoff gives the mutex to the head of the
    wait queue, which stays locked, or unlocks it when nobody waits. *)
Lemma mutex_unlock_steps s m h mx t :
  mutexes s !! m = Some mx → tasks s !! h = Some t → owner mx = Some h →
  let s1 := task_remove_held_mutex s h m in
  let s2 := if priority_inheritance_enabled s then priority_restore s1 h
            else s1 in
  let s3 := mutex_handoff s2 m in
  mutex_unlock s m h = scheduler_schedule s3
  ∧ held_mutexes <$> tasks s1 !! h = Some (remove_first m (held_mutexes t))
  ∧ mutexes s2 = mutexes s
  ∧ mutexes (mutex_unlock s m h) = mutexes s3
  ∧ match wait_queue mx with
    | w :: rest =>
        mutexes s3 !! m =
          Some (mkMutex (locked mx) (Some w) rest)
        ∧ (∀ tw, tasks s2 !! w = Some tw →
             ∃ tw', tasks s3 !! w = Some tw'
               ∧ blocked_on tw' = None
               ∧ held_mutexes tw' = held_mutexes tw ++ [m]
               ∧ state tw' = TASK_READY)
    | [] => mutexes s3 !! m = Some (mkMutex false None [])
    end.
Proof.
  intros Hm Ht Hown s1 s2 s3.
  assert (mutexes s2 = mutexes s) as Hm2.
  { unfold s2, s1. case_match;
      rewrite ?mutexes_priority_restore, mutexes_remove_held_mutex; done. }
  split_and!.
  - unfold mutex_unlock. rewrite Hm, Ht, decide_True by done.
    unfold s3, s2, s1. unfold task_remove_held_mutex. rewrite Hm. done.
  - unfold s1, task_remove_held_mutex. rewrite Hm, tasks_upd_task.
    rewrite list_lookup_alter_eq, Ht. done.
  - done.
  - unfold mutex_unlock. rewrite Hm, Ht, decide_True by done.
    rewrite mutexes_schedule. unfold s3, s2, s1.
    replace (priority_inheritance_enabled (task_remove_held_mutex s h m))
      with (priority_inheritance_enabled s); [done|].
    unfold task_remove_held_mutex. by rewrite Hm.
  - unfold s3, mutex_handoff, wait_queue_pop. rewrite Hm2, Hm.
    destruct (wait_queue mx) as [|w rest] eqn:Hq.
    + unfold upd_mutex. simpl. rewrite Hm2, list_lookup_alter_eq, Hm. simpl.
      destruct mx; simpl in *; by subst.
    + split.
      * rewrite mutexes_task_set_state, mutexes_add_held_mutex. simpl.
        rewrite Hm2, list_lookup_alter_eq, list_lookup_alter_eq, Hm. simpl.
        destruct mx; simpl in *; by subst.
      * intros tw Hw.
        set (s4 := task_add_held_mutex _ w m).
        assert (tasks s4 !! w =
                Some (set_held_mutexes (held_mutexes tw ++ [m])
                        (set_blocked_on None tw))) as Hw4.
        { unfold s4, task_add_held_mutex. simpl.
          rewrite Hm2, !list_lookup_alter_eq, Hm. simpl.
          rewrite !list_lookup_alter_eq, Hw. done. }
        pose proof (task_set_state_state s4 w TASK_READY _ Hw4) as Hst.
        destruct (same_proj_lookup_Some
                    (λ t, (blocked_on t, held_mutexes t)) s4
                    (task_set_state s4 w TASK_READY) w _
                    ltac:(by apply tasks_rel_task_set_state; [apply _|..])
                    Hw4)
          as (tw' & Htw' & Hf).
        exists tw'. unfold task_state in Hst. rewrite Htw' in Hst.
        simpl in *. by simplify_eq.
Qed.

(** C3.  The steps of [mutex_unlock] come in the order the claim gives
    ([mutex_unlock_steps]), but the waiter that is handed the mutex is
    the head of the wait queue, and the queue is ordered by the
    priorities the waiters had when they were inserted.  At the end of
    [wake_order_script] task 2 waits for mutex 0 behind task 3; a
    transitive boost has since raised task 2 to priority 1, above task 3
    at priority 10.  The owner's unlock hands the mutex to task 3, and
    task 2 stays blocked. *)
Theorem mutex_unlock_wakes_stale_head :
  let s := wake_order_state in
  owner <$> mutexes s !! 0%nat = Some (Some 1%nat)
  ∧ wait_queue <$> mutexes s !! 0%nat = Some [3%nat; 2%nat]
  ∧ task_get_priority s 3 = 10
  ∧ task_get_priority s 2 = 1
  ∧ owner <$> mutexes (mutex_unlock s 0 1) !! 0%nat = Some (Some 3%nat)
  ∧ task_state (mutex_unlock s 0 1) 2 = Some TASK_BLOCKED.
Proof. vm_compute. done. Qed.

(** ** Priority-ordered insertion *)

Lemma task_get_priority_same_proj s s' h :
  same_proj priority s s' → task_get_priority s' h = task_get_priority s h.
Proof.
  intros H. apply (same_proj_lookup _ _ _ h) in H. unfold task_get_priority.
  destruct (tasks s' !! h), (tasks s !! h); simplify_eq/=; done.
Qed.

Lemma insert_pos_ext s s' p q :
  (∀ i, i ∈ q → task_get_priority s' i = task_get_priority s i) →
  insert_pos s' p q = insert_pos s p q.
Proof.
  induction q as [|x q IH]; intros H; simpl; [done|].
  rewrite H by constructor. rewrite IH; [done|].
  intros. apply H. by constructor.
Qed.

Lemma priority_insert_ext s s' h q :
  (∀ i, task_get_priority s' i = task_get_priority s i) →
  priority_insert s' h q = priority_insert s h q.
Proof.
  intros H. unfold priority_insert. rewrite H, (insert_pos_ext s s'); auto.
Qed.

Lemma priority_insert_nil s h : priority_insert s h [] = [h].
Proof. reflexivity. Qed.

Lemma priority_insert_cons s h x q :
  priority_insert s h (x :: q) =
  if task_get_priority s h <? task_get_priority s x then h :: x :: q
  else x :: priority_insert s h q.
Proof.
  unfold priority_insert, array_insert_at. simpl. by case_match.
Qed.

Lemma elem_of_priority_insert s h q i :
  i ∈ priority_insert s h q ↔ i = h ∨ i ∈ q.
Proof.
  unfold priority_insert, array_insert_at.
  generalize (insert_pos s (task_get_priority s h) q). intros pos.
  assert (i ∈ q ↔ i ∈ take pos q ∨ i ∈ drop pos q) as E.
  { by rewrite <- elem_of_app, take_drop. }
  rewrite elem_of_app, elem_of_cons. tauto.
Qed.

(** ** Dispatch *)

Lemma context_switch_idle s from n tn :
  tasks s !! n = Some tn → from ≠ Some n →
  (∀ c, from = Some c → task_state s c ≠ Some TASK_RUNNING) →
  let s' := scheduler_context_switch s from (Some n) in
  tasks s' !! n = Some (set_state TASK_RUNNING tn)
  ∧ (∀ i, i ≠ n → tasks s' !! i = tasks s !! i)
  ∧ ready_queue s' = remove_first n (ready_queue s)
  ∧ current_task s' = Some n
  ∧ context_switches s' = wrap64 (context_switches s + 1).
Proof.
  intros Hn Hne Hnot. unfold scheduler_context_switch.
  rewrite decide_False by done.
  assert (match from with
          | Some c =>
              if decide (task_state s c = Some TASK_RUNNING) then
                upd_task c
                  (λ t, set_preemptions (wrap32 (preemptions t + 1)) t)
                  (ready_queue_insert
                     (upd_task c
                        (λ t, set_ready_since (system_ticks s)
                                (set_state TASK_READY t)) s) c)
              else s
          | None => s
          end = s) as ->.
  { destruct from as [c|]; [|done]. rewrite decide_False; [done|].
    by apply Hnot. }
  simpl. rewrite list_lookup_alter_eq, Hn. split_and!; try done.
  intros i Hi. by rewrite list_lookup_alter_ne.
Qed.

Lemma task_get_priority_lookup s h t :
  tasks s !! h = Some t → task_get_priority s h = priority t.
Proof. intros H. unfold task_get_priority. by rewrite H. Qed.

(** ** The deadline pass *)

Lemma check_deadline_scalars s h :
  system_ticks (check_deadline s h) = system_ticks s
  ∧ idle_task (check_deadline s h) = idle_task s
  ∧ all_tasks (check_deadline s h) = all_tasks s.
Proof. unfold check_deadline. repeat case_match; done. Qed.

Lemma deadline_missed_ext s s' h t :
  system_ticks s' = system_ticks s → idle_task s' = idle_task s →
  deadline_missed s' h t = deadline_missed s h t.
Proof. intros H1 H2. unfold deadline_missed. by rewrite H1, H2. Qed.

Lemma check_deadline_other s h h' :
  h ≠ h' → tasks (check_deadline s h') !! h = tasks s !! h.
Proof.
  intros Hne. unfold check_deadline. repeat case_match; try done.
  by rewrite tasks_upd_task, list_lookup_alter_ne.
Qed.

Lemma check_deadline_self s h t :
  tasks s !! h = Some t →
  tasks (check_deadline s h) !! h =
  Some (if deadline_missed s h t then record_miss t else t).
Proof.
  intros Ht. unfold check_deadline. rewrite Ht.
  destruct (deadline_missed s h t); [|done].
  by rewrite tasks_upd_task, list_lookup_alter_eq, Ht.
Qed.

Lemma deadline_missed_record_miss s h t :
  system_ticks s ≤ UINT64_MAX → deadline_missed s h (record_miss t) = false.
Proof.
  intros Hle. unfold deadline_missed, record_miss. simpl.
  destruct (Z.gtb_spec (system_ticks s) UINT64_MAX); [lia|].
  by rewrite !andb_false_r.
Qed.

Lemma fold_check_deadline_scalars l s :
  system_ticks (fold_left check_deadline l s) = system_ticks s
  ∧ idle_task (fold_left check_deadline l s) = idle_task s.
Proof.
  revert s. induction l as [|x l IH]; intros s; simpl; [done|].
  destruct (IH (check_deadline s x)) as [-> ->].
  destruct (check_deadline_scalars s x) as (-> & -> & _). done.
Qed.

Lemma fold_check_deadline_kept l s h t :
  tasks s !! h = Some t → deadline_missed s h t = false →
  tasks (fold_left check_deadline l s) !! h = Some t.
Proof.
  revert s. induction l as [|x l IH]; intros s Ht Hmiss; simpl; [done|].
  destruct (check_deadline_scalars s x) as (E1 & E2 & _).
  apply IH.
  - destruct (decide (h = x)) as [->|Hne].
    + by rewrite (check_deadline_self s x t Ht), Hmiss.
    + by rewrite check_deadline_other.
  - by rewrite (deadline_missed_ext s).
Qed.

Lemma fold_check_deadline_missed l s h t :
  tasks s !! h = Some t → deadline_missed s h t = true → h ∈ l →
  system_ticks s ≤ UINT64_MAX →
  tasks (fold_left check_deadline l s) !! h = Some (record_miss t).
Proof.
  revert s. induction l as [|x l IH]; intros s Ht Hmiss Hin Hle; simpl.
  { by apply elem_of_nil in Hin. }
  destruct (check_deadline_scalars s x) as (E1 & E2 & _).
  destruct (decide (h = x)) as [->|Hne].
  - apply fold_check_deadline_kept.
    + by rewrite (check_deadline_self s x t Ht), Hmiss.
    + apply deadline_missed_record_miss. by rewrite E1.
  - apply IH.
    + by rewrite check_deadline_other.
    + by rewrite (deadline_missed_ext s).
    + apply elem_of_cons in Hin as [?|?]; done.
    + by rewrite E1.
Qed.

(** C9, as stated, fails on an aperiodic task without a relative
    deadline.  In [aperiodic_state] task 1 is registered, is not the idle
    task, is ready, has work left and an absolute deadline of 2, and the
    clock shows 3; the deadline pass of that tick has counted no miss and
    a further pass counts none either. *)
Lemma check_deadlines_skips_aperiodic :
  let s := aperiodic_state in
  ∃ t, tasks s !! 1%nat = Some t
    ∧ 1%nat ∈ all_tasks s
    ∧ idle_task s ≠ Some 1%nat
    ∧ state t = TASK_READY
    ∧ absolute_deadline t > 0
    ∧ system_ticks s > absolute_deadline t
    ∧ remaining_work t > 0
    ∧ deadline_misses t = 0
    ∧ tasks (check_deadlines s) !! 1%nat = Some t.
Proof.
  eexists. split; [vm_compute; reflexivity|].
  split_and!; try (vm_compute; done).
  apply list_elem_of_lookup. exists 1%nat. vm_compute. done.
Qed.

(** C9, amended.  In the deadline pass, a registered non-idle task in
    state Running or Ready with a positive absolute deadline is left
    alone when the clock equals its deadline.  When the clock is strictly
    past the deadline and work remains, and the task is periodic or has
    a non-zero relative deadline, the pass increments [deadline_misses]
    once and sets the absolute deadline to [UINT64_MAX]; with that
    sentinel in place no later pass counts the window again. *)
Theorem check_deadlines_miss s h t :
  tasks s !! h = Some t → h ∈ all_tasks s → idle_task s ≠ Some h →
  state t = TASK_RUNNING ∨ state t = TASK_READY →
  absolute_deadline t > 0 →
  system_ticks s ≤ UINT64_MAX →
  (system_ticks s = absolute_deadline t →
   tasks (check_deadlines s) !! h = Some t)
  ∧ (system_ticks s > absolute_deadline t → remaining_work t > 0 →
     ¬ (period t = 0 ∧ relative_deadline t = 0) →
     tasks (check_deadlines s) !! h = Some (record_miss t)
     ∧ deadline_misses (record_miss t) = wrap32 (deadline_misses t + 1)
     ∧ absolute_deadline (record_miss t) = UINT64_MAX
     ∧ ∀ s2 t2,
         tasks s2 !! h = Some t2 → absolute_deadline t2 = UINT64_MAX →
         system_ticks s2 ≤ UINT64_MAX →
         tasks (check_deadlines s2) !! h = Some t2).
Proof.
  intros Ht Hin Hidle Hst Hpos Hmax. split.
  - intros Heq. apply fold_check_deadline_kept; [done|].
    unfold deadline_missed.
    destruct (Z.gtb_spec (system_ticks s) (absolute_deadline t)); [lia|].
    by rewrite !andb_false_r.
  - intros Hgt Hwork Hper. split_and!; try done.
    + apply fold_check_deadline_missed; try done.
      unfold deadline_missed.
      rewrite bool_decide_eq_false_2 by done.
      destruct (Z.gtb_spec (absolute_deadline t) 0); [|lia].
      destruct (Z.gtb_spec (system_ticks s) (absolute_deadline t)); [|lia].
      destruct (Z.gtb_spec (remaining_work t) 0); [|lia].
      assert ((period t =? 0) && (relative_deadline t =? 0) = false) as ->.
      { destruct (Z.eqb_spec (period t) 0),
          (Z.eqb_spec (relative_deadline t) 0); simpl; try done.
        destruct Hper; done. }
      destruct Hst as [-> | ->]; done.
    + intros s2 t2 Ht2 Hsent Hle2.
      apply fold_check_deadline_kept; [done|].
      unfold deadline_missed. rewrite Hsent.
      destruct (Z.gtb_spec (system_ticks s2) UINT64_MAX); [lia|].
      by rewrite !andb_false_r.
Qed.

(** ** Rate-monotonic ranks *)

Lemma priority_insert_perm s h q : priority_insert s h q ≡ₚ h :: q.
Proof.
  unfold priority_insert, array_insert_at.
  generalize (insert_pos s (task_get_priority s h) q). intros pos.
  rewrite <- Permutation_middle. by rewrite take_drop.
Qed.

Lemma assign_ranks_other s k l h :
  h ∉ l → tasks (assign_ranks s k l) !! h = tasks s !! h.
Proof.
  revert s k. induction l as [|x l IH]; intros s k Hin; simpl; [done|].
  apply not_elem_of_cons in Hin as [Hne Hin].
  rewrite IH by done. by rewrite tasks_upd_task, list_lookup_alter_ne.
Qed.

Lemma assign_ranks_lookup s k l i h t :
  NoDup l → l !! i = Some h → tasks s !! h = Some t →
  tasks (assign_ranks s k l) !! h =
  Some (set_original_priority (k + Z.of_nat i)
          (set_priority (k + Z.of_nat i) t)).
Proof.
  revert s k i. induction l as [|x l IH]; intros s k i Hnd Hi Ht; [done|].
  apply NoDup_cons in Hnd as [Hx Hnd]. destruct i as [|i]; simplify_eq/=.
  - rewrite assign_ranks_other by done.
    rewrite tasks_upd_task, list_lookup_alter_eq, Ht. simpl.
    by rewrite Z.add_0_r.
  - assert (h ≠ x) by (intros ->; apply Hx; by eapply list_elem_of_lookup_2).
    rewrite (IH _ _ i); [|done..|].
    + replace (k + 1 + Z.of_nat i) with (k + Z.of_nat (S i)) by lia. done.
    + by rewrite tasks_upd_task, list_lookup_alter_ne.
Qed.

Lemma assign_ranks_same_proj {A} (proj : TaskControlBlock → A) s k l :
  (∀ v t, proj (set_priority v t) = proj t) →
  (∀ v t, proj (set_original_priority v t) = proj t) →
  same_proj proj s (assign_ranks s k l).
Proof.
  intros H1 H2. revert s k. induction l as [|x l IH]; intros s k; simpl.
  - apply same_proj_refl.
  - eapply same_proj_trans; [|apply IH].
    apply same_proj_upd_task. intros t. by rewrite H2, H1.
Qed.

Lemma assign_ranks_scalars s k l :
  idle_task (assign_ranks s k l) = idle_task s
  ∧ all_tasks (assign_ranks s k l) = all_tasks s
  ∧ ready_queue (assign_ranks s k l) = ready_queue s.
Proof.
  revert s k. induction l as [|x l IH]; intros s k; simpl; [done|].
  destruct (IH (upd_task x (λ t, set_original_priority k (set_priority k t)) s)
              (k + 1)) as (-> & -> & ->). done.
Qed.

Lemma is_ready_task_ext s s' h :
  same_proj state s s' → idle_task s' = idle_task s →
  is_ready_task s' h = is_ready_task s h.
Proof.
  intros H Hidle. apply (same_proj_lookup _ _ _ h) in H.
  unfold is_ready_task. rewrite Hidle.
  destruct (tasks s' !! h), (tasks s !! h); simplify_eq/=; try done.
  match goal with E : state _ = state _ |- _ => by rewrite E end.
Qed.

(** The rebuild loop.  With room for every candidate, the queue it leaves
    holds the ready, non-idle tasks of the list, once each. *)
Lemma rebuild_loop l s :
  (length (ready_queue s) + length l ≤ MAX_READY_TASKS)%nat →
  let s' :=
    fold_left
      (λ acc h, if is_ready_task acc h then ready_queue_insert acc h else acc)
      l s in
  tasks s' = tasks s ∧ idle_task s' = idle_task s
  ∧ ready_queue s' ≡ₚ
      filter (λ h, is_ready_task s h = true) l ++ ready_queue s.
Proof.
  revert s. induction l as [|x l IH]; intros s Hroom; simpl.
  { done. }
  simpl in Hroom.
  destruct (is_ready_task s x) eqn:Hx.
  - assert (ready_queue (ready_queue_insert s x) =
            priority_insert s x (ready_queue s)) as Hq.
    { unfold ready_queue_insert, is_ready_task in *.
      destruct (tasks s !! x); [|done].
      destruct (Nat.leb_spec MAX_READY_TASKS (length (ready_queue s)));
        [lia|done]. }
    assert (idle_task (ready_queue_insert s x) = idle_task s) as Hi.
    { unfold ready_queue_insert. by repeat case_match. }
    destruct (IH (ready_queue_insert s x)) as (H1 & H2 & H3).
    { rewrite Hq, priority_insert_perm. simpl. lia. }
    rewrite H1, H2, H3, tasks_ready_queue_insert, Hi, Hq.
    split_and!; try done.
    rewrite filter_cons_True by done.
    rewrite priority_insert_perm.
    erewrite (list_filter_iff _ (λ h, is_ready_task s h = true)).
    + simpl. by rewrite Permutation_middle.
    + intros h. rewrite (is_ready_task_ext s); try done.
      apply same_proj_ready_queue_insert.
  - destruct (IH s) as (H1 & H2 & H3); [lia|].
    rewrite filter_cons_False by (rewrite Hx; done). done.
Qed.

Lemma StronglySorted_lookup {A} (R : A → A → Prop) l i j a b :
  StronglySorted R l → l !! i = Some a → l !! j = Some b → (i < j)%nat →
  R a b.
Proof.
  intros Hs. revert i j. induction Hs as [|x l Hs IH Hall]; intros i j Hi Hj Hlt.
  { done. }
  destruct i as [|i], j as [|j]; simplify_eq/=; try lia.
  - rewrite Forall_forall in Hall. apply Hall. by eapply list_elem_of_lookup_2.
  - eapply IH; [done..|lia].
Qed.

Lemma StronglySorted_weaken {A} (R1 R2 : A → A → Prop) l :
  (∀ a b, a ∈ l → b ∈ l → R1 a b → R2 a b) →
  StronglySorted R1 l → StronglySorted R2 l.
Proof.
  intros Himp Hs. induction Hs as [|x l Hs IH Hall]; constructor.
  - apply IH. intros a b Ha Hb. apply Himp; by constructor.
  - rewrite Forall_forall in *. intros y Hy.
    apply Himp; [constructor|by constructor|by apply Hall].
Qed.

Lemma is_periodic_period s h :
  is_periodic s h = true →
  ∃ t, tasks s !! h = Some t ∧ 0 < period t ∧ state t ≠ TASK_TERMINATED
       ∧ idle_task s ≠ Some h.
Proof.
  unfold is_periodic. destruct (tasks s !! h) as [t|]; [|done].
  intros H. exists t.
  destruct (Z.gtb_spec (period t) 0); [|done].
  repeat case_bool_decide; naive_solver.
Qed.

Lemma cmp_period_le s a b :
  is_periodic s a = true → is_periodic s b = true →
  cmp_period s a b ≤ 0 ↔ period_of s a ≤ period_of s b.
Proof.
  intros (ta & Ha & Hpa & _)%is_periodic_period
         (tb & Hb & Hpb & _)%is_periodic_period.
  unfold cmp_period, period_of. rewrite Ha, Hb.
  destruct (Z.eqb_spec (period ta) 0); [lia|].
  destruct (Z.eqb_spec (period tb) 0); [lia|]. simpl.
  destruct (Z.ltb_spec (period ta) (period tb)); [lia|].
  destruct (Z.gtb_spec (period ta) (period tb)); lia.
Qed.

Lemma tasks_rebuild_ready_queue s :
  (length (all_tasks s) ≤ MAX_READY_TASKS)%nat →
  tasks (rebuild_ready_queue s) = tasks s
  ∧ ready_queue (rebuild_ready_queue s) ≡ₚ
      filter (λ h, is_ready_task s h = true) (all_tasks s).
Proof.
  intros Hroom. unfold rebuild_ready_queue.
  destruct (rebuild_loop (all_tasks s) (set_ready_queue [] s))
    as (H1 & H2 & H3); [simpl; lia|].
  split; [done|]. rewrite H3. simpl. by rewrite app_nil_r.
Qed.

Lemma is_periodic_fields s h :
  is_periodic s h = true ↔
  ∃ t, tasks s !! h = Some t ∧ 0 < period t
       ∧ state t ≠ TASK_TERMINATED ∧ idle_task s ≠ Some h.
Proof.
  unfold is_periodic. destruct (tasks s !! h) as [t|];
    [|split; [done|by intros (? & ? & _)]].
  rewrite !andb_true_iff, !negb_true_iff, !bool_decide_eq_false.
  rewrite Z.gtb_gt. split.
  - intros [[H1 H2] H3]. exists t. split_and!; [done|lia|done..].
  - intros (t' & [= <-] & H1 & H2 & H3). split_and!; [lia|done..].
Qed.

Lemma is_ready_task_fields s h :
  is_ready_task s h = true ↔
  ∃ t, tasks s !! h = Some t ∧ state t = TASK_READY
       ∧ idle_task s ≠ Some h.
Proof.
  unfold is_ready_task. destruct (tasks s !! h) as [t|];
    [|split; [done|by intros (? & ? & _)]].
  rewrite andb_true_iff, negb_true_iff, bool_decide_eq_true,
    bool_decide_eq_false.
  split.
  - intros [H1 H2]. by exists t.
  - by intros (t' & [= <-] & H1 & H2).
Qed.

(** C10.  Let [qsort] sort as the C standard says, and let the registry
    list every task once and be within its capacity.  After
    [rms_recalculate_priorities] the ranked tasks are exactly the
    registered tasks with a positive period that are neither terminated
    nor the idle task, each once, in ascending period order; the task of
    rank [i] has priority and original priority [i], so of two such
    tasks the one with the strictly shorter period has the strictly
    smaller priority number; every other task keeps its priority and
    original priority.  Periods and states are as before, and the ready
    queue holds exactly the registered tasks that are Ready and not the
    idle task, once each. *)
Theorem rms_recalculate_ranks qsort s :
  sorts qsort →
  NoDup (all_tasks s) →
  (length (all_tasks s) ≤ MAX_ALL_TASKS)%nat →
  let s' := rms_recalculate_priorities qsort s in
  let periodic := filter (λ h, is_periodic s h = true) (all_tasks s) in
  ∃ ranked : list nat,
    ranked ≡ₚ periodic
    ∧ StronglySorted (λ a b, period_of s a ≤ period_of s b) ranked
    ∧ (∀ i h, ranked !! i = Some h →
         ∃ t', tasks s' !! h = Some t'
           ∧ priority t' = Z.of_nat i
           ∧ original_priority t' = Z.of_nat i)
    ∧ (∀ h1 h2, h1 ∈ periodic → h2 ∈ periodic →
         period_of s h1 < period_of s h2 →
         task_get_priority s' h1 < task_get_priority s' h2)
    ∧ same_proj (λ t, (period t, state t)) s s'
    ∧ ready_queue s' ≡ₚ
        filter (λ h, is_ready_task s h = true) (all_tasks s)
    ∧ NoDup ranked
    ∧ (∀ h, h ∈ ranked ↔
         h ∈ all_tasks s
         ∧ ∃ t, tasks s !! h = Some t ∧ 0 < period t
                ∧ state t ≠ TASK_TERMINATED ∧ idle_task s ≠ Some h)
    ∧ (∀ h t, h ∉ ranked → tasks s !! h = Some t →
         ∃ t', tasks s' !! h = Some t'
           ∧ priority t' = priority t
           ∧ original_priority t' = original_priority t)
    ∧ (∀ h1 h2 t1 t2 t1' t2',
         h1 ∈ ranked → h2 ∈ ranked →
         tasks s !! h1 = Some t1 → tasks s !! h2 = Some t2 →
         tasks s' !! h1 = Some t1' → tasks s' !! h2 = Some t2' →
         period t1 < period t2 → priority t1' < priority t2')
    ∧ NoDup (ready_queue s')
    ∧ (∀ h, h ∈ ready_queue s' ↔
         h ∈ all_tasks s
         ∧ ∃ t, tasks s !! h = Some t ∧ state t = TASK_READY
                ∧ idle_task s ≠ Some h).
Proof.
  intros Hsort Hnd Hcap s' periodic.
  set (ranked := qsort (cmp_period s) periodic).
  assert (∀ h, h ∈ periodic → is_periodic s h = true) as Hper.
  { intros h Hh. by apply list_elem_of_filter in Hh as [? _]. }
  destruct (Hsort (cmp_period s) periodic) as [Hperm Hsorted].
  { intros a b c Ha Hb Hc.
    rewrite !cmp_period_le by auto. lia. }
  { intros a b Ha Hb. rewrite !cmp_period_le by auto. lia. }
  fold ranked in Hperm, Hsorted.
  assert (NoDup ranked) as Hndr.
  { rewrite Hperm. by apply NoDup_filter. }
  set (s1 := assign_ranks s 0 ranked).
  destruct (assign_ranks_scalars s 0 ranked) as (Hidle & Hall & Hrq).
  fold s1 in Hidle, Hall, Hrq.
  destruct (tasks_rebuild_ready_queue s1) as [Htasks Hq].
  { rewrite Hall. unfold MAX_READY_TASKS. unfold MAX_ALL_TASKS in Hcap. lia. }
  assert (tasks s' = tasks s1) as Hs' by done.
  assert (∀ i h, ranked !! i = Some h →
            ∃ t', tasks s' !! h = Some t'
              ∧ priority t' = Z.of_nat i
              ∧ original_priority t' = Z.of_nat i) as Hrank.
  { intros i h Hi.
    assert (h ∈ periodic) as Hh.
    { rewrite <- Hperm. by eapply list_elem_of_lookup_2. }
    destruct (is_periodic_period s h (Hper h Hh)) as (t & Ht & _).
    eexists. rewrite Hs'. unfold s1.
    rewrite (assign_ranks_lookup s 0 ranked i h t) by done. done. }
  assert (∀ h1 h2, h1 ∈ periodic → h2 ∈ periodic →
            period_of s h1 < period_of s h2 →
            task_get_priority s' h1 < task_get_priority s' h2) as Hmono.
  { intros h1 h2 H1 H2 Hlt.
    rewrite <- Hperm in H1, H2.
    apply list_elem_of_lookup in H1 as [i1 Hi1].
    apply list_elem_of_lookup in H2 as [i2 Hi2].
    destruct (Hrank i1 h1 Hi1) as (t1 & Ht1 & Hp1 & _).
    destruct (Hrank i2 h2 Hi2) as (t2 & Ht2 & Hp2 & _).
    rewrite (task_get_priority_lookup _ _ _ Ht1).
    rewrite (task_get_priority_lookup _ _ _ Ht2).
    rewrite Hp1, Hp2.
    destruct (decide (i1 < i2)%nat) as [|Hge]; [lia|].
    destruct (decide (i1 = i2)) as [->|Hne]; [simplify_eq; lia|].
    assert (cmp_period s h2 h1 ≤ 0) as Hle.
    { apply (StronglySorted_lookup (λ a b, cmp_period s a b ≤ 0)
               ranked i2 i1 h2 h1 Hsorted Hi2 Hi1). lia. }
    rewrite cmp_period_le in Hle.
    + lia.
    + apply Hper. rewrite <- Hperm. by eapply list_elem_of_lookup_2.
    + apply Hper. rewrite <- Hperm. by eapply list_elem_of_lookup_2. }
  assert (ready_queue s' ≡ₚ
            filter (λ h, is_ready_task s h = true) (all_tasks s)) as Hq'.
  { etrans; [exact Hq|]. rewrite Hall.
    erewrite (list_filter_iff _ (λ h, is_ready_task s h = true)); [done|].
    intros h. rewrite (is_ready_task_ext s); [done| |done].
    apply assign_ranks_same_proj; by intros ??. }
  exists ranked. split_and!.
  - done.
  - eapply StronglySorted_weaken; [|exact Hsorted].
    intros a b Ha Hb. rewrite Hperm in Ha, Hb.
    by rewrite cmp_period_le by auto.
  - done.
  - done.
  - unfold same_proj, tasks_rel. rewrite Hs'.
    apply (assign_ranks_same_proj (λ t, (period t, state t))); by intros ??.
  - done.
  - done.
  - intros h. rewrite Hperm. unfold periodic.
    rewrite list_elem_of_filter, is_periodic_fields. tauto.
  - intros h t Hout Ht. exists t. rewrite Hs'. unfold s1.
    by rewrite assign_ranks_other.
  - intros h1 h2 t1 t2 t1' t2' H1 H2 Ht1 Ht2 Ht1' Ht2' Hlt.
    rewrite Hperm in H1, H2.
    specialize (Hmono h1 h2 H1 H2). unfold period_of in Hmono.
    rewrite Ht1, Ht2 in Hmono.
    rewrite (task_get_priority_lookup _ _ _ Ht1') in Hmono.
    rewrite (task_get_priority_lookup _ _ _ Ht2') in Hmono. by apply Hmono.
  - rewrite Hq'. by apply NoDup_filter.
  - intros h. rewrite Hq'.
    rewrite list_elem_of_filter, is_ready_task_fields. tauto.
Qed.

(** Insertion sort is one [qsort]. *)

Lemma isort_insert_perm cmp x l : isort_insert cmp x l ≡ₚ x :: l.
Proof.
  induction l as [|y l IH]; simpl; [done|].
  case_match; [done|]. rewrite IH. apply Permutation_swap.
Qed.

Lemma isort_perm cmp l : isort cmp l ≡ₚ l.
Proof.
  induction l as [|x l IH]; simpl; [done|].
  by rewrite isort_insert_perm, IH.
Qed.

Lemma isort_insert_sorted (cmp : nat → nat → Z) (dom : list nat) x l :
  (∀ a b c, a ∈ dom → b ∈ dom → c ∈ dom →
            cmp a b ≤ 0 → cmp b c ≤ 0 → cmp a c ≤ 0) →
  (∀ a b, a ∈ dom → b ∈ dom → cmp a b ≤ 0 ∨ cmp b a ≤ 0) →
  x ∈ dom → (∀ y, y ∈ l → y ∈ dom) →
  StronglySorted (λ a b, cmp a b ≤ 0) l →
  StronglySorted (λ a b, cmp a b ≤ 0) (isort_insert cmp x l).
Proof.
  intros Htrans Htotal Hx Hl Hs.
  induction Hs as [|y l Hs IH Hall]; simpl.
  { repeat constructor. }
  assert (y ∈ dom) as Hy by (apply Hl; constructor).
  assert (∀ z, z ∈ l → z ∈ dom) as Hl' by (intros; apply Hl; by constructor).
  destruct (Z.leb_spec (cmp x y) 0) as [Hle|Hgt].
  - constructor; [by constructor|].
    constructor; [done|]. rewrite Forall_forall in *. intros z Hz.
    apply (Htrans x y z); auto.
  - constructor; [by apply IH|].
    rewrite Forall_forall in *. intros z Hz.
    rewrite isort_insert_perm in Hz. apply elem_of_cons in Hz as [->|Hz].
    + destruct (Htotal x y Hx Hy); [lia|done].
    + by apply Hall.
Qed.

Lemma isort_sorts : sorts isort.
Proof.
  intros cmp l Htrans Htotal. split; [apply isort_perm|].
  assert (∀ k, (∀ y, y ∈ k → y ∈ l) →
            StronglySorted (λ a b, cmp a b ≤ 0) (isort cmp k)) as Hgen;
    [|by apply Hgen].
  intros k. induction k as [|x k IH]; intros Hsub; simpl; [constructor|].
  apply (isort_insert_sorted cmp l); try done.
  - apply Hsub. constructor.
  - intros y Hy. rewrite isort_perm in Hy. apply Hsub. by constructor.
  - apply IH. intros y Hy. apply Hsub. by constructor.
Qed.

(** ** The theorems at work on the scenarios *)

Lemma priority_inherit_boost_witness :
  ∃ t to,
    tasks chain_state !! 2%nat = Some t
    ∧ blocked_on t = Some 0%nat
    ∧ priority t = 15
    ∧ tasks chain_state !! 1%nat = Some to
    ∧ priority to = 10
    ∧ tasks (priority_inherit chain_state 2 1) !! 2%nat
      = Some (boost_task 1 t)
    ∧ tasks (priority_inherit chain_state 2 1) !! 1%nat
      = Some (boost_task 1 to).
Proof.
  eexists. eexists.
  split; [vm_compute; reflexivity|]. split; [reflexivity|].
  split; [reflexivity|]. split; [vm_compute; reflexivity|].
  split; [reflexivity|].
  destruct (priority_inherit_boost chain_state 2 _ 1 eq_refl)
    as (_ & H & _).
  destruct H as (H1 & _ & _ & _ & _ & _ & _ & H2 & _); [reflexivity|].
  split; [exact H1|].
  destruct (H2 0%nat _ 1%nat eq_refl eq_refl eq_refl) as [_ H3].
  apply (H3 _ eq_refl); [discriminate|reflexivity].
Defined.

Lemma priority_restore_minimum_witness :
  ∃ t, tasks wake_order_state !! 1%nat = Some t
    ∧ priority_inherited t = true
    ∧ ∃ t', tasks (mutex_unlock wake_order_state 0 1) !! 1%nat = Some t'
        ∧ priority_inherited t' = false
        ∧ priority t' = original_priority t'
        ∧ original_priority t' = original_priority t.
Proof.
  eexists. split; [vm_compute; reflexivity|]. split; [reflexivity|].
  refine (proj1 (proj2 (proj2
            (priority_restore_minimum wake_order_state 1 _ _ _)))
            0%nat _ _ _ _ _).
  - vm_compute. reflexivity.
  - reflexivity.
  - reflexivity.
  - vm_compute. reflexivity.
  - reflexivity.
  - intros m' mx' Hin. vm_compute in Hin. by apply elem_of_nil in Hin.
Defined.

Lemma check_deadlines_miss_witness :
  ∃ t, tasks deadline_state !! 1%nat = Some t
    ∧ system_ticks deadline_state = absolute_deadline t
    ∧ tasks (check_deadlines deadline_state) !! 1%nat = Some t.
Proof.
  eexists. split; [vm_compute; reflexivity|]. split; [reflexivity|].
  refine (proj1 (check_deadlines_miss deadline_state 1 _ _ _ _ _ _ _) _).
  - vm_compute. reflexivity.
  - apply list_elem_of_lookup. exists 1%nat. vm_compute. reflexivity.
  - vm_compute. discriminate.
  - left. reflexivity.
  - reflexivity.
  - vm_compute. discriminate.
  - reflexivity.
Defined.

Lemma rms_recalculate_ranks_witness :
  period_of unranked_state 1 < period_of unranked_state 3
  ∧ task_get_priority unranked_state 3 < task_get_priority unranked_state 1
  ∧ task_get_priority
      (rms_recalculate_priorities isort unranked_state) 1
    < task_get_priority
        (rms_recalculate_priorities isort unranked_state) 3
  ∧ (1%nat ∈ ready_queue (rms_recalculate_priorities isort unranked_state))
  ∧ (2%nat ∉ ready_queue (rms_recalculate_priorities isort unranked_state)).
Proof.
  split; [reflexivity|]. split; [reflexivity|].
  destruct (rms_recalculate_ranks isort unranked_state)
    as (ranked & _ & _ & _ & H & _ & _ & _ & _ & _ & _ & _ & Hq).
  - exact isort_sorts.
  - apply (bool_decide_unpack (NoDup _)). vm_compute. exact I.
  - vm_compute. lia.
  - split_and!.
    + apply H.
      * apply list_elem_of_lookup. exists 0%nat. vm_compute. reflexivity.
      * apply list_elem_of_lookup. exists 2%nat. vm_compute. reflexivity.
      * reflexivity.
    + apply Hq. split.
      * apply list_elem_of_lookup. exists 1%nat. vm_compute. reflexivity.
      * eexists. split; [vm_compute; reflexivity|].
        split; [reflexivity|]. vm_compute. discriminate.
    + intros Hin. apply Hq in Hin as (_ & t & Ht & Hst & _).
      vm_compute in Ht. injection Ht as <-. discriminate.
Defined.

(** ** Frames of the compound operations *)

Section CompoundFrames.
Context (R : relation TaskControlBlock) `{!PreOrder R}.

Lemma tasks_rel_upd_task_at s h f t :
  tasks s !! h = Some t → R t (f t) → tasks_rel R s (upd_task h f s).
Proof.
  intros Ht Hf. unfold tasks_rel. rewrite tasks_upd_task.
  apply Forall2_same_length_lookup. split; [by rewrite length_alter|].
  intros i x y Hx Hy. destruct (decide (h = i)) as [->|].
  - rewrite list_lookup_alter_eq, Hx in Hy. by simplify_eq/=.
  - rewrite list_lookup_alter_ne in Hy by done. by simplify_eq.
Qed.

Lemma tasks_rel_fold_left {A} (f : System → A → System) l s :
  (∀ s x, tasks_rel R s (f s x)) → tasks_rel R s (fold_left f l s).
Proof.
  intros Hf. revert s. induction l as [|x l IH]; intros s; simpl.
  - by apply tasks_rel_refl.
  - eapply tasks_rel_trans; [done|apply Hf|apply IH].
Qed.



Lemma tasks_rel_task_set_priority s h p :
  (∀ t, R t (set_priority p t)) → tasks_rel R s (task_set_priority s h p).
Proof. intros H1. unfold task_set_priority. frame. Qed.

Lemma tasks_rel_boost_step s h t p :
  tasks s !! h = Some t → R t (boost_task p t) →
  tasks_rel R s (boost_step s h t p).
Proof.
  intros Ht Hb. unfold boost_step. case_decide.
  - eapply tasks_rel_trans; [done| |by apply tasks_rel_ready_queue_insert].
    frame_setter. by eapply tasks_rel_upd_task_at.
  - by eapply tasks_rel_upd_task_at.
Qed.

Lemma tasks_rel_priority_inherit_rec fuel s h p s' :
  (∀ t, p < priority t → R t (boost_task p t)) →
  priority_inherit_rec fuel s h p = Some s' → tasks_rel R s s'.
Proof.
  intros Hb. revert s h. induction fuel as [|fuel IH]; intros s h; simpl.
  - repeat case_match; intros; simplify_eq; by apply tasks_rel_refl.
  - destruct (tasks s !! h) as [t|] eqn:Ht;
      [|intros; simplify_eq; by apply tasks_rel_refl].
    destruct (Z.geb_spec p (priority t));
      [intros; simplify_eq; by apply tasks_rel_refl|].
    assert (tasks_rel R s (boost_step s h t p)) as Hstep.
    { apply tasks_rel_boost_step; [done|]. apply Hb. lia. }
    destruct (chain_next _ t); intros Hrec; [|by simplify_eq].
    eapply tasks_rel_trans; [done|exact Hstep|by eapply IH].
Qed.

Lemma tasks_rel_priority_inherit s h p :
  (∀ t, p < priority t → R t (boost_task p t)) →
  tasks_rel R s (priority_inherit s h p).
Proof.
  intros Hb. unfold priority_inherit.
  destruct (priority_inherit_rec _ s h p) eqn:E; simpl.
  - by eapply tasks_rel_priority_inherit_rec.
  - by apply tasks_rel_refl.
Qed.

Lemma tasks_rel_priority_restore s h :
  (∀ s t, R t (restore_task (needed_priority s t) t)) →
  tasks_rel R s (priority_restore s h).
Proof.
  intros H1. unfold priority_restore.
  destruct (tasks s !! h) as [t|] eqn:Ht; [|by apply tasks_rel_refl].
  destruct (priority_inherited t); simpl; [|by apply tasks_rel_refl].
  case_decide.
  - eapply tasks_rel_trans; [done| |by apply tasks_rel_ready_queue_insert].
    frame_setter. by eapply tasks_rel_upd_task_at.
  - by eapply tasks_rel_upd_task_at.
Qed.

Lemma tasks_rel_mutex_lock s m h :
  bookkeeping_stable R → wake_stable R →
  (∀ p t, p < priority t → R t (boost_task p t)) →
  (∀ v t, R t (set_blocked_on v t)) →
  (∀ t, R t (set_state TASK_BLOCKED t)) →
  tasks_rel R s (mutex_lock s m h).
Proof.
  intros [] [] Hboost Hblocked Hstate. unfold mutex_lock.
  destruct (mutexes s !! m) as [mx|]; [|by apply tasks_rel_refl].
  destruct (tasks s !! h) as [t|]; [|by apply tasks_rel_refl].
  destruct (locked mx); simpl.
  - eapply tasks_rel_trans; [done| |by apply tasks_rel_schedule].
    eapply tasks_rel_trans; [done| |by apply tasks_rel_wait_queue_insert].
    eapply tasks_rel_trans; [done| |by apply tasks_rel_task_set_state].
    eapply tasks_rel_trans; [done| |by apply tasks_rel_upd_task].
    repeat case_match;
      first [by apply tasks_rel_refl
            | apply tasks_rel_priority_inherit; by auto ].
  - eapply tasks_rel_trans; [done| |by apply tasks_rel_add_held_mutex].
    frame.
Qed.

Lemma tasks_rel_mutex_unlock s m h :
  bookkeeping_stable R → wake_stable R →
  (∀ s t, R t (restore_task (needed_priority s t) t)) →
  (∀ v t, R t (set_blocked_on v t)) →
  tasks_rel R s (mutex_unlock s m h).
Proof.
  intros [] [] Hrestore Hblocked. unfold mutex_unlock.
  destruct (mutexes s !! m) as [mx|]; [|by apply tasks_rel_refl].
  destruct (tasks s !! h) as [t|]; [|by apply tasks_rel_refl].
  case_decide; [|by apply tasks_rel_refl].
  eapply tasks_rel_trans; [done| |by apply tasks_rel_schedule].
  eapply tasks_rel_trans; [done| |by apply tasks_rel_mutex_handoff].
  destruct (priority_inheritance_enabled _).
  - eapply tasks_rel_trans; [done| |by apply tasks_rel_priority_restore].
    by apply tasks_rel_remove_held_mutex.
  - by apply tasks_rel_remove_held_mutex.
Qed.

Lemma tasks_rel_sem_wait_queue_insert s k h :
  tasks_rel R s (sem_wait_queue_insert s k h).
Proof. unfold sem_wait_queue_insert. frame. Qed.









Lemma tasks_rel_assign_ranks s k l :
  (∀ v t, R t (set_original_priority v (set_priority v t))) →
  tasks_rel R s (assign_ranks s k l).
Proof.
  intros H1. revert s k. induction l as [|x l IH]; intros s k; simpl.
  - by apply tasks_rel_refl.
  - eapply tasks_rel_trans; [done| |apply IH]. by apply tasks_rel_upd_task.
Qed.

Lemma tasks_rel_rebuild_ready_queue s :
  tasks_rel R s (rebuild_ready_queue s).
Proof.
  unfold rebuild_ready_queue.
  eapply tasks_rel_trans; [done| |apply tasks_rel_fold_left].
  - frame.
  - intros. case_match; [by apply tasks_rel_ready_queue_insert|].
    by apply tasks_rel_refl.
Qed.

Lemma tasks_rel_rms_recalculate qsort s :
  (∀ v t, R t (set_original_priority v (set_priority v t))) →
  tasks_rel R s (rms_recalculate_priorities qsort s).
Proof.
  intros H1. unfold rms_recalculate_priorities.
  eapply tasks_rel_trans; [done| |apply tasks_rel_rebuild_ready_queue].
  by apply tasks_rel_assign_ranks.
Qed.

End CompoundFrames.

(** ** Inheritance only boosts *)

#[global] Instance keeps_boost_only_preorder : PreOrder keeps_boost_only.
Proof. split; unfold keeps_boost_only; [intros ?|intros ???]; tauto. Qed.













Lemma reachable_run_ops qsort allowed l s :
  reachable qsort allowed s → script_allowed qsort allowed l s →
  reachable qsort allowed (run_ops qsort l s).
Proof.
  revert s. induction l as [|o l IH]; intros s Hs Hl; simpl; [done|].
  destruct Hl as [Ho Hl]. apply IH; [|done]. by constructor.
Qed.

Lemma script_allowed_cons qsort allowed o l s :
  allowed s o → script_allowed qsort allowed l (run_op qsort o s) →
  script_allowed qsort allowed (o :: l) s.
Proof. by split. Qed.

(** A lock in a script, checked against [lock_discipline] by running
    the script up to it. *)
Ltac allow_lock :=
  apply script_allowed_cons;
  [ let mx := fresh "mx" in
    let Hmx := fresh "Hmx" in
    let H := fresh "H" in
    intros mx Hmx; vm_compute in Hmx; injection Hmx as <-; simpl;
    split; [discriminate|];
    intros H; repeat (apply elem_of_cons in H as [H|H]; [discriminate|]);
    by apply elem_of_nil in H
  | ].


(** ** The mutex arena under the remaining operations *)

Lemma mutexes_fold_left {A} (f : System → A → System) l s :
  (∀ s x, mutexes (f s x) = mutexes s) →
  mutexes (fold_left f l s) = mutexes s.
Proof.
  intros Hf. revert s. induction l as [|x l IH]; intros s; simpl; [done|].
  by rewrite IH, Hf.
Qed.

Lemma mutexes_task_create s prio period0 deadline wcet :
  mutexes (fst (task_create s prio period0 deadline wcet)) = mutexes s.
Proof.
  unfold task_create. case_match; simpl; [done|].
  by rewrite mutexes_ready_queue_insert.
Qed.

Lemma mutexes_task_suspend s h : mutexes (task_suspend s h) = mutexes s.
Proof.
  unfold task_suspend. repeat case_match;
    rewrite ?mutexes_task_set_state; done.
Qed.

Lemma mutexes_task_resume s h : mutexes (task_resume s h) = mutexes s.
Proof.
  unfold task_resume. repeat case_match;
    rewrite ?mutexes_task_set_state; done.
Qed.

Lemma mutexes_task_set_priority s h p :
  mutexes (task_set_priority s h p) = mutexes s.
Proof.
  unfold task_set_priority. repeat (case_match || case_decide);
    rewrite ?mutexes_ready_queue_insert; done.
Qed.

Lemma mutexes_semaphore_wait s k h :
  mutexes (semaphore_wait s k h) = mutexes s.
Proof.
  unfold semaphore_wait, sem_wait_queue_insert. repeat case_match;
    rewrite ?mutexes_schedule; simpl; rewrite ?mutexes_task_set_state; done.
Qed.

Lemma mutexes_semaphore_signal s k :
  mutexes (semaphore_signal s k) = mutexes s.
Proof.
  unfold semaphore_signal. repeat case_match;
    rewrite ?mutexes_schedule, ?mutexes_task_set_state; done.
Qed.

Lemma mutexes_release_if_due s h : mutexes (release_if_due s h) = mutexes s.
Proof.
  unfold release_if_due. repeat (case_match || case_decide);
    rewrite ?mutexes_task_set_state; done.
Qed.

Lemma mutexes_check_deadline s h : mutexes (check_deadline s h) = mutexes s.
Proof. unfold check_deadline. repeat case_match; done. Qed.

Lemma mutexes_tick_handler s : mutexes (tick_handler s) = mutexes s.
Proof.
  unfold tick_handler, check_deadlines, check_periodic_releases.
  rewrite mutexes_fold_left by apply mutexes_check_deadline.
  rewrite mutexes_fold_left by apply mutexes_release_if_due.
  repeat (case_match || case_decide); done.
Qed.

Lemma mutexes_advance_time s n : mutexes (advance_time s n) = mutexes s.
Proof.
  unfold advance_time. induction n as [|n IH]; simpl; [done|].
  by rewrite mutexes_schedule, mutexes_tick_handler.
Qed.

Lemma mutexes_simulate_work_loop n s h :
  mutexes (simulate_work_loop n s h) = mutexes s.
Proof.
  revert s. induction n as [|n IH]; intros s; simpl; [done|].
  case_decide; [|done]. case_match.
  - by rewrite mutexes_schedule, mutexes_tick_handler.
  - by rewrite IH, mutexes_tick_handler.
Qed.

Lemma mutexes_simulate_work s h n :
  mutexes (simulate_work s h n) = mutexes s.
Proof.
  unfold simulate_work. case_match; [|done].
  by rewrite mutexes_simulate_work_loop.
Qed.

Lemma mutexes_assign_ranks s k l : mutexes (assign_ranks s k l) = mutexes s.
Proof.
  revert s k. induction l as [|x l IH]; intros s k; simpl; [done|].
  by rewrite IH.
Qed.

Lemma mutexes_rms_recalculate qsort s :
  mutexes (rms_recalculate_priorities qsort s) = mutexes s.
Proof.
  unfold rms_recalculate_priorities, rebuild_ready_queue.
  rewrite mutexes_fold_left.
  - simpl. apply mutexes_assign_ranks.
  - intros. case_match; [apply mutexes_ready_queue_insert|done].
Qed.

Lemma mutexes_wait_queue_insert s m h mx :
  mutexes s !! m = Some mx →
  mutexes (wait_queue_insert s m h) =
  if (MUTEX_WAIT_QUEUE_CAP <=? length (wait_queue mx))%nat then mutexes s
  else alter (set_wait_queue (priority_insert s h (wait_queue mx))) m
         (mutexes s).
Proof. intros Hm. unfold wait_queue_insert. rewrite Hm. by case_match. Qed.

(** The mutex arena after a contended lock: only the wait queue of the
    mutex can have changed, by the insertion of the caller. *)
Lemma mutexes_mutex_lock_contended s m h mx t :
  mutexes s !! m = Some mx → tasks s !! h = Some t → locked mx = true →
  ∃ s3, mutexes s3 = mutexes s
    ∧ mutexes (mutex_lock s m h) =
      if (MUTEX_WAIT_QUEUE_CAP <=? length (wait_queue mx))%nat then mutexes s
      else alter (set_wait_queue (priority_insert s3 h (wait_queue mx))) m
             (mutexes s).
Proof.
  intros Hm Ht Hl. unfold mutex_lock. rewrite Hm, Ht, Hl. simpl.
  rewrite mutexes_schedule.
  match goal with
  | |- context [wait_queue_insert ?x m h] => set (s3 := x)
  end.
  assert (mutexes s3 = mutexes s) as Hs3.
  { unfold s3. rewrite mutexes_task_set_state. simpl.
    repeat case_match; rewrite ?mutexes_priority_inherit; done. }
  exists s3. split; [done|].
  rewrite (mutexes_wait_queue_insert s3 m h mx) by (by rewrite Hs3).
  by rewrite Hs3.
Qed.

Lemma mutexes_mutex_lock_free s m h mx t :
  mutexes s !! m = Some mx → tasks s !! h = Some t → locked mx = false →
  mutexes (mutex_lock s m h) =
  alter (λ x, set_owner (Some h) (set_locked true x)) m (mutexes s).
Proof.
  intros Hm Ht Hl. unfold mutex_lock. rewrite Hm, Ht, Hl. simpl.
  by rewrite mutexes_add_held_mutex.
Qed.

Lemma mutexes_handoff s m mx :
  mutexes s !! m = Some mx →
  mutexes (mutex_handoff s m) =
  match wait_queue mx with
  | w :: rest =>
      alter (set_owner (Some w)) m (alter (set_wait_queue rest) m (mutexes s))
  | [] => alter (λ x, set_owner None (set_locked false x)) m (mutexes s)
  end.
Proof.
  intros Hm. unfold mutex_handoff, wait_queue_pop. rewrite Hm.
  destruct (wait_queue mx); [done|].
  by rewrite mutexes_task_set_state, mutexes_add_held_mutex.
Qed.

Lemma mutexes_mutex_unlock s m h :
  mutexes (mutex_unlock s m h) = mutexes s
  ∨ ∃ mx, mutexes s !! m = Some mx ∧ owner mx = Some h
      ∧ mutexes (mutex_unlock s m h) =
        match wait_queue mx with
        | w :: rest =>
            alter (set_owner (Some w)) m
              (alter (set_wait_queue rest) m (mutexes s))
        | [] => alter (λ x, set_owner None (set_locked false x)) m (mutexes s)
        end.
Proof.
  unfold mutex_unlock.
  destruct (mutexes s !! m) as [mx|] eqn:Hm; [|by left].
  destruct (tasks s !! h) as [t|] eqn:Ht; [|by left].
  case_decide; [|by left]. right. exists mx. split_and!; try done.
  rewrite mutexes_schedule.
  match goal with |- context [mutex_handoff ?x m] => set (s2 := x) end.
  assert (mutexes s2 = mutexes s) as Hs2.
  { unfold s2. case_match;
      rewrite ?mutexes_priority_restore, mutexes_remove_held_mutex; done. }
  rewrite (mutexes_handoff s2 m mx) by (by rewrite Hs2). by rewrite Hs2.
Qed.

(** ** No task waits for a mutex it owns *)

Lemma NoDup_priority_insert s h q :
  h ∉ q → NoDup q → NoDup (priority_insert s h q).
Proof.
  intros Hin Hnd. rewrite priority_insert_perm. by apply NoDup_cons.
Qed.

Lemma mutex_wf_init pol pi : Forall mutex_wf (mutexes (scheduler_init pol pi)).
Proof.
  assert (mutexes (scheduler_init pol pi) = []) as -> by (by vm_compute).
  constructor.
Qed.

Lemma mutex_wf_lock s m h :
  lock_discipline s (OpMutexLock m h) →
  Forall mutex_wf (mutexes s) → Forall mutex_wf (mutexes (mutex_lock s m h)).
Proof.
  intros Hd Hall.
  destruct (mutexes s !! m) as [mx|] eqn:Hm;
    [|unfold mutex_lock; by rewrite Hm].
  destruct (tasks s !! h) as [t|] eqn:Ht;
    [|unfold mutex_lock; by rewrite Hm, Ht].
  destruct (Hd mx Hm) as [Hown Hwait].
  destruct (locked mx) eqn:Hl.
  - destruct (mutexes_mutex_lock_contended s m h mx t Hm Ht Hl)
      as (s3 & _ & ->).
    case_match; [done|]. apply Forall_alter; [done|].
    intros x Hx (Hnd & Hunl & Hnot). simplify_eq. split_and!; simpl.
    + by apply NoDup_priority_insert.
    + congruence.
    + intros o Ho. rewrite elem_of_priority_insert.
      intros [->|Hin]; [done|]. by apply (Hnot o).
  - rewrite (mutexes_mutex_lock_free s m h mx t Hm Ht Hl).
    apply Forall_alter; [done|].
    intros x Hx (Hnd & Hunl & Hnot). simplify_eq. split_and!; simpl.
    + done.
    + done.
    + intros o _. rewrite (Hunl Hl). apply not_elem_of_nil.
Qed.

Lemma mutex_wf_unlock s m h :
  Forall mutex_wf (mutexes s) → Forall mutex_wf (mutexes (mutex_unlock s m h)).
Proof.
  intros Hall.
  destruct (mutexes_mutex_unlock s m h) as [->|(mx & Hm & Hown & ->)]; [done|].
  destruct (wait_queue mx) as [|w rest] eqn:Hq.
  - apply Forall_alter; [done|]. intros x Hx _. split_and!; simpl.
    + simplify_eq. rewrite Hq. constructor.
    + simplify_eq. by rewrite Hq.
    + done.
  - apply Forall_alter; [apply Forall_alter; [done|]|].
    + intros x Hx (Hnd & Hunl & Hnot). simplify_eq.
      rewrite Hq in Hnd, Hnot, Hunl. apply NoDup_cons in Hnd as [Hw Hnd].
      split_and!; simpl; [done|intros Hf; by specialize (Hunl Hf)|].
      intros o Ho Hin. apply (Hnot o Ho). by constructor.
    + intros x Hx _. rewrite list_lookup_alter_eq, Hm in Hx. simplify_eq/=.
      rewrite Forall_lookup in Hall. destruct (Hall m mx Hm) as (Hnd & Hunl & _).
      rewrite Hq in Hnd, Hunl. apply NoDup_cons in Hnd as [Hw Hnd].
      split_and!; simpl; [done|intros Hf; by specialize (Hunl Hf)|].
      intros o Ho. by simplify_eq.
Qed.

Lemma mutex_wf_step qsort s o :
  lock_discipline s o → Forall mutex_wf (mutexes s) →
  Forall mutex_wf (mutexes (run_op qsort o s)).
Proof.
  intros Hd Hall. destruct o; simpl.
  - by rewrite mutexes_task_create.
  - by rewrite mutexes_task_set_state.
  - by rewrite mutexes_task_suspend.
  - by rewrite mutexes_task_resume.
  - unfold task_terminate. by rewrite mutexes_task_set_state.
  - by rewrite mutexes_task_set_priority.
  - apply Forall_app. split; [done|]. repeat constructor; done.
  - by apply mutex_wf_lock.
  - by apply mutex_wf_unlock.
  - by rewrite mutexes_priority_inherit.
  - by rewrite mutexes_priority_restore.
  - done.
  - by rewrite mutexes_semaphore_wait.
  - by rewrite mutexes_semaphore_signal.
  - by rewrite mutexes_schedule.
  - by rewrite mutexes_tick_handler.
  - by rewrite mutexes_advance_time.
  - by rewrite mutexes_simulate_work.
  - by rewrite mutexes_rms_recalculate.
Qed.

(** C6, as stated, fails: nothing in [mutex_lock] rejects a lock by the
    owner.  After [self_lock_script] task 1 owns mutex 0, waits in its
    queue, and is blocked on it. *)
Lemma self_lock_owner_waits :
  ∃ mx t, mutexes self_lock_state !! 0%nat = Some mx
    ∧ tasks self_lock_state !! 1%nat = Some t
    ∧ owner mx = Some 1%nat
    ∧ 1%nat ∈ wait_queue mx
    ∧ blocked_on t = Some 0%nat
    ∧ chain_next self_lock_state t = Some 1%nat.
Proof.
  do 2 eexists. split; [reflexivity|]. split; [reflexivity|].
  split_and!; try reflexivity. simpl. constructor.
Qed.

(** C6, amended.  In every state reached from [scheduler_init] through
    the public operations, as long as no task locks a mutex that it owns
    or already waits for, every wait queue lists each waiter once, is
    empty while its mutex is unlocked, and does not contain the owner of
    its mutex. *)
Theorem owner_never_waits qsort s :
  reachable qsort lock_discipline s →
  ∀ m mx,
    mutexes s !! m = Some mx →
    NoDup (wait_queue mx)
    ∧ (locked mx = false → wait_queue mx = [])
    ∧ (∀ h, owner mx = Some h → h ∉ wait_queue mx).
Proof.
  intros Hreach.
  assert (Forall mutex_wf (mutexes s)) as Hall.
  { induction Hreach as [pol pi|s o Hreach IH Hd].
    - apply mutex_wf_init.
    - by apply mutex_wf_step. }
  intros m mx Hm. rewrite Forall_lookup in Hall. by apply (Hall m mx).
Qed.

(** The discipline above does not exclude longer cycles: after
    [deadlock_script], which respects it, task 1 waits for the mutex
    that task 2 owns and task 2 for the mutex that task 1 owns.  (The
    transitive boost returns on such a cycle all the same, see C1.) *)
Lemma deadlock_cycle_reachable :
  let s := run_ops isort deadlock_script (scheduler_init SCHED_PRIORITY true) in
  reachable isort lock_discipline s
  ∧ ∃ t1 t2, tasks s !! 1%nat = Some t1 ∧ tasks s !! 2%nat = Some t2
      ∧ chain_next s t1 = Some 2%nat ∧ chain_next s t2 = Some 1%nat.
Proof.
  intros s. unfold s. split.
  - apply reachable_run_ops; [constructor|].
    do 4 (apply script_allowed_cons; [exact I|]). allow_lock.
    do 2 (apply script_allowed_cons; [exact I|]). do 3 allow_lock.
    exact I.
  - do 2 eexists. split; [vm_compute; reflexivity|].
    split; [vm_compute; reflexivity|]. split; vm_compute; reflexivity.
Qed.

Lemma owner_never_waits_witness :
  ∃ mx,
    mutexes (run_ops isort deadlock_script (scheduler_init SCHED_PRIORITY true))
      !! 0%nat = Some mx
    ∧ ∀ h, owner mx = Some h → h ∉ wait_queue mx.
Proof.
  eexists. split; [vm_compute; reflexivity|].
  refine (proj2 (proj2 (owner_never_waits isort _
                          (proj1 deadlock_cycle_reachable) 0%nat _ _))).
  vm_compute. reflexivity.
Defined.

(** ** Blocked tasks and wait queues *)









(** Records other than the one an operation works on. *)

Lemma tasks_other_task_set_state s h st i :
  i ≠ h → tasks (task_set_state s h st) !! i = tasks s !! i.
Proof.
  intros Hne. unfold task_set_state.
  destruct (tasks s !! h) as [t|]; [|done]. case_decide; [done|].
  repeat case_match; rewrite ?tasks_ready_queue_insert; simpl;
    rewrite ?list_lookup_alter_ne by done; done.
Qed.
















(** ** The ready queue stays sorted *)

Lemma remove_first_subseteq (h : nat) q i : i ∈ remove_first h q → i ∈ q.
Proof.
  induction q as [|x q IH]; simpl; [done|].
  case_decide; intros Hin; [by constructor|].
  apply elem_of_cons in Hin as [->|Hin]; [constructor|].
  constructor. by apply IH.
Qed.

Lemma remove_first_other (h : nat) q i :
  i ≠ h → i ∈ q → i ∈ remove_first h q.
Proof.
  intros Hne. induction q as [|x q IH]; simpl; [done|].
  intros Hin. apply elem_of_cons in Hin as [->|Hin].
  - rewrite decide_False by done. constructor.
  - case_decide; [done|]. constructor. by apply IH.
Qed.

Lemma remove_first_NoDup (h : nat) q : NoDup q → NoDup (remove_first h q).
Proof.
  induction q as [|x q IH]; simpl; [done|].
  intros [Hx Hq]%NoDup_cons. case_decide; [done|].
  apply NoDup_cons. split; [|by apply IH].
  intros Hin. by apply Hx, (remove_first_subseteq h).
Qed.

Lemma remove_first_gone (h : nat) q : NoDup q → h ∉ remove_first h q.
Proof.
  induction q as [|x q IH]; simpl; [intros _; apply not_elem_of_nil|].
  intros [Hx Hq]%NoDup_cons. case_decide as E; [by subst|].
  apply not_elem_of_cons. split; [congruence|by apply IH].
Qed.

Lemma remove_first_absent (h : nat) q : h ∉ q → remove_first h q = q.
Proof.
  induction q as [|x q IH]; simpl; [done|].
  intros [Hne Hq]%not_elem_of_cons. rewrite decide_False by congruence.
  by rewrite IH.
Qed.

Lemma remove_first_sorted {R : relation nat} (h : nat) q :
  StronglySorted R q → StronglySorted R (remove_first h q).
Proof.
  induction 1 as [|x q Hs IH Hall]; simpl; [constructor|].
  case_decide; [done|]. constructor; [done|].
  rewrite Forall_forall in *. intros y Hy.
  by apply Hall, (remove_first_subseteq h).
Qed.

Lemma priority_insert_sorted s h q :
  StronglySorted (priority_le s) q →
  StronglySorted (priority_le s) (priority_insert s h q).
Proof.
  induction 1 as [|x q Hs IH Hall]; [repeat constructor|].
  rewrite priority_insert_cons.
  destruct (Z.ltb_spec (task_get_priority s h) (task_get_priority s x)).
  - constructor; [by constructor|]. constructor; [unfold priority_le; lia|].
    rewrite Forall_forall in *. intros y Hy. specialize (Hall y Hy).
    unfold priority_le in *. lia.
  - constructor; [done|]. rewrite Forall_forall in *. intros y Hy.
    apply elem_of_priority_insert in Hy as [->|Hy]; [done|by apply Hall].
Qed.

(** Where the insertion lands: behind every entry whose priority number
    is at most the new one's, in front of the first strictly greater. *)
Lemma priority_insert_split s h q :
  StronglySorted (priority_le s) q →
  ∃ l1 l2,
    q = l1 ++ l2
    ∧ priority_insert s h q = l1 ++ h :: l2
    ∧ Forall (λ x, task_get_priority s x ≤ task_get_priority s h) l1
    ∧ Forall (λ x, task_get_priority s h < task_get_priority s x) l2.
Proof.
  induction 1 as [|x q Hs IH Hall].
  { exists [], []. split_and!; done. }
  rewrite priority_insert_cons.
  destruct (Z.ltb_spec (task_get_priority s h) (task_get_priority s x)).
  - exists [], (x :: q). split_and!; try done.
    constructor; [done|]. rewrite Forall_forall in *. intros y Hy.
    specialize (Hall y Hy). unfold priority_le in *. lia.
  - destruct IH as (l1 & l2 & -> & -> & H1 & H2).
    exists (x :: l1), l2. split_and!; try done. by constructor.
Qed.

(** The invariant looks at the ready queue, the registry, and at the
    priority and state of each task. *)
Lemma ready_queue_wf_ext s s' :
  ready_queue s' = ready_queue s → all_tasks s' = all_tasks s →
  same_proj (λ t, (priority t, state t)) s s' →
  ready_queue_wf s → ready_queue_wf s'.
Proof.
  intros Hq Hall Hsame (Ha & Hb & Hc & Hd & He).
  assert (∀ i, task_get_priority s' i = task_get_priority s i) as Hp.
  { intros i. apply task_get_priority_same_proj.
    by apply (same_proj_weaken _ fst) in Hsame. }
  assert (∀ i, task_state s' i = task_state s i) as Hst.
  { intros i. apply (same_proj_weaken _ snd) in Hsame.
    apply (same_proj_lookup _ _ _ i Hsame). }
  unfold ready_queue_wf. rewrite Hq, Hall. split_and!; try done.
  - eapply StronglySorted_weaken; [|exact Ha].
    intros a b _ _. unfold priority_le. by rewrite !Hp.
  - intros h Hh. rewrite Hst. by apply Hc.
  - intros h Hh. rewrite (tasks_rel_length _ _ _ Hsame). by apply He.
Qed.

Lemma ready_queue_wf_fields s h f :
  (∀ t, priority (f t) = priority t) → (∀ t, state (f t) = state t) →
  ready_queue_wf s → ready_queue_wf (upd_task h f s).
Proof.
  intros Hp Hs. apply ready_queue_wf_ext; [done..|].
  apply same_proj_upd_task. intros t. by rewrite Hp, Hs.
Qed.

(** A record outside the queue may change in any field. *)
Lemma ready_queue_wf_outside s h f :
  h ∉ ready_queue s → ready_queue_wf s → ready_queue_wf (upd_task h f s).
Proof.
  intros Hout (Ha & Hb & Hc & Hd & He).
  assert (∀ i, i ≠ h → tasks (upd_task h f s) !! i = tasks s !! i) as Hoth.
  { intros i Hi. by rewrite tasks_upd_task, list_lookup_alter_ne. }
  unfold ready_queue_wf. simpl. split_and!; try done.
  - eapply StronglySorted_weaken; [|exact Ha].
    intros a b Hain Hbin. unfold priority_le, task_get_priority. simpl.
    rewrite !list_lookup_alter_ne by (intros ->; done). done.
  - intros i Hi. specialize (Hc i Hi). unfold task_state in *. simpl.
    rewrite list_lookup_alter_ne by (intros ->; done). done.
  - intros i Hi. rewrite length_alter. by apply He.
Qed.

Lemma ready_queue_wf_remove s h :
  ready_queue_wf s → ready_queue_wf (ready_queue_remove s h).
Proof.
  intros (Ha & Hb & Hc & Hd & He). unfold ready_queue_wf. simpl.
  split_and!; try done.
  - exact (remove_first_sorted h _ Ha).
  - by apply remove_first_NoDup.
  - intros i Hi. by apply Hc, (remove_first_subseteq h).
Qed.

Lemma ready_queue_wf_insert s h :
  h ∉ ready_queue s → task_state s h = Some TASK_READY →
  ready_queue_wf s → ready_queue_wf (ready_queue_insert s h).
Proof.
  intros Hout Hst (Ha & Hb & Hc & Hd & He). unfold ready_queue_insert.
  destruct (tasks s !! h); [|done]. case_match; [done|].
  unfold ready_queue_wf. simpl. split_and!; try done.
  - exact (priority_insert_sorted s h _ Ha).
  - by apply NoDup_priority_insert.
  - intros i [->|Hi]%elem_of_priority_insert; [done|by apply Hc].
Qed.

Lemma ready_queue_remove_upd_task s h i f :
  ready_queue_remove (upd_task i f s) h = upd_task i f (ready_queue_remove s h).
Proof. reflexivity. Qed.

Lemma ready_queue_absent_not_ready s h t :
  ready_queue_wf s → tasks s !! h = Some t → state t ≠ TASK_READY →
  h ∉ ready_queue s.
Proof.
  intros (_ & _ & Hc & _) Ht Hst Hin. specialize (Hc h Hin).
  unfold task_state in Hc. rewrite Ht in Hc. simpl in Hc. congruence.
Qed.

(** Changes away from the task arena, the ready queue and the
    registry. *)
Lemma ready_queue_wf_elsewhere s s' :
  ready_queue s' = ready_queue s → all_tasks s' = all_tasks s →
  tasks s' = tasks s → ready_queue_wf s → ready_queue_wf s'.
Proof.
  intros Hq Hall Ht. apply ready_queue_wf_ext; [done..|].
  by apply tasks_rel_tasks; [apply _|].
Qed.

Lemma ready_queue_wf_task_set_state s h st :
  ready_queue_wf s → ready_queue_wf (task_set_state s h st).
Proof.
  intros Hwf. unfold task_set_state.
  destruct (tasks s !! h) as [t|] eqn:Ht; [|done].
  case_decide as Hne; [done|].
  destruct (decide (state t = TASK_READY)) as [Hold|Hold].
  - (* leaving the ready queue *)
    rewrite (bool_decide_eq_true_2 (state t = TASK_READY)) by done.
    rewrite (bool_decide_eq_false_2 (st = TASK_READY)) by congruence.
    simpl. rewrite ready_queue_remove_upd_task.
    apply ready_queue_wf_outside; [|by apply ready_queue_wf_remove].
    simpl. apply remove_first_gone. apply Hwf.
  - rewrite (bool_decide_eq_false_2 (state t = TASK_READY)) by done. simpl.
    pose proof (ready_queue_absent_not_ready s h t Hwf Ht Hold) as Hout.
    destruct (decide (st = TASK_READY)) as [->|Hnew].
    + (* entering the ready queue *)
      rewrite (bool_decide_eq_true_2 (TASK_READY = TASK_READY)) by done.
      simpl. apply ready_queue_wf_insert.
      * done.
      * unfold task_state. simpl.
        by rewrite !list_lookup_alter_eq, Ht.
      * apply ready_queue_wf_outside; [done|].
        by apply ready_queue_wf_outside.
    + rewrite (bool_decide_eq_false_2 (st = TASK_READY)) by done.
      by apply ready_queue_wf_outside.
Qed.

Lemma ready_queue_wf_context_switch s from to :
  ready_queue_wf s → ready_queue_wf (scheduler_context_switch s from to).
Proof.
  intros Hwf. unfold scheduler_context_switch.
  destruct to as [n|]; [|done]. case_decide as Hne; [done|].
  match goal with
  | |- context [ready_queue_remove ?x n] => set (s1 := x)
  end.
  assert (ready_queue_wf s1) as Hwf1.
  { unfold s1. destruct from as [c|]; [|done].
    case_decide as Hrun; [|done].
    unfold task_state in Hrun.
    destruct (tasks s !! c) as [tc|] eqn:Hc; [|done].
    simpl in Hrun. injection Hrun as Hrun.
    assert (c ∉ ready_queue s) as Hout.
    { eapply ready_queue_absent_not_ready; [done..|congruence]. }
    apply ready_queue_wf_fields; [done..|].
    apply ready_queue_wf_insert.
    - done.
    - unfold task_state. simpl. by rewrite list_lookup_alter_eq, Hc.
    - by apply ready_queue_wf_outside. }
  apply (ready_queue_wf_elsewhere
           (upd_task n (set_state TASK_RUNNING) (ready_queue_remove s1 n)));
    [done..|].
  apply ready_queue_wf_outside; [|by apply ready_queue_wf_remove].
  simpl. apply remove_first_gone. apply Hwf1.
Qed.

Lemma ready_queue_wf_schedule s :
  ready_queue_wf s → ready_queue_wf (scheduler_schedule s).
Proof.
  intros Hwf. unfold scheduler_schedule.
  repeat (case_match || case_decide);
    first [done | by apply ready_queue_wf_context_switch].
Qed.

(** A change of priority on a record, followed by the re-sort that every
    priority-changing function performs when the task is Ready. *)
Lemma ready_queue_wf_resort s h t f :
  ready_queue_wf s → tasks s !! h = Some t →
  (∀ t0, state (f t0) = state t0) →
  ready_queue_wf
    (if decide (state t = TASK_READY) then
       ready_queue_insert (ready_queue_remove (upd_task h f s) h) h
     else upd_task h f s).
Proof.
  intros Hwf Ht Hf. case_decide as Hst.
  - rewrite ready_queue_remove_upd_task.
    assert (h ∉ ready_queue (ready_queue_remove s h)) as Hout.
    { simpl. apply remove_first_gone. apply Hwf. }
    apply ready_queue_wf_insert.
    + done.
    + unfold task_state. simpl. rewrite list_lookup_alter_eq, Ht. simpl.
      by rewrite Hf, Hst.
    + apply ready_queue_wf_outside; [done|by apply ready_queue_wf_remove].
  - apply ready_queue_wf_outside; [|done].
    by eapply ready_queue_absent_not_ready.
Qed.

Lemma state_boost_task p t : state (boost_task p t) = state t.
Proof. unfold boost_task. by destruct (priority_inherited t). Qed.

Lemma state_restore_task n t : state (restore_task n t) = state t.
Proof. unfold restore_task. by case_decide. Qed.

Lemma ready_queue_wf_priority_inherit_rec fuel s h p s' :
  ready_queue_wf s → priority_inherit_rec fuel s h p = Some s' →
  ready_queue_wf s'.
Proof.
  revert s h. induction fuel as [|fuel IH]; intros s h Hwf; simpl.
  - repeat case_match; intros; by simplify_eq.
  - destruct (tasks s !! h) as [t|] eqn:Ht; [|intros; by simplify_eq].
    destruct (p >=? priority t); [intros; by simplify_eq|].
    assert (ready_queue_wf (boost_step s h t p)) as Hstep.
    { unfold boost_step. apply ready_queue_wf_resort; [done..|].
      apply state_boost_task. }
    destruct (chain_next _ t); intros Hrec; [|by simplify_eq].
    by eapply IH.
Qed.

Lemma ready_queue_wf_priority_inherit s h p :
  ready_queue_wf s → ready_queue_wf (priority_inherit s h p).
Proof.
  intros Hwf. unfold priority_inherit.
  destruct (priority_inherit_rec _ s h p) eqn:E; simpl; [|done].
  by eapply ready_queue_wf_priority_inherit_rec.
Qed.

Lemma ready_queue_wf_priority_restore s h :
  ready_queue_wf s → ready_queue_wf (priority_restore s h).
Proof.
  intros Hwf. unfold priority_restore.
  destruct (tasks s !! h) as [t|] eqn:Ht; [|done].
  destruct (priority_inherited t); simpl; [|done].
  apply ready_queue_wf_resort; [done..|]. apply state_restore_task.
Qed.

Lemma ready_queue_wf_task_set_priority s h p :
  ready_queue_wf s → ready_queue_wf (task_set_priority s h p).
Proof.
  intros Hwf. unfold task_set_priority.
  destruct (tasks s !! h) as [t|] eqn:Ht; [|done].
  by apply ready_queue_wf_resort.
Qed.

Lemma ready_queue_wf_add_held_mutex s h m :
  ready_queue_wf s → ready_queue_wf (task_add_held_mutex s h m).
Proof.
  intros Hwf. unfold task_add_held_mutex. case_match; [|done].
  by apply ready_queue_wf_fields.
Qed.

Lemma ready_queue_wf_remove_held_mutex s h m :
  ready_queue_wf s → ready_queue_wf (task_remove_held_mutex s h m).
Proof.
  intros Hwf. unfold task_remove_held_mutex. case_match; [|done].
  by apply ready_queue_wf_fields.
Qed.

Lemma ready_queue_wf_mutex_lock s m h :
  ready_queue_wf s → ready_queue_wf (mutex_lock s m h).
Proof.
  intros Hwf. unfold mutex_lock.
  destruct (mutexes s !! m) as [mx|]; [|done].
  destruct (tasks s !! h) as [t|]; [|done].
  destruct (locked mx); simpl.
  - apply ready_queue_wf_schedule.
    match goal with
    | |- ready_queue_wf (wait_queue_insert ?x m h) =>
        apply (ready_queue_wf_elsewhere x)
    end; try (unfold wait_queue_insert; by repeat case_match).
    apply ready_queue_wf_task_set_state, ready_queue_wf_fields; [done..|].
    repeat case_match; try done. by apply ready_queue_wf_priority_inherit.
  - apply ready_queue_wf_add_held_mutex.
    by apply (ready_queue_wf_elsewhere s).
Qed.

Lemma ready_queue_wf_mutex_handoff s m :
  ready_queue_wf s → ready_queue_wf (mutex_handoff s m).
Proof.
  intros Hwf. unfold mutex_handoff, wait_queue_pop.
  destruct (mutexes s !! m) as [mx|];
    [|by apply (ready_queue_wf_elsewhere s)].
  destruct (wait_queue mx) as [|w rest];
    [by apply (ready_queue_wf_elsewhere s)|].
  apply ready_queue_wf_task_set_state, ready_queue_wf_add_held_mutex.
  match goal with
  | |- ready_queue_wf (upd_mutex m _ ?x) =>
      apply (ready_queue_wf_elsewhere x); [done..|]
  end.
  apply ready_queue_wf_fields; [done..|].
  by apply (ready_queue_wf_elsewhere s).
Qed.

Lemma ready_queue_wf_mutex_unlock s m h :
  ready_queue_wf s → ready_queue_wf (mutex_unlock s m h).
Proof.
  intros Hwf. unfold mutex_unlock.
  destruct (mutexes s !! m) as [mx|]; [|done].
  destruct (tasks s !! h) as [t|]; [|done].
  case_decide; [|done].
  apply ready_queue_wf_schedule, ready_queue_wf_mutex_handoff.
  case_match.
  - by apply ready_queue_wf_priority_restore, ready_queue_wf_remove_held_mutex.
  - by apply ready_queue_wf_remove_held_mutex.
Qed.

Lemma ready_queue_wf_fold_left {A} (f : System → A → System) l s :
  (∀ s x, ready_queue_wf s → ready_queue_wf (f s x)) →
  ready_queue_wf s → ready_queue_wf (fold_left f l s).
Proof.
  intros Hf. revert s. induction l as [|x l IH]; intros s Hwf; simpl; auto.
Qed.

Lemma ready_queue_wf_init pol pi : ready_queue_wf (scheduler_init pol pi).
Proof.
  assert (ready_queue (scheduler_init pol pi) = []) as Hq by (by vm_compute).
  assert (all_tasks (scheduler_init pol pi) = [0%nat]) as Ha
    by (by vm_compute).
  assert (length (tasks (scheduler_init pol pi)) = 1%nat) as Hl
    by (by vm_compute).
  unfold ready_queue_wf. rewrite Hq, Ha, Hl. split_and!.
  - constructor.
  - constructor.
  - intros h Hh. by apply elem_of_nil in Hh.
  - apply NoDup_singleton.
  - intros h ->%list_elem_of_singleton. lia.
Qed.

Lemma ready_queue_wf_task_create s prio period0 deadline wcet :
  ready_queue_wf s →
  ready_queue_wf (fst (task_create s prio period0 deadline wcet)).
Proof.
  intros Hwf. unfold task_create. case_match; simpl; [done|].
  destruct Hwf as (Ha & Hb & Hc & Hd & He).
  set (t := new_task s prio period0 deadline wcet).
  assert (∀ i, i ∈ ready_queue s → (i < length (tasks s))%nat) as Hin.
  { intros i Hi. specialize (Hc i Hi). unfold task_state in Hc.
    destruct (tasks s !! i) eqn:E; [|done]. by eapply lookup_lt_Some. }
  apply ready_queue_wf_insert.
  - simpl. intros Hi. apply Hin in Hi. lia.
  - unfold task_state. simpl.
    rewrite lookup_app_r, Nat.sub_diag by done. done.
  - unfold ready_queue_wf. simpl. split_and!; try done.
    + eapply StronglySorted_weaken; [|exact Ha].
      intros a b Hain Hbin. unfold priority_le, task_get_priority. simpl.
      rewrite !lookup_app_l by auto. done.
    + intros i Hi. specialize (Hc i Hi). unfold task_state in *. simpl.
      rewrite lookup_app_l by auto. done.
    + apply NoDup_app. split_and!; [done| |apply NoDup_singleton].
      intros i Hi ->%list_elem_of_singleton. apply He in Hi. lia.
    + intros i [Hi| ->%list_elem_of_singleton]%elem_of_app;
        rewrite length_app; simpl; [apply He in Hi|]; lia.
Qed.

Lemma ready_queue_wf_task_suspend s h :
  ready_queue_wf s → ready_queue_wf (task_suspend s h).
Proof.
  intros Hwf. unfold task_suspend.
  repeat case_match; first [done | by apply ready_queue_wf_task_set_state].
Qed.

Lemma ready_queue_wf_task_resume s h :
  ready_queue_wf s → ready_queue_wf (task_resume s h).
Proof.
  intros Hwf. unfold task_resume.
  repeat case_match; first [done | by apply ready_queue_wf_task_set_state].
Qed.

Lemma ready_queue_wf_semaphore_wait s k h :
  ready_queue_wf s → ready_queue_wf (semaphore_wait s k h).
Proof.
  intros Hwf. unfold semaphore_wait.
  destruct (semaphores s !! k) as [sm|]; [|done].
  destruct (tasks s !! h); [|done].
  case_match; [by apply (ready_queue_wf_elsewhere s)|].
  apply ready_queue_wf_schedule.
  match goal with
  | |- ready_queue_wf (sem_wait_queue_insert ?x k h) =>
      apply (ready_queue_wf_elsewhere x)
  end; try (unfold sem_wait_queue_insert; by repeat case_match).
  by apply ready_queue_wf_task_set_state.
Qed.

Lemma ready_queue_wf_semaphore_signal s k :
  ready_queue_wf s → ready_queue_wf (semaphore_signal s k).
Proof.
  intros Hwf. unfold semaphore_signal.
  destruct (semaphores s !! k) as [sm|]; [|done].
  destruct (sem_wait_queue sm).
  - case_match; [|done]. by apply (ready_queue_wf_elsewhere s).
  - apply ready_queue_wf_schedule, ready_queue_wf_task_set_state.
    by apply (ready_queue_wf_elsewhere s).
Qed.

Lemma ready_queue_wf_release_if_due s h :
  ready_queue_wf s → ready_queue_wf (release_if_due s h).
Proof.
  intros Hwf. unfold release_if_due.
  destruct (tasks s !! h) as [t|]; [|done].
  case_decide; [done|]. destruct (period t =? 0); [done|].
  destruct (_ && _); [|done].
  by apply ready_queue_wf_task_set_state, ready_queue_wf_fields.
Qed.

Lemma ready_queue_wf_check_deadline s h :
  ready_queue_wf s → ready_queue_wf (check_deadline s h).
Proof.
  intros Hwf. unfold check_deadline.
  destruct (tasks s !! h) as [t|]; [|done].
  destruct (deadline_missed s h t); [|done].
  by apply ready_queue_wf_fields.
Qed.

Lemma ready_queue_wf_tick_handler s :
  ready_queue_wf s → ready_queue_wf (tick_handler s).
Proof.
  intros Hwf. unfold tick_handler, check_deadlines, check_periodic_releases.
  apply ready_queue_wf_fold_left; [apply ready_queue_wf_check_deadline|].
  apply ready_queue_wf_fold_left; [apply ready_queue_wf_release_if_due|].
  assert (ready_queue_wf (set_system_ticks (wrap64 (system_ticks s + 1)) s))
    as Hwf1 by (by apply (ready_queue_wf_elsewhere s)).
  simpl. destruct (current_task s); [|done]. case_decide; [|done].
  apply ready_queue_wf_fields; [| |done]; intros t; by repeat case_match.
Qed.

Lemma ready_queue_wf_advance_time s n :
  ready_queue_wf s → ready_queue_wf (advance_time s n).
Proof.
  intros Hwf. unfold advance_time. induction n as [|n IH]; simpl; [done|].
  by apply ready_queue_wf_schedule, ready_queue_wf_tick_handler.
Qed.

Lemma ready_queue_wf_simulate_work_loop n s h :
  ready_queue_wf s → ready_queue_wf (simulate_work_loop n s h).
Proof.
  revert s. induction n as [|n IH]; intros s Hwf; simpl; [done|].
  case_decide; [|done]. case_match.
  - by apply ready_queue_wf_schedule, ready_queue_wf_tick_handler.
  - by apply IH, ready_queue_wf_tick_handler.
Qed.

Lemma ready_queue_wf_simulate_work s h n :
  ready_queue_wf s → ready_queue_wf (simulate_work s h n).
Proof.
  intros Hwf. unfold simulate_work. case_match; [|done].
  by apply ready_queue_wf_simulate_work_loop, ready_queue_wf_fields.
Qed.

(** The rebuild loop inserts each ready task of the registry, once. *)
Lemma ready_queue_wf_rebuild_loop l s :
  NoDup l → (∀ x, x ∈ l → x ∉ ready_queue s) → ready_queue_wf s →
  ready_queue_wf
    (fold_left
       (λ acc h, if is_ready_task acc h then ready_queue_insert acc h else acc)
       l s).
Proof.
  revert s. induction l as [|x l IH]; intros s Hnd Hout Hwf; simpl; [done|].
  apply NoDup_cons in Hnd as [Hx Hnd].
  destruct (is_ready_task s x) eqn:Hr.
  - apply IH; [done| |].
    + intros y Hy. unfold ready_queue_insert. repeat case_match;
        try (apply Hout; by constructor).
      simpl. rewrite elem_of_priority_insert. intros [->|Hin]; [done|].
      revert Hin. apply Hout. by constructor.
    + apply ready_queue_wf_insert; [apply Hout; constructor| |done].
      unfold is_ready_task, task_state in *.
      destruct (tasks s !! x) as [t|]; [|done]. simpl.
      destruct (decide (state t = TASK_READY)) as [->|Hne]; [done|].
      by rewrite bool_decide_eq_false_2 in Hr.
  - apply IH; [done| |done]. intros y Hy. apply Hout. by constructor.
Qed.

Lemma ready_queue_wf_rms_recalculate qsort s :
  ready_queue_wf s → ready_queue_wf (rms_recalculate_priorities qsort s).
Proof.
  intros (Ha & Hb & Hc & Hd & He).
  unfold rms_recalculate_priorities, rebuild_ready_queue.
  match goal with |- context [assign_ranks s 0 ?l] => set (ranked := l) end.
  destruct (assign_ranks_scalars s 0 ranked) as (Hidle & Hall & Hrq).
  apply ready_queue_wf_rebuild_loop.
  - simpl. by rewrite Hall.
  - intros x _. simpl. apply not_elem_of_nil.
  - unfold ready_queue_wf. simpl. rewrite Hall. split_and!.
    + constructor.
    + constructor.
    + intros h Hh. by apply elem_of_nil in Hh.
    + done.
    + intros h Hh.
      rewrite (tasks_rel_length (proj_eq state) s (assign_ranks s 0 ranked)).
      * by apply He.
      * apply assign_ranks_same_proj; by intros.
Qed.

Lemma ready_queue_wf_step qsort s o :
  ready_queue_wf s → ready_queue_wf (run_op qsort o s).
Proof.
  intros Hwf. destruct o; simpl.
  - by apply ready_queue_wf_task_create.
  - by apply ready_queue_wf_task_set_state.
  - by apply ready_queue_wf_task_suspend.
  - by apply ready_queue_wf_task_resume.
  - by apply ready_queue_wf_task_set_state.
  - by apply ready_queue_wf_task_set_priority.
  - by apply (ready_queue_wf_elsewhere s).
  - by apply ready_queue_wf_mutex_lock.
  - by apply ready_queue_wf_mutex_unlock.
  - by apply ready_queue_wf_priority_inherit.
  - by apply ready_queue_wf_priority_restore.
  - by apply (ready_queue_wf_elsewhere s).
  - by apply ready_queue_wf_semaphore_wait.
  - by apply ready_queue_wf_semaphore_signal.
  - by apply ready_queue_wf_schedule.
  - by apply ready_queue_wf_tick_handler.
  - by apply ready_queue_wf_advance_time.
  - by apply ready_queue_wf_simulate_work.
  - by apply ready_queue_wf_rms_recalculate.
Qed.

(** C8.  In every state reached from [scheduler_init] through the public
    operations, whatever their arguments, the ready queue is sorted in
    ascending priority number, lists each task once, and lists only
    Ready tasks.  In such a state [ready_queue_insert] of a task, with
    room in the queue, splits the queue in two: the new task goes behind
    every entry whose priority number is at most its own (so behind all
    entries of equal priority, which keeps arrival order among equals)
    and in front of every entry with a strictly greater one. *)
Theorem ready_queue_sorted_fifo qsort s :
  reachable qsort any_op s →
  StronglySorted (priority_le s) (ready_queue s)
  ∧ NoDup (ready_queue s)
  ∧ (∀ h, h ∈ ready_queue s → task_state s h = Some TASK_READY)
  ∧ ∀ h t,
      tasks s !! h = Some t →
      (length (ready_queue s) < MAX_READY_TASKS)%nat →
      ∃ l1 l2,
        ready_queue s = l1 ++ l2
        ∧ ready_queue (ready_queue_insert s h) = l1 ++ h :: l2
        ∧ Forall (λ x, task_get_priority s x ≤ priority t) l1
        ∧ Forall (λ x, priority t < task_get_priority s x) l2.
Proof.
  intros Hreach.
  assert (ready_queue_wf s) as (Ha & Hb & Hc & _).
  { induction Hreach as [pol pi|s o Hreach IH Hd].
    - apply ready_queue_wf_init.
    - by apply ready_queue_wf_step. }
  split_and!; try done.
  intros h t Ht Hroom.
  destruct (priority_insert_split s h (ready_queue s) Ha)
    as (l1 & l2 & Hq & Hins & H1 & H2).
  rewrite (task_get_priority_lookup s h t Ht) in H1, H2.
  exists l1, l2. split_and!; try done.
  unfold ready_queue_insert. rewrite Ht.
  destruct (Nat.leb_spec MAX_READY_TASKS (length (ready_queue s))); [lia|].
  done.
Qed.

Lemma ready_queue_sorted_fifo_witness :
  StronglySorted
    (priority_le
       (run_ops isort rate_monotonic_script
          (scheduler_init SCHED_RATE_MONOTONIC false)))
    (ready_queue
       (run_ops isort rate_monotonic_script
          (scheduler_init SCHED_RATE_MONOTONIC false))).
Proof.
  refine (proj1 (ready_queue_sorted_fifo isort _ _)).
  apply reachable_run_ops; [constructor|].
  do 3 (apply script_allowed_cons; [exact I|]). exact I.
Defined.

(** [rms_recalculate_priorities] empties the ready queue and re-inserts
    the Ready tasks in the order of the registry, so among tasks of one
    priority it replaces the order of arrival by the order of creation:
    task 2, ready since tick 0, stood in front of task 1, ready since
    tick 1, and stands behind it afterwards, while both priorities are 5
    before and after. *)
Theorem rms_recalculate_reorders_equals :
  reachable isort any_op requeued_state
  ∧ ready_queue requeued_state = [2%nat; 1%nat]
  ∧ (∃ t1 t2,
       tasks requeued_state !! 1%nat = Some t1
       ∧ tasks requeued_state !! 2%nat = Some t2
       ∧ priority t1 = 5 ∧ priority t2 = 5
       ∧ ready_since t2 = 0 ∧ ready_since t1 = 1)
  ∧ ready_queue (rms_recalculate_priorities isort requeued_state)
    = [1%nat; 2%nat]
  ∧ task_get_priority (rms_recalculate_priorities isort requeued_state) 1 = 5
  ∧ task_get_priority (rms_recalculate_priorities isort requeued_state) 2 = 5.
Proof.
  split_and!; try (vm_compute; reflexivity).
  - change requeued_state
      with (run_ops isort requeued_script
              (scheduler_init SCHED_PRIORITY false)).
    apply reachable_run_ops; [constructor|].
    do 5 (apply script_allowed_cons; [exact I|]). exact I.
  - eexists. eexists. split; [vm_compute; reflexivity|].
    split; [vm_compute; reflexivity|]. by repeat split.
Qed.

(** * Further properties of the code *)

(** ** Frames on the scheduler record *)

Section SystemFrames.
Context {A : Type} (proj : System → A).
Context (Hq : ∀ v s, proj (set_ready_queue v s) = proj s).
Context (Ht : ∀ v s, proj (set_tasks v s) = proj s).
Context (Hc : ∀ v s, proj (set_current_task v s) = proj s).
Context (Hk : ∀ v s, proj (set_system_ticks v s) = proj s).
Context (Hx : ∀ v s, proj (set_context_switches v s) = proj s).

Lemma proj_upd_task h f s : proj (upd_task h f s) = proj s.
Proof. apply Ht. Qed.

Lemma proj_ready_queue_insert s h : proj (ready_queue_insert s h) = proj s.
Proof. unfold ready_queue_insert. repeat case_match; auto. Qed.

Lemma proj_ready_queue_remove s h : proj (ready_queue_remove s h) = proj s.
Proof. apply Hq. Qed.

Lemma proj_task_set_state s h st : proj (task_set_state s h st) = proj s.
Proof.
  unfold task_set_state. repeat (case_match || case_decide);
    rewrite ?proj_ready_queue_insert, ?proj_upd_task,
      ?proj_ready_queue_remove, ?proj_upd_task; done.
Qed.

Lemma proj_context_switch s from to :
  proj (scheduler_context_switch s from to) = proj s.
Proof.
  unfold scheduler_context_switch. repeat (case_match || case_decide);
    rewrite ?Hx, ?Hc, ?proj_upd_task, ?proj_ready_queue_remove,
      ?proj_upd_task, ?proj_ready_queue_insert, ?proj_upd_task; done.
Qed.

Lemma proj_schedule s : proj (scheduler_schedule s) = proj s.
Proof.
  unfold scheduler_schedule. repeat (case_match || case_decide);
    rewrite ?proj_context_switch; done.
Qed.

Lemma proj_task_suspend s h : proj (task_suspend s h) = proj s.
Proof.
  unfold task_suspend. repeat case_match; rewrite ?proj_task_set_state; done.
Qed.

Lemma proj_task_resume s h : proj (task_resume s h) = proj s.
Proof.
  unfold task_resume. repeat case_match; rewrite ?proj_task_set_state; done.
Qed.

Lemma proj_resort s h f (b : bool) :
  proj (if b then ready_queue_insert (ready_queue_remove (upd_task h f s) h) h
        else upd_task h f s) = proj s.
Proof.
  destruct b;
    rewrite ?proj_ready_queue_insert, ?proj_ready_queue_remove, proj_upd_task;
    done.
Qed.

Lemma proj_task_set_priority s h p : proj (task_set_priority s h p) = proj s.
Proof.
  unfold task_set_priority. case_match; [|done]. case_decide;
    rewrite ?proj_ready_queue_insert, ?proj_ready_queue_remove, proj_upd_task;
    done.
Qed.

Lemma proj_boost_step s h t p : proj (boost_step s h t p) = proj s.
Proof.
  unfold boost_step. case_decide;
    rewrite ?proj_ready_queue_insert, ?proj_ready_queue_remove, proj_upd_task;
    done.
Qed.

Lemma proj_priority_inherit_rec fuel s h p s' :
  priority_inherit_rec fuel s h p = Some s' → proj s' = proj s.
Proof.
  revert s h. induction fuel as [|fuel IH]; intros s h; simpl.
  - repeat case_match; intros; by simplify_eq.
  - destruct (tasks s !! h) as [t|]; [|intros; by simplify_eq].
    destruct (p >=? priority t); [intros; by simplify_eq|].
    destruct (chain_next _ t); intros Hrec.
    + rewrite (IH _ _ Hrec). apply proj_boost_step.
    + simplify_eq. apply proj_boost_step.
Qed.

Lemma proj_priority_inherit s h p : proj (priority_inherit s h p) = proj s.
Proof.
  unfold priority_inherit.
  destruct (priority_inherit_rec _ s h p) eqn:E; simpl; [|done].
  by eapply proj_priority_inherit_rec.
Qed.

Lemma proj_priority_restore s h : proj (priority_restore s h) = proj s.
Proof.
  unfold priority_restore. case_match; [|done]. case_match; [done|].
  case_decide;
    rewrite ?proj_ready_queue_insert, ?proj_ready_queue_remove, proj_upd_task;
    done.
Qed.

Lemma proj_add_held_mutex s h m : proj (task_add_held_mutex s h m) = proj s.
Proof. unfold task_add_held_mutex. case_match; rewrite ?proj_upd_task; done. Qed.

Lemma proj_remove_held_mutex s h m :
  proj (task_remove_held_mutex s h m) = proj s.
Proof.
  unfold task_remove_held_mutex. case_match; rewrite ?proj_upd_task; done.
Qed.

Lemma proj_fold_left {B} (f : System → B → System) l s :
  (∀ s x, proj (f s x) = proj s) → proj (fold_left f l s) = proj s.
Proof.
  intros Hf. revert s. induction l as [|x l IH]; intros s; simpl; [done|].
  by rewrite IH.
Qed.

Lemma proj_release_if_due s h : proj (release_if_due s h) = proj s.
Proof.
  unfold release_if_due. repeat (case_match || case_decide);
    rewrite ?proj_task_set_state, ?proj_upd_task; done.
Qed.

Lemma proj_check_deadline s h : proj (check_deadline s h) = proj s.
Proof.
  unfold check_deadline. repeat case_match; rewrite ?proj_upd_task; done.
Qed.

Lemma proj_tick_handler s : proj (tick_handler s) = proj s.
Proof.
  unfold tick_handler, check_deadlines, check_periodic_releases.
  rewrite proj_fold_left by apply proj_check_deadline.
  rewrite proj_fold_left by apply proj_release_if_due.
  repeat (case_match || case_decide); rewrite ?proj_upd_task, ?Hk; done.
Qed.

Lemma proj_advance_time s n : proj (advance_time s n) = proj s.
Proof.
  unfold advance_time. induction n as [|n IH]; simpl; [done|].
  by rewrite proj_schedule, proj_tick_handler.
Qed.

Lemma proj_simulate_work_loop n s h : proj (simulate_work_loop n s h) = proj s.
Proof.
  revert s. induction n as [|n IH]; intros s; simpl; [done|].
  case_decide; [|done]. case_match.
  - by rewrite proj_schedule, proj_tick_handler.
  - by rewrite IH, proj_tick_handler.
Qed.

Lemma proj_simulate_work s h n : proj (simulate_work s h n) = proj s.
Proof.
  unfold simulate_work. case_match; [|done].
  by rewrite proj_simulate_work_loop, proj_upd_task.
Qed.

Lemma proj_assign_ranks s k l : proj (assign_ranks s k l) = proj s.
Proof.
  revert s k. induction l as [|x l IH]; intros s k; simpl; [done|].
  by rewrite IH, proj_upd_task.
Qed.

Lemma proj_rms_recalculate qsort s :
  proj (rms_recalculate_priorities qsort s) = proj s.
Proof.
  unfold rms_recalculate_priorities, rebuild_ready_queue.
  rewrite proj_fold_left.
  - by rewrite Hq, proj_assign_ranks.
  - intros. case_match; rewrite ?proj_ready_queue_insert; done.
Qed.

Context (Hm : ∀ v s, proj (set_mutexes v s) = proj s).

Lemma proj_upd_mutex m f s : proj (upd_mutex m f s) = proj s.
Proof. apply Hm. Qed.

Lemma proj_wait_queue_insert s m h : proj (wait_queue_insert s m h) = proj s.
Proof.
  unfold wait_queue_insert. repeat case_match; rewrite ?proj_upd_mutex; done.
Qed.

Lemma proj_mutex_lock s m h : proj (mutex_lock s m h) = proj s.
Proof.
  unfold mutex_lock. repeat case_match;
    rewrite ?proj_add_held_mutex, ?proj_upd_mutex, ?proj_schedule,
      ?proj_wait_queue_insert, ?proj_task_set_state, ?proj_upd_task,
      ?proj_priority_inherit; done.
Qed.

Lemma proj_mutex_handoff s m : proj (mutex_handoff s m) = proj s.
Proof.
  unfold mutex_handoff, wait_queue_pop. repeat case_match; simplify_eq;
    rewrite ?proj_task_set_state, ?proj_add_held_mutex, ?proj_upd_mutex,
      ?proj_upd_task, ?proj_upd_mutex; done.
Qed.

Lemma proj_mutex_unlock s m h : proj (mutex_unlock s m h) = proj s.
Proof.
  unfold mutex_unlock. repeat (case_match || case_decide);
    rewrite ?proj_schedule, ?proj_mutex_handoff, ?proj_priority_restore,
      ?proj_remove_held_mutex; done.
Qed.

Context (Hs : ∀ v s, proj (set_semaphores v s) = proj s).

Lemma proj_upd_semaphore k f s : proj (upd_semaphore k f s) = proj s.
Proof. apply Hs. Qed.

Lemma proj_semaphore_wait s k h : proj (semaphore_wait s k h) = proj s.
Proof.
  unfold semaphore_wait, sem_wait_queue_insert. repeat case_match;
    rewrite ?proj_schedule, ?proj_upd_semaphore, ?proj_task_set_state; done.
Qed.

Lemma proj_semaphore_signal s k : proj (semaphore_signal s k) = proj s.
Proof.
  unfold semaphore_signal. repeat case_match;
    rewrite ?proj_schedule, ?proj_task_set_state, ?proj_upd_semaphore; done.
Qed.

Lemma proj_task_create_plain s prio period0 deadline wcet :
  (∀ v s, proj (set_next_id v s) = proj s) →
  (∀ v s, proj (set_all_tasks v s) = proj s) →
  proj (fst (task_create s prio period0 deadline wcet)) = proj s.
Proof.
  intros Hn Ha. unfold task_create. case_match; simpl; [done|].
  by rewrite proj_ready_queue_insert, Ha, Ht, Hn.
Qed.

(** Every operation on existing records. *)
Lemma proj_run_op qsort o s :
  (∀ a b c d, o ≠ OpTaskCreate a b c d) →
  proj (run_op qsort o s) = proj s.
Proof.
  intros Hcreate. destruct o; simpl.
  - by destruct (Hcreate prio period0 deadline wcet).
  - apply proj_task_set_state.
  - apply proj_task_suspend.
  - apply proj_task_resume.
  - apply proj_task_set_state.
  - apply proj_task_set_priority.
  - apply Hm.
  - apply proj_mutex_lock.
  - apply proj_mutex_unlock.
  - apply proj_priority_inherit.
  - apply proj_priority_restore.
  - apply Hs.
  - apply proj_semaphore_wait.
  - apply proj_semaphore_signal.
  - apply proj_schedule.
  - apply proj_tick_handler.
  - apply proj_advance_time.
  - apply proj_simulate_work.
  - apply proj_rms_recalculate.
Qed.

End SystemFrames.

(** ** Frames of the dispatcher and the time engine *)

Section DispatchFrames.
Context (R : relation TaskControlBlock) `{!PreOrder R}.
Context (Hds : dispatch_stable R).

Lemma tasks_rel_set_state_any s h st : tasks_rel R s (task_set_state s h st).
Proof. destruct Hds. by apply tasks_rel_task_set_state. Qed.

Lemma tasks_rel_schedule_any s : tasks_rel R s (scheduler_schedule s).
Proof. destruct Hds. by apply tasks_rel_schedule. Qed.

Lemma tasks_rel_suspend_any s h : tasks_rel R s (task_suspend s h).
Proof.
  unfold task_suspend. repeat case_match;
    first [by apply tasks_rel_refl | by apply tasks_rel_set_state_any].
Qed.

Lemma tasks_rel_resume_any s h : tasks_rel R s (task_resume s h).
Proof.
  unfold task_resume. repeat case_match;
    first [by apply tasks_rel_refl | by apply tasks_rel_set_state_any].
Qed.

Lemma tasks_rel_semaphore_wait_any s k h :
  tasks_rel R s (semaphore_wait s k h).
Proof.
  unfold semaphore_wait. repeat case_match; try solve [frame].
  eapply tasks_rel_trans; [done| |by apply tasks_rel_schedule_any].
  eapply tasks_rel_trans; [done| |by apply tasks_rel_sem_wait_queue_insert].
  by apply tasks_rel_set_state_any.
Qed.

Lemma tasks_rel_semaphore_signal_any s k :
  tasks_rel R s (semaphore_signal s k).
Proof.
  unfold semaphore_signal. repeat case_match; try solve [frame].
  eapply tasks_rel_trans; [done| |by apply tasks_rel_schedule_any].
  eapply tasks_rel_trans; [done| |by apply tasks_rel_set_state_any].
  frame.
Qed.

Lemma tasks_rel_release_any s h : tasks_rel R s (release_if_due s h).
Proof.
  unfold release_if_due.
  destruct (tasks s !! h) as [t|]; [|by apply tasks_rel_refl].
  case_decide; [by apply tasks_rel_refl|].
  destruct (period t =? 0); [by apply tasks_rel_refl|].
  destruct (_ && _); [|by apply tasks_rel_refl].
  eapply tasks_rel_trans; [done| |by apply tasks_rel_set_state_any].
  apply tasks_rel_upd_task; [done|]. intros t0. destruct Hds.
  repeat (etrans; [|by eauto]). done.
Qed.

Lemma tasks_rel_check_deadline_any s h : tasks_rel R s (check_deadline s h).
Proof.
  unfold check_deadline.
  destruct (tasks s !! h) as [t|]; [|by apply tasks_rel_refl].
  destruct (deadline_missed s h t); [|by apply tasks_rel_refl].
  apply tasks_rel_upd_task; [done|]. intros t0. unfold record_miss.
  destruct Hds. repeat (etrans; [|by eauto]). done.
Qed.

Lemma tasks_rel_tick_any s : tasks_rel R s (tick_handler s).
Proof.
  unfold tick_handler, check_deadlines, check_periodic_releases.
  eapply tasks_rel_trans;
    [done| |apply tasks_rel_fold_left; [done|]; intros;
            by apply tasks_rel_check_deadline_any].
  eapply tasks_rel_trans;
    [done| |apply tasks_rel_fold_left; [done|]; intros;
            by apply tasks_rel_release_any].
  simpl. destruct (current_task s) as [c|]; [|frame]. case_decide; [|frame].
  eapply tasks_rel_trans; [done| |apply tasks_rel_upd_task; [done|]].
  { frame. }
  intros t0. simpl. destruct Hds.
  repeat case_match; repeat (etrans; [|by eauto]); done.
Qed.

Lemma tasks_rel_advance_any s n : tasks_rel R s (advance_time s n).
Proof.
  unfold advance_time. induction n as [|n IH]; simpl.
  - by apply tasks_rel_refl.
  - eapply tasks_rel_trans; [done|exact IH|].
    eapply tasks_rel_trans; [done|by apply tasks_rel_tick_any|].
    by apply tasks_rel_schedule_any.
Qed.

Lemma tasks_rel_simulate_loop_any n s h :
  tasks_rel R s (simulate_work_loop n s h).
Proof.
  revert s. induction n as [|n IH]; intros s; simpl.
  - by apply tasks_rel_refl.
  - case_decide; [|by apply tasks_rel_refl].
    eapply tasks_rel_trans; [done|by apply tasks_rel_tick_any|].
    case_match; [|apply IH]. by apply tasks_rel_schedule_any.
Qed.

Lemma tasks_rel_simulate_any s h n : tasks_rel R s (simulate_work s h n).
Proof.
  unfold simulate_work. case_match; [|by apply tasks_rel_refl].
  eapply tasks_rel_trans; [done| |by apply tasks_rel_simulate_loop_any].
  destruct Hds. by apply tasks_rel_upd_task.
Qed.

Lemma tasks_rel_dispatch_op qsort o s :
  dispatch_op o = true → tasks_rel R s (run_op qsort o s).
Proof.
  destruct o; simpl; try discriminate; intros _.
  - apply tasks_rel_set_state_any.
  - apply tasks_rel_suspend_any.
  - apply tasks_rel_resume_any.
  - apply tasks_rel_set_state_any.
  - apply tasks_rel_semaphore_wait_any.
  - apply tasks_rel_semaphore_signal_any.
  - apply tasks_rel_schedule_any.
  - apply tasks_rel_tick_any.
  - apply tasks_rel_advance_any.
  - apply tasks_rel_simulate_any.
Qed.

(** The remaining operations on existing records, for a relation that
    every assignment of the program respects. *)
Lemma tasks_rel_run_op qsort o s :
  (∀ v t, R t (set_held_mutexes v t)) →
  (∀ v t, R t (set_blocked_on v t)) →
  (∀ p t, R t (set_priority p t)) →
  (∀ p t, R t (boost_task p t)) →
  (∀ n t, R t (restore_task n t)) →
  (∀ v t, R t (set_original_priority v (set_priority v t))) →
  (∀ a b c d, o ≠ OpTaskCreate a b c d) →
  tasks_rel R s (run_op qsort o s).
Proof.
  intros Hheld Hblk Hprio Hboost Hrestore Hrank Hcreate.
  assert (bookkeeping_stable R) as Hbk by (destruct Hds; by split).
  assert (wake_stable R) as Hwk by (destruct Hds; by split).
  destruct (dispatch_op o) eqn:Hd; [by apply tasks_rel_dispatch_op|].
  destruct o; simpl in *; try discriminate.
  - by destruct (Hcreate prio period0 deadline wcet).
  - by apply tasks_rel_task_set_priority.
  - by apply tasks_rel_tasks.
  - destruct Hds. apply tasks_rel_mutex_lock; auto.
  - apply tasks_rel_mutex_unlock; auto.
  - apply tasks_rel_priority_inherit; auto.
  - apply tasks_rel_priority_restore; auto.
  - by apply tasks_rel_tasks.
  - by apply tasks_rel_rms_recalculate.
Qed.

End DispatchFrames.

Lemma static_fields_stable : dispatch_stable (proj_eq static_fields).
Proof. by split. Qed.

Lemma mutexes_dispatch_op qsort o s :
  dispatch_op o = true → mutexes (run_op qsort o s) = mutexes s.
Proof.
  destruct o; simpl; try discriminate; intros _.
  - apply mutexes_task_set_state.
  - apply mutexes_task_suspend.
  - apply mutexes_task_resume.
  - apply mutexes_task_set_state.
  - apply mutexes_semaphore_wait.
  - apply mutexes_semaphore_signal.
  - apply mutexes_schedule.
  - apply mutexes_tick_handler.
  - apply mutexes_advance_time.
  - apply mutexes_simulate_work.
Qed.

(** X1. State transitions, semaphore operations, scheduling decisions and
    the time engine never touch the priority protocol: whatever their
    arguments, they change no mutex, and no task's identifier, priority,
    original priority, inheritance flag, boost count, period, relative
    deadline, held set or [blocked_on]. *)
Theorem dispatch_keeps_static_fields qsort o s :
  dispatch_op o = true →
  mutexes (run_op qsort o s) = mutexes s
  ∧ length (tasks (run_op qsort o s)) = length (tasks s)
  ∧ ∀ h t,
      tasks s !! h = Some t →
      ∃ t', tasks (run_op qsort o s) !! h = Some t'
            ∧ static_fields t' = static_fields t.
Proof.
  intros Hd.
  pose proof (tasks_rel_dispatch_op (proj_eq static_fields)
                static_fields_stable qsort o s Hd) as Hrel.
  split_and!.
  - by apply mutexes_dispatch_op.
  - by apply (tasks_rel_length _ _ _ Hrel).
  - intros h t Hh. by apply (same_proj_lookup_Some _ _ _ _ _ Hrel).
Qed.

(** ** The registry *)

Lemma registry_wf_init pol pi : registry_wf (scheduler_init pol pi).
Proof.
  unfold registry_wf.
  assert (tasks (scheduler_init pol pi) =
          [set_remaining_work UINT64_MAX
             (new_task (mkSystem pol pi None None [] [] 0 0 0 [] [] [])
                PRIORITY_IDLE 0 0 0)]) as Ht by (by vm_compute).
  rewrite Ht. split_and!; try by vm_compute.
  { simpl. unfold MAX_ALL_TASKS. lia. }
  intros h t Hh. destruct h as [|h]; simpl in Hh; [|done].
  by simplify_eq.
Qed.

Lemma registry_wf_task_create s prio period0 deadline wcet :
  registry_wf s →
  registry_wf (fst (task_create s prio period0 deadline wcet)).
Proof.
  intros (Hall & Hcap & Hid & Hidle & Hids). unfold task_create.
  destruct (Nat.leb_spec MAX_ALL_TASKS (length (all_tasks s))) as [|Hroom];
    simpl; [done|].
  rewrite Hall, length_seq in Hroom.
  match goal with |- registry_wf (ready_queue_insert ?x ?h) => set (s3 := x) end.
  unfold registry_wf.
  rewrite tasks_ready_queue_insert.
  rewrite (proj_ready_queue_insert all_tasks), (proj_ready_queue_insert next_id),
    (proj_ready_queue_insert idle_task) by done.
  simpl. rewrite length_app. simpl. split_and!.
  - by rewrite Hall, Nat.add_1_r, seq_S.
  - unfold MAX_ALL_TASKS in *. lia.
  - lia.
  - done.
  - intros h t [Hh|[Hle Hh]]%lookup_app_Some; [by apply Hids|].
    apply list_lookup_singleton_Some in Hh as [Hz <-].
    simpl. rewrite Hid. lia.
Qed.

Lemma registry_wf_frame s s' :
  registry s' = registry s → same_proj task_id s s' →
  registry_wf s → registry_wf s'.
Proof.
  unfold registry. intros Hreg Hsame (Hall & Hcap & Hid & Hidle & Hids).
  injection Hreg as E1 E2 E3.
  pose proof (tasks_rel_length _ _ _ Hsame) as Hlen.
  unfold registry_wf. rewrite E1, E2, E3, Hlen. split_and!; try done.
  intros h t' Hh.
  destruct (tasks_rel_lookup_r _ _ _ _ _ Hsame Hh) as (t & Ht & E).
  unfold proj_eq in E. rewrite E. by apply Hids.
Qed.

Lemma task_id_stable : dispatch_stable (proj_eq task_id).
Proof. by split. Qed.

Lemma task_id_boost_task p t : task_id (boost_task p t) = task_id t.
Proof. unfold boost_task. by destruct (priority_inherited t). Qed.

Lemma task_id_restore_task n t : task_id (restore_task n t) = task_id t.
Proof. unfold restore_task. by case_decide. Qed.

Lemma registry_wf_step qsort s o :
  registry_wf s → registry_wf (run_op qsort o s).
Proof.
  intros Hwf.
  assert ((∃ a b c d, o = OpTaskCreate a b c d)
          ∨ ∀ a b c d, o ≠ OpTaskCreate a b c d)
    as [(a & b & c & d & ->)|Hcreate]
    by (destruct o; first [left; by eauto | by right]).
  { by apply registry_wf_task_create. }
  apply (registry_wf_frame s); [| |done].
  - by apply (proj_run_op registry).
  - apply tasks_rel_run_op; try done;
      first [ apply _ | apply task_id_stable
            | intros; apply task_id_boost_task
            | intros; apply task_id_restore_task ].
Qed.

Lemma registry_wf_reachable qsort allowed s :
  reachable qsort allowed s → registry_wf s.
Proof.
  induction 1 as [pol pi|s o Hreach IH Hd].
  - apply registry_wf_init.
  - by apply registry_wf_step.
Qed.

(** X2. In every reachable state the registry lists the tasks in order of
    creation: [all_tasks] is the list of handles 0, 1, ..., the idle task is
    handle 0, [next_id] is the number of tasks, every task's identifier is
    its position, there are never more than [MAX_ALL_TASKS] tasks, and once
    there are that many [task_create] fails and changes nothing. *)
Theorem registry_dense qsort s :
  reachable qsort any_op s →
  (length (tasks s) ≤ MAX_ALL_TASKS)%nat
  ∧ all_tasks s = seq 0 (length (tasks s))
  ∧ idle_task s = Some 0%nat
  ∧ next_id s = Z.of_nat (length (tasks s))
  ∧ (∀ h t, tasks s !! h = Some t → task_id t = Z.of_nat h)
  ∧ (length (tasks s) = MAX_ALL_TASKS →
     ∀ prio period0 deadline wcet,
       task_create s prio period0 deadline wcet = (s, None)).
Proof.
  intros Hreach.
  destruct (registry_wf_reachable _ _ _ Hreach)
    as (Hall & Hcap & Hid & Hidle & Hids).
  split_and!; try done.
  intros Hfull prio period0 deadline wcet. unfold task_create.
  rewrite Hall, length_seq, Hfull. done.
Qed.

(** ** The clock *)

Lemma system_ticks_tick_handler s :
  system_ticks (tick_handler s) = wrap64 (system_ticks s + 1).
Proof.
  unfold tick_handler, check_deadlines, check_periodic_releases.
  rewrite (proj_fold_left system_ticks)
    by (intros; by apply proj_check_deadline).
  rewrite (proj_fold_left system_ticks)
    by (intros; by apply proj_release_if_due).
  repeat (case_match || case_decide); done.
Qed.

Lemma wrap64_succ z : wrap64 (wrap64 z + 1) = wrap64 (z + 1).
Proof. unfold wrap64. by rewrite Zplus_mod_idemp_l. Qed.

(** X3. Advancing the clock composes: [a] ticks followed by [b] ticks are [a
    + b] ticks, state for state; and after [n] ticks the tick counter has
    grown by [n], modulo 2^64. *)
Theorem advance_time_clock s a b :
  advance_time (advance_time s a) b = advance_time s (a + b)
  ∧ system_ticks (advance_time s (S a))
    = wrap64 (system_ticks s + Z.of_nat (S a)).
Proof.
  split.
  - unfold advance_time. by rewrite (Nat.add_comm a b), Nat.iter_add.
  - induction a as [|a IH].
    + unfold advance_time. simpl.
      by rewrite (proj_schedule system_ticks), system_ticks_tick_handler.
    + change (advance_time s (S (S a)))
        with (scheduler_schedule (tick_handler (advance_time s (S a)))).
      rewrite (proj_schedule system_ticks) by done.
      rewrite system_ticks_tick_handler, IH, wrap64_succ.
      f_equal. lia.
Qed.

(** ** The contended lock *)

#[global] Instance not_demoted_preorder : PreOrder not_demoted.
Proof. split; unfold not_demoted; [intros ?|intros ???]; lia. Qed.

Lemma not_demoted_fields t t' : priority t' = priority t → not_demoted t t'.
Proof. unfold not_demoted. lia. Qed.

Lemma priority_inherit_self s h t p :
  tasks s !! h = Some t → p < priority t →
  tasks (priority_inherit s h p) !! h = Some (boost_task p t).
Proof.
  intros Ht Hlt. rewrite priority_inherit_unfold, Ht.
  destruct (Z.geb_spec p (priority t)); [lia|]. simpl.
  assert (tasks (boost_step s h t p) !! h = Some (boost_task p t)) as Hstep.
  { by rewrite tasks_boost_step, list_lookup_alter_eq, Ht. }
  destruct (chain_next _ t); [|done].
  apply priority_inherit_frame; [done|]. rewrite priority_boost_task. lia.
Qed.

Lemma priority_inherit_noop s h t p :
  tasks s !! h = Some t → priority t ≤ p → priority_inherit s h p = s.
Proof.
  intros Ht Hle. rewrite priority_inherit_unfold, Ht.
  destruct (Z.geb_spec p (priority t)); [done|lia].
Qed.

Lemma mutex_lock_contended s m h mx t :
  mutexes s !! m = Some mx → tasks s !! h = Some t → locked mx = true →
  mutex_lock s m h =
  block_on
    (if priority_inheritance_enabled s then
       match owner mx with
       | Some o =>
           if priority t <? task_get_priority s o then
             priority_inherit s o (priority t)
           else s
       | None => s
       end
     else s) m h.
Proof. intros Hm Ht Hl. unfold mutex_lock. by rewrite Hm, Ht, Hl. Qed.

Lemma block_on_priority s m h : same_proj priority s (block_on s m h).
Proof.
  unfold block_on.
  eapply same_proj_trans; [|by apply tasks_rel_schedule; [apply _|..]].
  eapply same_proj_trans; [|apply tasks_rel_wait_queue_insert, _].
  eapply same_proj_trans; [|by apply tasks_rel_task_set_state; [apply _|..]].
  by apply same_proj_upd_task.
Qed.

Lemma task_get_priority_block_on s m h i :
  task_get_priority (block_on s m h) i = task_get_priority s i.
Proof. apply task_get_priority_same_proj, block_on_priority. Qed.

(** X4. A lock of a mutex that is held leaves the owner with the smaller of
    its own priority number and the caller's when priority inheritance is
    enabled; no task's priority number goes up through the call; and with
    inheritance disabled no priority changes at all. *)
Theorem mutex_lock_inherits s m h mx t o to :
  mutexes s !! m = Some mx → tasks s !! h = Some t →
  locked mx = true → owner mx = Some o → tasks s !! o = Some to →
  task_get_priority (mutex_lock s m h) o =
    (if priority_inheritance_enabled s then Z.min (priority to) (priority t)
     else priority to)
  ∧ (∀ i, task_get_priority (mutex_lock s m h) i ≤ task_get_priority s i)
  ∧ (priority_inheritance_enabled s = false →
     ∀ i, task_get_priority (mutex_lock s m h) i = task_get_priority s i).
Proof.
  intros Hm Ht Hl Ho Hto.
  rewrite (mutex_lock_contended s m h mx t) by done.
  rewrite Ho, (task_get_priority_lookup s o to Hto).
  split_and!.
  - rewrite task_get_priority_block_on.
    destruct (priority_inheritance_enabled s).
    + destruct (Z.ltb_spec (priority t) (priority to)).
      * rewrite (task_get_priority_lookup _ o (boost_task (priority t) to))
          by (by apply priority_inherit_self).
        rewrite priority_boost_task. lia.
      * rewrite (task_get_priority_lookup s o to Hto). lia.
    + by rewrite (task_get_priority_lookup s o to Hto).
  - intros i. rewrite task_get_priority_block_on.
    destruct (priority_inheritance_enabled s); [|done].
    destruct (priority t <? priority to); [|done].
    assert (tasks_rel not_demoted s (priority_inherit s o (priority t)))
      as Hrel.
    { apply tasks_rel_priority_inherit; [apply _|].
      intros t0 Hlt. unfold not_demoted. rewrite priority_boost_task. lia. }
    unfold task_get_priority.
    destruct (tasks s !! i) as [ti|] eqn:Hi.
    + destruct (tasks_rel_lookup _ _ _ _ _ Hrel Hi) as (ti' & -> & Hle).
      exact Hle.
    + destruct (tasks (priority_inherit s o (priority t)) !! i) as [ti'|]
        eqn:Hi'; [|done].
      destruct (tasks_rel_lookup_r _ _ _ _ _ Hrel Hi') as (ti & Hti & _).
      congruence.
  - intros Hpi i. rewrite Hpi. apply task_get_priority_block_on.
Qed.

(** X5. A boost absorbs every later boost that is not more urgent: after
    [priority_inherit] to priority [p], another [priority_inherit] of the
    same task to a priority number [q] that is at least [p] changes nothing,
    for any task, any chain of blocked owners and either setting of the
    inheritance flag. *)
Theorem priority_inherit_absorbs s h p q :
  p ≤ q →
  priority_inherit (priority_inherit s h p) h q = priority_inherit s h p.
Proof.
  intros Hpq. destruct (tasks s !! h) as [t|] eqn:Ht.
  - destruct (Z.le_gt_cases (priority t) p) as [Hle|Hlt].
    + rewrite (priority_inherit_noop s h t p) by done.
      apply (priority_inherit_noop s h t); [done|lia].
    + apply (priority_inherit_noop _ h (boost_task p t)).
      * apply priority_inherit_self; [done|lia].
      * rewrite priority_boost_task. lia.
  - rewrite (priority_inherit_unfold s h p), Ht.
    by rewrite priority_inherit_unfold, Ht.
Qed.

(** ** The lock and its release *)

Lemma set_held_mutexes_same t : set_held_mutexes (held_mutexes t) t = t.
Proof. by destruct t. Qed.

Lemma remove_first_snoc (m : nat) l : m ∉ l → remove_first m (l ++ [m]) = l.
Proof.
  induction l as [|x l IH]; simpl; intros Hm.
  - by rewrite decide_True.
  - apply not_elem_of_cons in Hm as [Hne Hm].
    rewrite decide_False by congruence. by rewrite IH.
Qed.

Lemma alter_same {A} (f : A → A) (l : list A) i x :
  l !! i = Some x → f x = x → alter f i l = l.
Proof.
  intros Hi Hf. apply list_eq. intros j.
  destruct (decide (i = j)) as [->|Hne].
  - rewrite list_lookup_alter_eq, Hi. simpl. by rewrite Hf.
  - by rewrite list_lookup_alter_ne.
Qed.

Lemma alter_alter {A} (f g : A → A) (l : list A) i :
  alter f i (alter g i l) = alter (f ∘ g) i l.
Proof.
  apply list_eq. intros j. destruct (decide (i = j)) as [->|Hne].
  - rewrite !list_lookup_alter_eq. by destruct (l !! j).
  - by rewrite !list_lookup_alter_ne.
Qed.

(** X6. Locking a free mutex and unlocking it again has no effect beyond the
    scheduling decision at the end of [mutex_unlock]: for a task that
    carries no inherited priority (or with inheritance disabled), the result
    is the scheduler after one [scheduler_schedule]. *)
Theorem mutex_lock_unlock_roundtrip s m h mx t :
  mutexes s !! m = Some mx → tasks s !! h = Some t →
  locked mx = false → owner mx = None → wait_queue mx = [] →
  m ∉ held_mutexes t →
  priority_inheritance_enabled s = false ∨ priority_inherited t = false →
  mutex_unlock (mutex_lock s m h) m h = scheduler_schedule s.
Proof.
  intros Hm Ht Hl Ho Hq Hheld Hpi.
  unfold mutex_lock. rewrite Hm, Ht, Hl. simpl.
  unfold task_add_held_mutex. simpl. rewrite list_lookup_alter_eq, Hm. simpl.
  unfold mutex_unlock. simpl.
  rewrite !list_lookup_alter_eq, Hm, Ht. simpl.
  rewrite decide_True by done. f_equal.
  unfold task_remove_held_mutex. simpl. rewrite list_lookup_alter_eq, Hm. simpl.
  set (s1 := upd_mutex m (λ x, set_owner (Some h) (set_locked true x)) s).
  assert (upd_task h
            (λ t0, set_held_mutexes (remove_first m (held_mutexes t0)) t0)
            (upd_task h (λ t0, set_held_mutexes (held_mutexes t0 ++ [m]) t0)
               s1) = s1) as ->.
  { unfold upd_task. simpl. rewrite alter_alter.
    rewrite (alter_same _ (tasks s) h t Ht).
    - by destruct s.
    - simpl. rewrite remove_first_snoc by done. by destruct t. }
  assert ((if priority_inheritance_enabled s then priority_restore s1 h
           else s1) = s1) as ->.
  { destruct Hpi as [->|Hinh]; [done|]. case_match; [|done].
    unfold priority_restore. simpl. by rewrite Ht, Hinh. }
  unfold mutex_handoff, wait_queue_pop. simpl.
  rewrite list_lookup_alter_eq, Hm. simpl. rewrite Hq.
  unfold upd_mutex. simpl. rewrite alter_alter.
  rewrite (alter_same _ (mutexes s) m mx Hm).
  - by destruct s.
  - simpl. destruct mx; simpl in *. by subst.
Qed.

(** ** Tasks the dispatcher passes over *)

Lemma context_switch_bystander s from n h t :
  tasks s !! h = Some t → state t ≠ TASK_RUNNING → n ≠ h →
  h ∉ ready_queue s →
  tasks (scheduler_context_switch s from (Some n)) !! h = Some t
  ∧ h ∉ ready_queue (scheduler_context_switch s from (Some n)).
Proof.
  intros Ht Hst Hn Hout. unfold scheduler_context_switch.
  case_decide; [done|].
  match goal with
  | |- context [ready_queue_remove ?x n] => set (s1 := x)
  end.
  assert (tasks s1 !! h = Some t ∧ h ∉ ready_queue s1) as [Ht1 Hout1].
  { unfold s1. destruct from as [c|]; [|done]. case_decide as Hrun; [|done].
    assert (c ≠ h) as Hc.
    { intros ->. unfold task_state in Hrun. rewrite Ht in Hrun.
      simpl in Hrun. congruence. }
    rewrite tasks_upd_task, list_lookup_alter_ne by done.
    rewrite tasks_ready_queue_insert, tasks_upd_task,
      list_lookup_alter_ne by done.
    split; [done|]. simpl. unfold ready_queue_insert.
    repeat case_match; try done. simpl.
    rewrite elem_of_priority_insert. intros [?|?]; [congruence|done]. }
  simpl. rewrite list_lookup_alter_ne by done. split; [done|].
  intros Hin. by apply remove_first_subseteq in Hin.
Qed.

Lemma schedule_bystander s h t :
  tasks s !! h = Some t → state t ≠ TASK_RUNNING →
  h ∉ ready_queue s → idle_task s ≠ Some h →
  tasks (scheduler_schedule s) !! h = Some t
  ∧ h ∉ ready_queue (scheduler_schedule s).
Proof.
  intros Ht Hst Hout Hidle. unfold scheduler_schedule.
  assert (∀ n, scheduler_get_next_task s = Some n → n ≠ h) as Hnext.
  { intros n Hn ->. unfold scheduler_get_next_task, ready_queue_peek in Hn.
    destruct (ready_queue s) as [|x q] eqn:Hq; simpl in Hn.
    - congruence.
    - simplify_eq. apply Hout. constructor. }
  destruct (scheduler_get_next_task s) as [n|] eqn:Hn.
  - specialize (Hnext n eq_refl).
    repeat (case_match || case_decide); try done;
      by apply context_switch_bystander.
  - repeat (case_match || case_decide); done.
Qed.

(** The record of a task that has just been blocked, after the
    dispatch. *)
Lemma blocked_after_dispatch s h t :
  ready_queue_wf s → idle_task s ≠ Some h → tasks s !! h = Some t →
  ∃ t',
    tasks (scheduler_schedule (task_set_state s h TASK_BLOCKED)) !! h = Some t'
    ∧ state t' = TASK_BLOCKED
    ∧ static_fields t' = static_fields t
    ∧ h ∉ ready_queue (scheduler_schedule (task_set_state s h TASK_BLOCKED)).
Proof.
  intros Hwf Hidle Ht.
  set (s3 := task_set_state s h TASK_BLOCKED).
  assert (ready_queue_wf s3) as Hwf3 by (by apply ready_queue_wf_task_set_state).
  pose proof (task_set_state_state s h TASK_BLOCKED t Ht) as Hst.
  fold s3 in Hst.
  destruct (same_proj_lookup_Some static_fields s s3 h t
              ltac:(apply tasks_rel_set_state_any;
                    [apply _|apply static_fields_stable]) Ht)
    as (t3 & Ht3 & Hf3).
  unfold task_state in Hst. rewrite Ht3 in Hst. simpl in Hst.
  injection Hst as Hst.
  destruct (schedule_bystander s3 h t3) as [Hrec Hout]; try done.
  - congruence.
  - eapply ready_queue_absent_not_ready; [done..|congruence].
  - unfold s3. by rewrite (proj_task_set_state idle_task).
  - by exists t3.
Qed.

(** X7. A lock of a held mutex whose wait queue is full loses the caller:
    the mutex is left as it was, so the caller is in no wait queue, while
    the caller is set to Blocked with [blocked_on] pointing at the mutex and
    is out of the ready queue. *)
Theorem mutex_lock_full_queue s m h mx t :
  ready_queue_wf s → idle_task s ≠ Some h →
  mutexes s !! m = Some mx → tasks s !! h = Some t → locked mx = true →
  (MUTEX_WAIT_QUEUE_CAP ≤ length (wait_queue mx))%nat →
  mutexes (mutex_lock s m h) = mutexes s
  ∧ (h ∉ ready_queue (mutex_lock s m h))
  ∧ (∃ t',
        tasks (mutex_lock s m h) !! h = Some t'
        ∧ state t' = TASK_BLOCKED
        ∧ blocked_on t' = Some m).
Proof.
  intros Hwf Hidle Hm Ht Hl Hfull.
  split.
  { destruct (mutexes_mutex_lock_contended s m h mx t Hm Ht Hl)
      as (s3 & _ & ->).
    by destruct (Nat.leb_spec MUTEX_WAIT_QUEUE_CAP (length (wait_queue mx)));
      [|lia]. }
  rewrite (mutex_lock_contended s m h mx t) by done.
  match goal with |- context [block_on ?x m h] => set (s1 := x) end.
  assert (ready_queue_wf s1 ∧ idle_task s1 = idle_task s
          ∧ mutexes s1 = mutexes s ∧ is_Some (tasks s1 !! h))
    as (Hwf1 & Hidle1 & Hm1 & [t1 Ht1]).
  { unfold s1. repeat case_match; try by eauto.
    split_and!.
    - by apply ready_queue_wf_priority_inherit.
    - by apply (proj_priority_inherit idle_task).
    - apply mutexes_priority_inherit.
    - destruct (tasks_rel_lookup (λ _ _, True) s
                  (priority_inherit s n (priority t)) h t) as (t1 & ? & _);
        [|done|by eauto].
      apply tasks_rel_priority_inherit; [|done].
      split; [intros ?|intros ???]; done. }
  unfold block_on.
  set (s2 := upd_task h (set_blocked_on (Some m)) s1).
  assert (wait_queue_insert (task_set_state s2 h TASK_BLOCKED) m h
          = task_set_state s2 h TASK_BLOCKED) as ->.
  { unfold wait_queue_insert. rewrite mutexes_task_set_state.
    unfold s2. simpl. rewrite Hm1, Hm.
    by destruct (Nat.leb_spec MUTEX_WAIT_QUEUE_CAP (length (wait_queue mx)));
      [|lia]. }
  destruct (blocked_after_dispatch s2 h (set_blocked_on (Some m) t1))
    as (t' & Ht' & Hst' & Hf' & Hout').
  - unfold s2. by apply ready_queue_wf_fields.
  - unfold s2. simpl. congruence.
  - unfold s2. by rewrite tasks_upd_task, list_lookup_alter_eq, Ht1.
  - split; [done|]. exists t'. split_and!; try done.
    unfold static_fields in Hf'. by simplify_eq/=.
Qed.

(** X8. A wait on a semaphore without tokens whose wait queue is full loses
    the caller: the semaphore is left as it was, so the caller is not among
    its waiters, while the caller is set to Blocked and is out of the ready
    queue. *)
Theorem semaphore_wait_full_queue s k h sm t :
  ready_queue_wf s → idle_task s ≠ Some h →
  semaphores s !! k = Some sm → tasks s !! h = Some t → sem_count sm ≤ 0 →
  (SEM_WAIT_QUEUE_CAP ≤ length (sem_wait_queue sm))%nat →
  semaphores (semaphore_wait s k h) = semaphores s
  ∧ (h ∉ ready_queue (semaphore_wait s k h))
  ∧ (∃ t',
        tasks (semaphore_wait s k h) !! h = Some t'
        ∧ state t' = TASK_BLOCKED).
Proof.
  intros Hwf Hidle Hk Ht Hcount Hfull.
  unfold semaphore_wait. rewrite Hk, Ht.
  destruct (Z.gtb_spec (sem_count sm) 0); [lia|].
  assert (sem_wait_queue_insert (task_set_state s h TASK_BLOCKED) k h
          = task_set_state s h TASK_BLOCKED) as ->.
  { unfold sem_wait_queue_insert.
    rewrite (proj_task_set_state semaphores) by done. rewrite Hk.
    by destruct (Nat.leb_spec SEM_WAIT_QUEUE_CAP (length (sem_wait_queue sm)));
      [|lia]. }
  destruct (blocked_after_dispatch s h t) as (t' & Ht' & Hst' & Hf' & Hout');
    try done.
  split_and!.
  - rewrite (proj_schedule semaphores) by done.
    by rewrite (proj_task_set_state semaphores).
  - done.
  - by exists t'.
Qed.

(** ** Where a waiter is queued *)

Lemma priority_insert_scan s h q :
  ∃ l1 l2,
    q = l1 ++ l2
    ∧ priority_insert s h q = l1 ++ h :: l2
    ∧ Forall (λ x, task_get_priority s x ≤ task_get_priority s h) l1
    ∧ (∀ x, head l2 = Some x → task_get_priority s h < task_get_priority s x).
Proof.
  induction q as [|x q IH].
  { exists [], []. split_and!; done. }
  rewrite priority_insert_cons.
  destruct (Z.ltb_spec (task_get_priority s h) (task_get_priority s x)).
  - exists [], (x :: q). split_and!; try done. intros y [= <-]. done.
  - destruct IH as (l1 & l2 & -> & -> & H1 & H2).
    exists (x :: l1), l2. split_and!; try done. by constructor.
Qed.

(** X9. A lock of a held mutex whose wait queue has room inserts the caller
    into the wait queue once, behind every waiter whose priority number is
    at most the caller's and directly in front of the first waiter with a
    larger one, and keeps the order of the other waiters. *)
Theorem mutex_lock_enqueues s m h mx t :
  mutexes s !! m = Some mx → tasks s !! h = Some t → locked mx = true →
  (length (wait_queue mx) < MUTEX_WAIT_QUEUE_CAP)%nat →
  ∃ l1 l2,
    wait_queue mx = l1 ++ l2
    ∧ mutexes (mutex_lock s m h) !! m = Some (set_wait_queue (l1 ++ h :: l2) mx)
    ∧ Forall (λ x, task_get_priority (mutex_lock s m h) x
                   ≤ task_get_priority (mutex_lock s m h) h) l1
    ∧ (∀ x, head l2 = Some x →
            task_get_priority (mutex_lock s m h) h
            < task_get_priority (mutex_lock s m h) x).
Proof.
  intros Hm Ht Hl Hroom.
  rewrite (mutex_lock_contended s m h mx t) by done.
  match goal with |- context [block_on ?x m h] => set (s1 := x) end.
  assert (mutexes s1 = mutexes s) as Hm1.
  { unfold s1. repeat case_match; rewrite ?mutexes_priority_inherit; done. }
  set (s3 := task_set_state (upd_task h (set_blocked_on (Some m)) s1) h
               TASK_BLOCKED).
  assert (mutexes s3 = mutexes s) as Hm3.
  { unfold s3. by rewrite mutexes_task_set_state. }
  assert (∀ i, task_get_priority (block_on s1 m h) i = task_get_priority s3 i)
    as Hp.
  { intros i. apply task_get_priority_same_proj. unfold block_on. fold s3.
    eapply same_proj_trans; [apply tasks_rel_wait_queue_insert, _|].
    by apply tasks_rel_schedule; [apply _|..]. }
  destruct (priority_insert_scan s3 h (wait_queue mx))
    as (l1 & l2 & Hq & Hins & H1 & H2).
  exists l1, l2. split_and!; try done.
  - unfold block_on. fold s3. rewrite mutexes_schedule.
    rewrite (mutexes_wait_queue_insert s3 m h mx) by (by rewrite Hm3).
    destruct (Nat.leb_spec MUTEX_WAIT_QUEUE_CAP (length (wait_queue mx)));
      [lia|].
    by rewrite Hm3, list_lookup_alter_eq, Hm, Hins.
  - eapply Forall_impl; [exact H1|]. intros x Hx. simpl in Hx.
    by rewrite !Hp.
  - intros x Hx. rewrite !Hp. by apply H2.
Qed.

(** ** Owners and held sets *)

Lemma ownership_wf_frame s s' :
  mutexes s' = mutexes s → same_proj held_mutexes s s' →
  ownership_wf s → ownership_wf s'.
Proof.
  intros Hm Hsame [Ha Hb]. unfold ownership_wf. rewrite Hm. split.
  - intros m mx Hmx. destruct (Ha m mx Hmx) as (H1 & H2 & H3 & H4 & H5).
    split_and!; try done.
    + intros w Hw. destruct (H4 w Hw) as [tw Htw].
      destruct (same_proj_lookup_Some _ _ _ _ _ Hsame Htw) as (t' & ? & _).
      by eauto.
    + intros h Hh. destruct (H5 h Hh) as (t & Ht & Hin).
      destruct (same_proj_lookup_Some _ _ _ _ _ Hsame Ht) as (t' & Ht' & E).
      exists t'. by rewrite E.
  - intros h t' Ht'.
    destruct (tasks_rel_lookup_r _ _ _ _ _ Hsame Ht') as (t & Ht & E).
    unfold proj_eq in E. rewrite E. by apply Hb.
Qed.

Lemma held_mutexes_stable : dispatch_stable (proj_eq held_mutexes).
Proof. by split. Qed.

Lemma held_mutexes_boost_task p t :
  held_mutexes (boost_task p t) = held_mutexes t.
Proof. unfold boost_task. by destruct (priority_inherited t). Qed.

Lemma held_mutexes_restore_task n t :
  held_mutexes (restore_task n t) = held_mutexes t.
Proof. unfold restore_task. by case_decide. Qed.

Lemma tasks_rel_block_on (R : relation TaskControlBlock) `{!PreOrder R} s m h :
  dispatch_stable R → (∀ v t, R t (set_blocked_on v t)) →
  tasks_rel R s (block_on s m h).
Proof.
  intros Hds Hblk. unfold block_on.
  eapply tasks_rel_trans; [done| |by apply tasks_rel_schedule_any].
  eapply tasks_rel_trans; [done| |by apply tasks_rel_wait_queue_insert].
  eapply tasks_rel_trans; [done| |by apply tasks_rel_set_state_any].
  by apply tasks_rel_upd_task.
Qed.

Lemma ownership_wf_init pol pi : ownership_wf (scheduler_init pol pi).
Proof.
  assert (tasks (scheduler_init pol pi) =
          [set_remaining_work UINT64_MAX
             (new_task (mkSystem pol pi None None [] [] 0 0 0 [] [] [])
                PRIORITY_IDLE 0 0 0)]) as Ht by (by vm_compute).
  assert (mutexes (scheduler_init pol pi) = []) as Hm by (by vm_compute).
  unfold ownership_wf. rewrite Ht, Hm. split.
  - intros m mx Hmx. done.
  - intros h t Hh. apply list_lookup_singleton_Some in Hh as [-> <-].
    simpl. split; [constructor|]. intros m Hin. by apply elem_of_nil in Hin.
Qed.

Lemma ownership_wf_task_create s prio period0 deadline wcet :
  ownership_wf s →
  ownership_wf (fst (task_create s prio period0 deadline wcet)).
Proof.
  intros [Ha Hb]. unfold task_create. case_match; simpl; [done|].
  unfold ownership_wf.
  rewrite tasks_ready_queue_insert, mutexes_ready_queue_insert. simpl. split.
  - intros m mx Hmx. destruct (Ha m mx Hmx) as (H1 & H2 & H3 & H4 & H5).
    split_and!; try done.
    + intros w Hw. destruct (H4 w Hw) as [tw Htw]. exists tw.
      by apply lookup_app_l_Some.
    + intros h Hh. destruct (H5 h Hh) as (t & Ht & Hin).
      exists t. split; [|done]. by apply lookup_app_l_Some.
  - intros h t [Hh|[_ Hh]]%lookup_app_Some; [by apply Hb|].
    apply list_lookup_singleton_Some in Hh as [_ <-]. simpl.
    split; [constructor|]. intros m Hin. by apply elem_of_nil in Hin.
Qed.

Lemma ownership_wf_mutex_create s :
  ownership_wf s → ownership_wf (fst (mutex_create s)).
Proof.
  intros [Ha Hb]. unfold mutex_create, ownership_wf. simpl. split.
  - intros m mx [Hmx|[_ Hmx]]%lookup_app_Some; [by apply Ha|].
    apply list_lookup_singleton_Some in Hmx as [_ <-]. simpl.
    split_and!; try done.
    + unfold MUTEX_WAIT_QUEUE_CAP. lia.
    + intros w Hw. by apply elem_of_nil in Hw.
  - intros h t Ht. destruct (Hb h t Ht) as [Hnd Hin]. split; [done|].
    intros m Hm. destruct (Hin m Hm) as (mx & Hmx & Ho).
    exists mx. split; [|done]. by apply lookup_app_l_Some.
Qed.

Lemma ownership_wf_lock s m h :
  ownership_wf s → ownership_wf (mutex_lock s m h).
Proof.
  intros Hwf.
  destruct (mutexes s !! m) as [mx|] eqn:Hm;
    [|unfold mutex_lock; by rewrite Hm].
  destruct (tasks s !! h) as [t|] eqn:Ht;
    [|unfold mutex_lock; by rewrite Hm, Ht].
  destruct (locked mx) eqn:Hl.
  - (* contended *)
    assert (same_proj held_mutexes s (mutex_lock s m h)) as Hsame.
    { rewrite (mutex_lock_contended s m h mx t) by done.
      eapply same_proj_trans;
        [|by apply tasks_rel_block_on; [apply _|apply held_mutexes_stable|]].
      repeat case_match; try apply same_proj_refl.
      apply tasks_rel_priority_inherit; [apply _|].
      intros. apply held_mutexes_boost_task. }
    destruct (mutexes_mutex_lock_contended s m h mx t Hm Ht Hl)
      as (s3 & _ & Hms).
    destruct (Nat.leb_spec MUTEX_WAIT_QUEUE_CAP (length (wait_queue mx)))
      as [|Hroom]; [by apply (ownership_wf_frame s)|].
    destruct Hwf as [Ha Hb]. unfold ownership_wf. rewrite Hms. split.
    + intros m' mx' Hmx'. destruct (decide (m' = m)) as [->|Hne].
      * rewrite list_lookup_alter_eq, Hm in Hmx'. simplify_eq/=.
        destruct (Ha m mx Hm) as (H1 & H2 & H3 & H4 & H5).
        split_and!; try done.
        -- congruence.
        -- rewrite (Permutation_length (priority_insert_perm _ _ _)). simpl.
           lia.
        -- intros w [->|Hw]%elem_of_priority_insert.
           ++ destruct (same_proj_lookup_Some _ _ _ _ _ Hsame Ht)
                as (t' & ? & _). by eauto.
           ++ destruct (H4 w Hw) as [tw Htw].
              destruct (same_proj_lookup_Some _ _ _ _ _ Hsame Htw)
                as (t' & ? & _). by eauto.
        -- intros h0 Hh0. destruct (H5 h0 Hh0) as (t0 & Ht0 & Hin).
           destruct (same_proj_lookup_Some _ _ _ _ _ Hsame Ht0)
             as (t' & Ht' & E). exists t'. by rewrite E.
      * rewrite list_lookup_alter_ne in Hmx' by done.
        destruct (Ha m' mx' Hmx') as (H1 & H2 & H3 & H4 & H5).
        split_and!; try done.
        -- intros w Hw. destruct (H4 w Hw) as [tw Htw].
           destruct (same_proj_lookup_Some _ _ _ _ _ Hsame Htw)
             as (t' & ? & _). by eauto.
        -- intros h0 Hh0. destruct (H5 h0 Hh0) as (t0 & Ht0 & Hin).
           destruct (same_proj_lookup_Some _ _ _ _ _ Hsame Ht0)
             as (t' & Ht' & E). exists t'. by rewrite E.
    + intros h0 t' Ht'.
      destruct (tasks_rel_lookup_r _ _ _ _ _ Hsame Ht') as (t0 & Ht0 & E).
      unfold proj_eq in E. rewrite E.
      destruct (Hb h0 t0 Ht0) as [Hnd Hin]. split; [done|].
      intros m' Hm'. destruct (Hin m' Hm') as (mx' & Hmx' & Ho).
      destruct (decide (m' = m)) as [->|Hne].
      * rewrite Hm in Hmx'. simplify_eq.
        exists (set_wait_queue (priority_insert s3 h (wait_queue mx')) mx').
        by rewrite list_lookup_alter_eq, Hm.
      * exists mx'. by rewrite list_lookup_alter_ne.
  - (* free *)
    destruct Hwf as [Ha Hb].
    destruct (Ha m mx Hm) as (H1 & H2 & H3 & H4 & H5).
    assert (owner mx = None) as Hnone.
    { destruct (owner mx) eqn:E; [|done].
      assert (locked mx = true) by (apply H1; by eauto). congruence. }
    assert (∀ h0 t0, tasks s !! h0 = Some t0 → m ∉ held_mutexes t0) as Hfree.
    { intros h0 t0 Ht0 Hin. destruct (Hb h0 t0 Ht0) as [_ Hown].
      destruct (Hown m Hin) as (mx0 & Hmx0 & Ho). congruence. }
    assert (mutexes (mutex_lock s m h) =
            alter (λ x, set_owner (Some h) (set_locked true x)) m (mutexes s))
      as Hms by (by eapply mutexes_mutex_lock_free).
    assert (tasks (mutex_lock s m h) =
            alter (λ t0, set_held_mutexes (held_mutexes t0 ++ [m]) t0) h
              (tasks s)) as Hts.
    { unfold mutex_lock. rewrite Hm, Ht, Hl. simpl.
      unfold task_add_held_mutex. simpl.
      by rewrite list_lookup_alter_eq, Hm. }
    unfold ownership_wf. rewrite Hms, Hts. split.
    + intros m' mx' Hmx'. destruct (decide (m' = m)) as [->|Hne].
      * rewrite list_lookup_alter_eq, Hm in Hmx'. simplify_eq/=.
        split_and!; try done.
        -- intros w Hw. rewrite H2 in Hw by done. by apply elem_of_nil in Hw.
        -- intros h0 [= <-]. rewrite list_lookup_alter_eq, Ht. simpl.
           eexists. split; [done|]. simpl. apply elem_of_app. right.
           constructor.
      * rewrite list_lookup_alter_ne in Hmx' by done.
        destruct (Ha m' mx' Hmx') as (G1 & G2 & G3 & G4 & G5).
        split_and!; try done.
        -- intros w Hw. destruct (G4 w Hw) as [tw Htw].
           destruct (decide (h = w)) as [->|Hnw].
           ++ rewrite list_lookup_alter_eq, Htw. by eauto.
           ++ rewrite list_lookup_alter_ne by done. by eauto.
        -- intros h0 Hh0. destruct (G5 h0 Hh0) as (t0 & Ht0 & Hin).
           destruct (decide (h = h0)) as [->|Hnh].
           ++ rewrite list_lookup_alter_eq, Ht0. simpl. eexists.
              split; [done|]. simpl. apply elem_of_app. by left.
           ++ rewrite list_lookup_alter_ne by done. by eauto.
    + intros h0 t' Ht'. destruct (decide (h = h0)) as [->|Hnh].
      * rewrite list_lookup_alter_eq, Ht in Ht'. simplify_eq/=.
        destruct (Hb h0 t Ht) as [Hnd Hown]. split.
        -- apply NoDup_app. split_and!; [done| |apply NoDup_singleton].
           intros x Hx ->%list_elem_of_singleton. by eapply Hfree.
        -- intros m' [Hm'| ->%list_elem_of_singleton]%elem_of_app.
           ++ destruct (Hown m' Hm') as (mx' & Hmx' & Ho).
              assert (m' ≠ m) by (intros ->; by eapply Hfree).
              exists mx'. by rewrite list_lookup_alter_ne.
           ++ rewrite list_lookup_alter_eq, Hm. simpl. by eauto.
      * rewrite list_lookup_alter_ne in Ht' by done.
        destruct (Hb h0 t' Ht') as [Hnd Hown]. split; [done|].
        intros m' Hm'. destruct (Hown m' Hm') as (mx' & Hmx' & Ho).
        assert (m' ≠ m) by (intros ->; by eapply Hfree).
        exists mx'. by rewrite list_lookup_alter_ne.
Qed.

(** The held sets after an unlock by the owner: the mutex leaves the
    owner's set and joins the set of the first waiter. *)
Lemma held_mutexes_unlock s m h mx t i :
  mutexes s !! m = Some mx → tasks s !! h = Some t → owner mx = Some h →
  held_mutexes <$> tasks (mutex_unlock s m h) !! i =
  (λ ti,
     (if decide (i = h) then remove_first m (held_mutexes ti)
      else held_mutexes ti)
     ++ (if decide (head (wait_queue mx) = Some i) then [m] else []))
  <$> tasks s !! i.
Proof.
  intros Hm Ht Ho.
  destruct (mutex_unlock_steps s m h mx t Hm Ht Ho) as (-> & _ & Hm2 & _ & _).
  set (s1 := task_remove_held_mutex s h m).
  set (s2 := if priority_inheritance_enabled s then priority_restore s1 h
             else s1).
  fold s1 s2 in Hm2.
  assert (held_mutexes <$> tasks s2 !! i =
          (λ ti, if decide (i = h) then remove_first m (held_mutexes ti)
                 else held_mutexes ti) <$> tasks s !! i) as H2.
  { transitivity (held_mutexes <$> tasks s1 !! i).
    - unfold s2. case_match; [|done].
      apply same_proj_lookup, tasks_rel_priority_restore; [apply _|].
      intros. apply held_mutexes_restore_task.
    - unfold s1, task_remove_held_mutex. rewrite Hm, tasks_upd_task.
      case_decide as E.
      + subst i. rewrite list_lookup_alter_eq. by destruct (tasks s !! h).
      + by rewrite list_lookup_alter_ne. }
  rewrite (same_proj_lookup held_mutexes (mutex_handoff s2 m))
    by (by apply tasks_rel_schedule_any;
        [apply _|apply held_mutexes_stable]).
  unfold mutex_handoff, wait_queue_pop. rewrite Hm2, Hm.
  destruct (wait_queue mx) as [|w rest] eqn:Hq; simpl.
  { rewrite H2. destruct (tasks s !! i); [|done]. simpl.
    by rewrite app_nil_r. }
  match goal with
  | |- context [task_set_state ?x w TASK_READY] => set (s4 := x)
  end.
  rewrite (same_proj_lookup held_mutexes s4)
    by (by apply tasks_rel_set_state_any;
        [apply _|apply held_mutexes_stable]).
  unfold s4, task_add_held_mutex. simpl.
  rewrite Hm2, !list_lookup_alter_eq, Hm. simpl.
  destruct (decide (w = i)) as [->|Hne].
  - rewrite !list_lookup_alter_eq. rewrite decide_True by done.
    rewrite <- !option_fmap_compose.
    transitivity ((λ l, l ++ [m]) <$> (held_mutexes <$> tasks s2 !! i)).
    { by destruct (tasks s2 !! i). }
    rewrite H2. by destruct (tasks s !! i).
  - rewrite !list_lookup_alter_ne by done.
    rewrite decide_False by congruence.
    rewrite H2. destruct (tasks s !! i); [|done]. simpl.
    by rewrite app_nil_r.
Qed.

Lemma elem_of_remove_first_ne (m m' : nat) l :
  m' ≠ m → m' ∈ remove_first m l ↔ m' ∈ l.
Proof.
  intros Hne. split; [apply remove_first_subseteq|by apply remove_first_other].
Qed.

Lemma ownership_wf_unlock s m h :
  ownership_wf s → ownership_wf (mutex_unlock s m h).
Proof.
  intros Hwf.
  destruct (mutexes s !! m) as [mx|] eqn:Hm;
    [|unfold mutex_unlock; by rewrite Hm].
  destruct (tasks s !! h) as [t|] eqn:Ht;
    [|unfold mutex_unlock; by rewrite Hm, Ht].
  destruct (decide (owner mx = Some h)) as [Ho|Ho];
    [|unfold mutex_unlock; by rewrite Hm, Ht, decide_False].
  destruct Hwf as [Ha Hb].
  destruct (Ha m mx Hm) as (H1 & H2 & H3 & H4 & H5).
  assert (locked mx = true) as Hl by (apply H1; by eauto).
  pose proof (λ i, held_mutexes_unlock s m h mx t i Hm Ht Ho) as Hheld.
  assert (mutexes (mutex_unlock s m h) =
          match wait_queue mx with
          | w :: rest =>
              alter (set_owner (Some w)) m
                (alter (set_wait_queue rest) m (mutexes s))
          | [] => alter (λ x, set_owner None (set_locked false x)) m (mutexes s)
          end) as Hms.
  { destruct (mutex_unlock_steps s m h mx t Hm Ht Ho)
      as (_ & _ & Hm2 & -> & _).
    rewrite (mutexes_handoff _ m mx) by (by rewrite Hm2).
    by rewrite Hm2. }
  assert (∀ i ti, tasks s !! i = Some ti →
            ∃ ti', tasks (mutex_unlock s m h) !! i = Some ti'
              ∧ held_mutexes ti' =
                (if decide (i = h) then remove_first m (held_mutexes ti)
                 else held_mutexes ti)
                ++ (if decide (head (wait_queue mx) = Some i) then [m] else []))
    as Hfwd.
  { intros i ti Hi. specialize (Hheld i). rewrite Hi in Hheld.
    destruct (tasks (mutex_unlock s m h) !! i) as [ti'|]; simplify_eq/=.
    by eauto. }
  assert (∀ i ti', tasks (mutex_unlock s m h) !! i = Some ti' →
            ∃ ti, tasks s !! i = Some ti
              ∧ held_mutexes ti' =
                (if decide (i = h) then remove_first m (held_mutexes ti)
                 else held_mutexes ti)
                ++ (if decide (head (wait_queue mx) = Some i) then [m] else []))
    as Hbwd.
  { intros i ti' Hi. specialize (Hheld i). rewrite Hi in Hheld.
    destruct (tasks s !! i) as [ti|]; simplify_eq/=. by eauto. }
  assert (∀ i ti, tasks s !! i = Some ti → i ≠ h → m ∉ held_mutexes ti)
    as Honly.
  { intros i ti Hi Hne Hin. destruct (Hb i ti Hi) as [_ Hown].
    destruct (Hown m Hin) as (mx0 & Hmx0 & Ho0). congruence. }
  assert (∀ m' mx', m' ≠ m → mutexes s !! m' = Some mx' →
            mutexes (mutex_unlock s m h) !! m' = Some mx') as Hoth.
  { intros m' mx' Hne Hmx'. rewrite Hms.
    destruct (wait_queue mx); by rewrite !list_lookup_alter_ne. }
  unfold ownership_wf. split.
  - intros m' mx' Hmx'. destruct (decide (m' = m)) as [->|Hne].
    + rewrite Hms in Hmx'. destruct (wait_queue mx) as [|w rest] eqn:Hq.
      * rewrite list_lookup_alter_eq, Hm in Hmx'. simplify_eq/=.
        split_and!; try done.
        -- rewrite Hq. simpl. lia.
        -- intros w Hw. rewrite Hq in Hw. by apply elem_of_nil in Hw.
      * rewrite !list_lookup_alter_eq, Hm in Hmx'. simplify_eq/=.
        split_and!.
        -- split; [intros _; by eexists|done].
        -- congruence.
        -- simpl in *. lia.
        -- intros w0 Hw0. simpl in Hw0. destruct (H4 w0) as [tw Htw].
           { by constructor. }
           destruct (Hfwd w0 tw Htw) as (tw' & ? & _). by eauto.
        -- intros h0 [= <-]. destruct (H4 w) as [tw Htw].
           { constructor. }
           destruct (Hfwd w tw Htw) as (tw' & Htw' & E).
           exists tw'. split; [done|]. rewrite E. simpl.
           apply elem_of_app. right.
           destruct (decide (Some w = Some w)); [constructor|done].
    + assert (mutexes s !! m' = Some mx') as Hold.
      { rewrite Hms in Hmx'.
        destruct (wait_queue mx);
          by rewrite !list_lookup_alter_ne in Hmx'. }
      destruct (Ha m' mx' Hold) as (G1 & G2 & G3 & G4 & G5).
      split_and!; try done.
      * intros w Hw. destruct (G4 w Hw) as [tw Htw].
        destruct (Hfwd w tw Htw) as (tw' & ? & _). by eauto.
      * intros h0 Hh0. destruct (G5 h0 Hh0) as (t0 & Ht0 & Hin).
        destruct (Hfwd h0 t0 Ht0) as (t0' & Ht0' & E).
        exists t0'. split; [done|]. rewrite E. apply elem_of_app. left.
        case_decide; [|done]. by apply remove_first_other.
  - intros i ti' Hi. destruct (Hbwd i ti' Hi) as (ti & Hti & E).
    destruct (Hb i ti Hti) as [Hnd Hown]. rewrite E.
    set (l := if decide (i = h) then remove_first m (held_mutexes ti)
              else held_mutexes ti).
    assert (NoDup l) as Hndl.
    { unfold l. case_decide; [by apply remove_first_NoDup|done]. }
    assert (m ∉ l) as Hml.
    { unfold l. case_decide as Ei.
      - by apply remove_first_gone.
      - by eapply Honly. }
    assert (∀ m', m' ∈ l → m' ∈ held_mutexes ti) as Hsub.
    { unfold l. intros m'. case_decide; [apply remove_first_subseteq|done]. }
    split.
    + destruct (decide (head (wait_queue mx) = Some i));
        [|by rewrite app_nil_r].
      apply NoDup_app. split_and!; [done| |apply NoDup_singleton].
      by intros x Hx ->%list_elem_of_singleton.
    + intros m' [Hm'|Hm']%elem_of_app.
      * assert (m' ≠ m) by (intros ->; done).
        destruct (Hown m' (Hsub m' Hm')) as (mx' & Hmx' & Ho').
        exists mx'. split; [|done]. by apply Hoth.
      * destruct (decide (head (wait_queue mx) = Some i)) as [Ehead|];
          [|by apply elem_of_nil in Hm'].
        apply list_elem_of_singleton in Hm' as ->.
        rewrite Hms. destruct (wait_queue mx) as [|w rest]; [done|].
        simpl in Ehead. simplify_eq.
        rewrite !list_lookup_alter_eq, Hm. simpl. by eauto.
Qed.

Lemma ownership_wf_step qsort s o :
  ownership_wf s → ownership_wf (run_op qsort o s).
Proof.
  intros Hwf.
  destruct (dispatch_op o) eqn:Hd.
  { apply (ownership_wf_frame s); [|by apply tasks_rel_dispatch_op;
                                       [apply _|apply held_mutexes_stable|]
                                    |done].
    by apply mutexes_dispatch_op. }
  destruct o; simpl in *; try discriminate.
  - by apply ownership_wf_task_create.
  - apply (ownership_wf_frame s); [apply mutexes_task_set_priority| |done].
    by apply tasks_rel_task_set_priority; [apply _|].
  - by apply ownership_wf_mutex_create.
  - by apply ownership_wf_lock.
  - by apply ownership_wf_unlock.
  - apply (ownership_wf_frame s); [apply mutexes_priority_inherit| |done].
    apply tasks_rel_priority_inherit; [apply _|].
    intros. apply held_mutexes_boost_task.
  - apply (ownership_wf_frame s); [apply mutexes_priority_restore| |done].
    apply tasks_rel_priority_restore; [apply _|].
    intros. apply held_mutexes_restore_task.
  - by apply (ownership_wf_frame s); [|apply tasks_rel_tasks; [apply _|]|].
  - apply (ownership_wf_frame s); [apply mutexes_rms_recalculate| |done].
    by apply tasks_rel_rms_recalculate; [apply _|].
Qed.

Lemma ownership_wf_reachable qsort allowed s :
  reachable qsort allowed s → ownership_wf s.
Proof.
  induction 1 as [pol pi|s o Hreach IH Hd].
  - apply ownership_wf_init.
  - by apply ownership_wf_step.
Qed.

(** X10. In every reachable state, whatever the operations and their
    arguments: a mutex is locked exactly when it has an owner, it has
    waiters only while it is locked and never more than
    [MUTEX_WAIT_QUEUE_CAP], its owner is a task of the arena, no held set
    lists a mutex twice, and a task holds a mutex exactly when it is the
    owner of that mutex. *)
Theorem mutex_ownership qsort s m mx :
  reachable qsort any_op s → mutexes s !! m = Some mx →
  (locked mx = true ↔ is_Some (owner mx))
  ∧ (locked mx = false → wait_queue mx = [])
  ∧ (length (wait_queue mx) ≤ MUTEX_WAIT_QUEUE_CAP)%nat
  ∧ (∀ h, owner mx = Some h → is_Some (tasks s !! h))
  ∧ (∀ h t, tasks s !! h = Some t →
       NoDup (held_mutexes t)
       ∧ (m ∈ held_mutexes t ↔ owner mx = Some h)).
Proof.
  intros Hreach Hm.
  destruct (ownership_wf_reachable _ _ _ Hreach) as [Ha Hb].
  destruct (Ha m mx Hm) as (H1 & H2 & H3 & H4 & H5).
  split_and!; try done.
  - intros h Hh. destruct (H5 h Hh) as (t & Ht & _). by eauto.
  - intros h t Ht. destruct (Hb h t Ht) as [Hnd Hown]. split; [done|].
    split.
    + intros Hin. destruct (Hown m Hin) as (mx0 & Hmx0 & Ho). congruence.
    + intros Ho. destruct (H5 h Ho) as (t0 & Ht0 & Hin). congruence.
Qed.

(** ** What the dispatcher guarantees *)

Lemma context_switch_outcome s from n :
  from ≠ Some n →
  current_task (scheduler_context_switch s from (Some n)) = Some n
  ∧ ∀ h, h ∈ ready_queue (scheduler_context_switch s from (Some n)) →
         h ∈ ready_queue s
         ∨ (from = Some h ∧ task_state s h = Some TASK_RUNNING).
Proof.
  intros Hne. unfold scheduler_context_switch. rewrite decide_False by done.
  split; [done|]. intros h Hin. simpl in Hin.
  apply remove_first_subseteq in Hin.
  destruct from as [c|]; [|by left]. case_decide as Hrun; [|by left].
  simpl in Hin. unfold ready_queue_insert in Hin.
  repeat case_match; simpl in Hin; try by left.
  apply elem_of_priority_insert in Hin as [->|Hin]; [by right|by left].
Qed.

Lemma task_get_priority_schedule s h :
  task_get_priority (scheduler_schedule s) h = task_get_priority s h.
Proof.
  apply task_get_priority_same_proj.
  by apply tasks_rel_schedule; [apply _|..].
Qed.

Lemma sorted_head_least s x q h :
  StronglySorted (priority_le s) (x :: q) → h ∈ x :: q →
  task_get_priority s x ≤ task_get_priority s h.
Proof.
  intros Hs Hin. apply StronglySorted_inv in Hs as [_ Hall].
  apply elem_of_cons in Hin as [->|Hin]; [done|].
  rewrite Forall_forall in Hall. by apply Hall.
Qed.

(** X11. After [scheduler_schedule] on a sorted ready queue, no task that is
    left in the ready queue has a smaller priority number than the current
    task: the task on the processor is at least as urgent as every task that
    waits for it. *)
Theorem scheduler_schedule_highest s c h :
  StronglySorted (priority_le s) (ready_queue s) →
  current_task (scheduler_schedule s) = Some c →
  h ∈ ready_queue (scheduler_schedule s) →
  task_get_priority (scheduler_schedule s) c
  ≤ task_get_priority (scheduler_schedule s) h.
Proof.
  intros Hs. rewrite !task_get_priority_schedule.
  unfold scheduler_schedule, scheduler_get_next_task, ready_queue_peek.
  destruct (ready_queue s) as [|x q] eqn:Hq; cbn [head].
  - (* nothing is ready: the idle task is next *)
    case_decide as Hsame.
    { rewrite Hq. intros _ Hin. by apply elem_of_nil in Hin. }
    destruct (current_task s) as [c0|] eqn:Hcur.
    + case_decide as Hrun.
      * destruct (idle_task s) as [n|] eqn:Hidle.
        -- destruct (Z.geb_spec (task_get_priority s n)
                       (task_get_priority s c0)).
           { rewrite Hq. intros _ Hin. by apply elem_of_nil in Hin. }
           intros Hc Hin.
           destruct (context_switch_outcome s (Some c0) n (not_eq_sym Hsame))
             as [Hnew Hrq].
           rewrite Hnew in Hc. simplify_eq.
           destruct (Hrq h Hin) as [Hin'|[E _]].
           ++ rewrite Hq in Hin'. by apply elem_of_nil in Hin'.
           ++ simplify_eq. lia.
        -- rewrite Hq. intros _ Hin. by apply elem_of_nil in Hin.
      * destruct (idle_task s) as [n|] eqn:Hidle.
        -- intros Hc Hin.
           destruct (context_switch_outcome s (Some c0) n (not_eq_sym Hsame)) as [_ Hrq].
           destruct (Hrq h Hin) as [Hin'|[E Hst]].
           ++ rewrite Hq in Hin'. by apply elem_of_nil in Hin'.
           ++ by simplify_eq.
        -- simpl. rewrite Hq. intros _ Hin. by apply elem_of_nil in Hin.
    + destruct (idle_task s) as [n|] eqn:Hidle.
      * intros Hc Hin.
        destruct (context_switch_outcome s None n (not_eq_sym Hsame)) as [_ Hrq].
        destruct (Hrq h Hin) as [Hin'|[E _]]; [|done].
        rewrite Hq in Hin'. by apply elem_of_nil in Hin'.
      * simpl. rewrite Hq. intros _ Hin. by apply elem_of_nil in Hin.
  - (* the head of the queue is next *)
    rewrite <- Hq in Hs.
    assert (∀ i, i ∈ ready_queue s →
                 task_get_priority s x ≤ task_get_priority s i) as Hleast.
    { intros i Hi. rewrite Hq in Hs, Hi. by eapply sorted_head_least. }
    case_decide as Hsame.
    { intros Hc Hin. rewrite <- Hsame in Hc. simplify_eq. by apply Hleast. }
    destruct (current_task s) as [c0|] eqn:Hcur.
    + case_decide as Hrun.
      * destruct (Z.geb_spec (task_get_priority s x)
                    (task_get_priority s c0)) as [Hge|Hlt].
        -- intros Hc Hin. simplify_eq. specialize (Hleast h Hin). lia.
        -- intros Hc Hin.
           destruct (context_switch_outcome s (Some c0) x (not_eq_sym Hsame))
             as [Hnew Hrq].
           rewrite Hnew in Hc. simplify_eq.
           destruct (Hrq h Hin) as [Hin'|[E _]]; [by apply Hleast|].
           simplify_eq. lia.
      * intros Hc Hin.
        destruct (context_switch_outcome s (Some c0) x (not_eq_sym Hsame)) as [Hnew Hrq].
        rewrite Hnew in Hc. simplify_eq.
        destruct (Hrq h Hin) as [Hin'|[E Hst]]; [by apply Hleast|].
        by simplify_eq.
    + intros Hc Hin.
      destruct (context_switch_outcome s None x (not_eq_sym Hsame)) as [Hnew Hrq].
      rewrite Hnew in Hc. simplify_eq.
      destruct (Hrq h Hin) as [Hin'|[E _]]; [by apply Hleast|done].
Qed.

(** X12. While the current task is Running and the ready queue is not empty,
    [scheduler_needs_preemption] predicts [scheduler_schedule]: when it
    answers false the call changes nothing, and when it answers true the
    head of the queue is another task and becomes the current task. *)
Theorem needs_preemption_agrees s c tc n :
  current_task s = Some c → tasks s !! c = Some tc →
  state tc = TASK_RUNNING → ready_queue_peek s = Some n →
  (scheduler_needs_preemption s = false → scheduler_schedule s = s)
  ∧ (scheduler_needs_preemption s = true →
     n ≠ c ∧ current_task (scheduler_schedule s) = Some n).
Proof.
  intros Hc Htc Hst Hn.
  assert (task_state s c = Some TASK_RUNNING) as Hrun.
  { unfold task_state. rewrite Htc. simpl. by rewrite Hst. }
  unfold scheduler_needs_preemption, scheduler_schedule,
    scheduler_get_next_task.
  rewrite Hc, Hn. split.
  - intros Hno. case_decide; [done|]. rewrite decide_True by done.
    destruct (Z.geb_spec (task_get_priority s n) (task_get_priority s c));
      [done|].
    apply Z.ltb_ge in Hno. lia.
  - intros Hyes. apply Z.ltb_lt in Hyes.
    assert (n ≠ c) as Hne by (intros ->; lia).
    split; [done|].
    rewrite decide_False by congruence. rewrite decide_True by done.
    destruct (Z.geb_spec (task_get_priority s n) (task_get_priority s c));
      [lia|].
    apply context_switch_outcome. congruence.
Qed.

(** ** Round trips through the ready queue *)

Lemma remove_first_middle (h : nat) l1 l2 :
  h ∉ l1 → remove_first h (l1 ++ h :: l2) = l1 ++ l2.
Proof.
  induction l1 as [|x l1 IH]; simpl; intros Hout.
  - by rewrite decide_True.
  - apply not_elem_of_cons in Hout as [Hne Hout].
    rewrite decide_False by congruence. by rewrite IH.
Qed.

Lemma remove_first_priority_insert s h q :
  h ∉ q → remove_first h (priority_insert s h q) = q.
Proof.
  intros Hout. unfold priority_insert, array_insert_at.
  rewrite remove_first_middle.
  - apply take_drop.
  - intros Hin. apply Hout. by eapply subseteq_take.
Qed.

Lemma set_ready_queue_same s : set_ready_queue (ready_queue s) s = s.
Proof. by destruct s. Qed.

(** X13. For a task that is not in the ready queue: while the queue has
    room, inserting the task and removing it again gives back the scheduler
    unchanged, and the task is in the queue in between; a full queue drops
    the insertion without any change; removing the absent task changes
    nothing; and popping a non-empty queue removes and returns exactly the
    head that [ready_queue_peek] shows. *)
Theorem ready_queue_insert_remove s h t :
  tasks s !! h = Some t → h ∉ ready_queue s →
  ((length (ready_queue s) < MAX_READY_TASKS)%nat →
   ready_queue_remove (ready_queue_insert s h) h = s
   ∧ h ∈ ready_queue (ready_queue_insert s h))
  ∧ ((MAX_READY_TASKS ≤ length (ready_queue s))%nat →
     ready_queue_insert s h = s)
  ∧ ready_queue_remove s h = s
  ∧ (∀ x, ready_queue_peek s = Some x →
          ready_queue_pop s = (ready_queue_remove s x, Some x)).
Proof.
  intros Ht Hout. unfold ready_queue_insert. rewrite Ht. split_and!.
  - intros Hroom.
    destruct (Nat.leb_spec MAX_READY_TASKS (length (ready_queue s))); [lia|].
    split.
    + unfold ready_queue_remove. simpl.
      rewrite remove_first_priority_insert by done.
      by destruct s.
    + simpl. apply elem_of_priority_insert. by left.
  - intros Hfull.
    by destruct (Nat.leb_spec MAX_READY_TASKS (length (ready_queue s)));
      [|lia].
  - unfold ready_queue_remove. rewrite remove_first_absent by done.
    apply set_ready_queue_same.
  - intros x Hx. unfold ready_queue_peek in Hx.
    unfold ready_queue_pop, ready_queue_remove.
    destruct (ready_queue s) as [|y q]; simplify_eq/=.
    by rewrite decide_True.
Qed.

(** ** Suspending and resuming a ready task *)

Lemma remove_first_perm (h : nat) q : h ∈ q → h :: remove_first h q ≡ₚ q.
Proof.
  induction q as [|x q IH]; simpl; intros Hin.
  { by apply elem_of_nil in Hin. }
  case_decide as E; [by subst|].
  apply elem_of_cons in Hin as [?|Hin]; [congruence|].
  rewrite Permutation_swap. by rewrite IH.
Qed.

Lemma set_ready_since_round t v :
  state t = TASK_READY →
  set_ready_since v (set_state TASK_READY (set_state TASK_SUSPENDED t))
  = set_ready_since v t.
Proof. intros Hst. destruct t; simpl in *. by subst. Qed.

(** X14. Suspending a Ready task and resuming it keeps every field of the
    scheduler except the task's [ready_since] and its place in the ready
    queue: the queue holds the same tasks, and the task is re-inserted
    behind every task whose priority number is at most its own (it loses its
    turn among equals). *)
Theorem task_suspend_resume s h t :
  ready_queue_wf s → (length (ready_queue s) ≤ MAX_READY_TASKS)%nat →
  tasks s !! h = Some t → state t = TASK_READY → h ∈ ready_queue s →
  task_resume (task_suspend s h) h
  = set_ready_queue (priority_insert s h (remove_first h (ready_queue s)))
      (upd_task h (set_ready_since (system_ticks s)) s)
  ∧ ready_queue (task_resume (task_suspend s h) h) ≡ₚ ready_queue s
  ∧ ∃ l1 l2,
      remove_first h (ready_queue s) = l1 ++ l2
      ∧ ready_queue (task_resume (task_suspend s h) h) = l1 ++ h :: l2
      ∧ Forall (λ x, task_get_priority s x ≤ priority t) l1
      ∧ Forall (λ x, priority t < task_get_priority s x) l2.
Proof.
  intros Hwf Hlen Ht Hst Hin.
  assert (task_suspend s h
          = ready_queue_remove (upd_task h (set_state TASK_SUSPENDED) s) h)
    as Hsus.
  { unfold task_suspend, task_state. rewrite Ht. simpl. rewrite Hst.
    unfold task_set_state. rewrite Ht, Hst. simpl. done. }
  set (s1 := ready_queue_remove (upd_task h (set_state TASK_SUSPENDED) s) h).
  assert (tasks s1 !! h = Some (set_state TASK_SUSPENDED t)) as Ht1.
  { unfold s1. simpl. by rewrite list_lookup_alter_eq, Ht. }
  assert (length (remove_first h (ready_queue s)) < MAX_READY_TASKS)%nat
    as Hroom.
  { pose proof (Permutation_length (remove_first_perm h _ Hin)) as E.
    simpl in E. lia. }
  assert (task_resume (task_suspend s h) h
          = set_ready_queue
              (priority_insert s h (remove_first h (ready_queue s)))
              (upd_task h (set_ready_since (system_ticks s)) s)) as Heq.
  { rewrite Hsus. fold s1. unfold task_resume, task_state. rewrite Ht1. simpl.
    unfold task_set_state. rewrite Ht1. simpl.
    unfold ready_queue_insert. simpl.
    rewrite !list_lookup_alter_eq, Ht. simpl.
    destruct (Nat.leb_spec MAX_READY_TASKS
                (length (remove_first h (ready_queue s)))); [lia|].
    unfold upd_task. simpl.
    rewrite !alter_alter.
    assert (alter
              (set_ready_since (system_ticks s) ∘ set_state TASK_READY
               ∘ set_state TASK_SUSPENDED) h (tasks s)
            = alter (set_ready_since (system_ticks s)) h (tasks s)) as ->.
    { apply list_eq. intros i. destruct (decide (h = i)) as [->|Hne].
      - rewrite !list_lookup_alter_eq, Ht. simpl.
        by rewrite set_ready_since_round.
      - by rewrite !list_lookup_alter_ne. }
    match goal with
    | |- set_ready_queue (priority_insert ?x h _) _ = _ =>
        rewrite (priority_insert_ext s x)
    end.
    - unfold s1. by destruct s.
    - intros i. unfold task_get_priority. simpl.
      destruct (decide (h = i)) as [->|Hne].
      + by rewrite list_lookup_alter_eq, Ht.
      + by rewrite list_lookup_alter_ne. }
  rewrite Heq. simpl. split_and!.
  - done.
  - rewrite priority_insert_perm. by apply remove_first_perm.
  - destruct (priority_insert_split s h (remove_first h (ready_queue s)))
      as (l1 & l2 & Hq & Hins & H1 & H2).
    { apply remove_first_sorted, Hwf. }
    rewrite (task_get_priority_lookup s h t Ht) in H1, H2.
    by exists l1, l2.
Qed.

(** ** The ready queue misses no ready task *)

Lemma NoDup_bounded_length (l : list nat) n :
  NoDup l → (∀ x, x ∈ l → (x < n)%nat) → (length l ≤ n)%nat.
Proof.
  intros Hnd Hlt. rewrite <- (length_seq n 0).
  apply submseteq_length, NoDup_submseteq; [done|].
  intros x Hx. apply elem_of_seq. specialize (Hlt x Hx). lia.
Qed.

Lemma ready_queue_room s h :
  ready_queue_wf s → (length (tasks s) ≤ MAX_READY_TASKS)%nat →
  is_Some (tasks s !! h) → h ∉ ready_queue s →
  (length (ready_queue s) < MAX_READY_TASKS)%nat.
Proof.
  intros (_ & Hnd & Hready & _) Hlen Hh Hout.
  assert (length (h :: ready_queue s) ≤ length (tasks s))%nat as Hle.
  { apply NoDup_bounded_length.
    - by apply NoDup_cons.
    - intros x [->|Hx]%elem_of_cons.
      + by apply lookup_lt_is_Some.
      + specialize (Hready x Hx). unfold task_state in Hready.
        destruct (tasks s !! x) eqn:E; [|done]. by eapply lookup_lt_Some. }
  simpl in Hle. lia.
Qed.

Lemma ready_queue_insert_room s h :
  ready_queue_wf s → (length (tasks s) ≤ MAX_READY_TASKS)%nat →
  is_Some (tasks s !! h) → h ∉ ready_queue s →
  ready_queue (ready_queue_insert s h) = priority_insert s h (ready_queue s).
Proof.
  intros Hwf Hlen [t Ht] Hout. unfold ready_queue_insert. rewrite Ht.
  pose proof (ready_queue_room s h Hwf Hlen ltac:(by eauto) Hout).
  by destruct (Nat.leb_spec MAX_READY_TASKS (length (ready_queue s))); [lia|].
Qed.

Lemma unit_stable : dispatch_stable (proj_eq (λ _ : TaskControlBlock, ())).
Proof. by split. Qed.

Lemma ready_queue_exact_ext s s' :
  ready_queue s' = ready_queue s → all_tasks s' = all_tasks s →
  idle_task s' = idle_task s →
  same_proj (λ t, (priority t, state t)) s s' →
  ready_queue_exact s → ready_queue_exact s'.
Proof.
  intros Hq Hall Hidle Hsame (Hwf & Hc & Hlen). split_and!.
  - by apply (ready_queue_wf_ext s).
  - intros h t' Ht' Hst Hi. rewrite Hq.
    destruct (tasks_rel_lookup_r _ _ _ _ _ Hsame Ht') as (t & Ht & E).
    unfold proj_eq in E. injection E as _ E.
    apply (Hc h t); [done|congruence|by rewrite <- Hidle].
  - by rewrite (tasks_rel_length _ _ _ Hsame).
Qed.

Lemma ready_queue_exact_fields s h f :
  (∀ t, priority (f t) = priority t) → (∀ t, state (f t) = state t) →
  ready_queue_exact s → ready_queue_exact (upd_task h f s).
Proof.
  intros Hp Hs. apply ready_queue_exact_ext; [done..|].
  apply same_proj_upd_task. intros t. by rewrite Hp, Hs.
Qed.

Lemma ready_queue_exact_elsewhere s s' :
  ready_queue s' = ready_queue s → all_tasks s' = all_tasks s →
  idle_task s' = idle_task s → tasks s' = tasks s →
  ready_queue_exact s → ready_queue_exact s'.
Proof.
  intros Hq Hall Hidle Ht. apply ready_queue_exact_ext; [done..|].
  by apply tasks_rel_tasks; [apply _|].
Qed.

Lemma ready_queue_exact_task_set_state s h st :
  ready_queue_exact s → ready_queue_exact (task_set_state s h st).
Proof.
  intros (Hwf & Hc & Hlen). split_and!.
  { by apply ready_queue_wf_task_set_state. }
  2: { rewrite (tasks_rel_length (proj_eq (λ _, ())) s); [done|].
       apply tasks_rel_set_state_any; [apply _|apply unit_stable]. }
  intros i ti Hi Hsti Hidle.
  rewrite (proj_task_set_state idle_task) in Hidle by done.
  destruct (tasks s !! h) as [t|] eqn:Ht.
  2: { unfold task_set_state in *. rewrite Ht in *. by eapply Hc. }
  destruct (decide (state t = st)) as [Hsame|Hne].
  { unfold task_set_state in *. rewrite Ht in *.
    rewrite decide_True in * by done. by eapply Hc. }
  pose proof (task_set_state_state s h st t Ht) as Hnew.
  destruct (decide (i = h)) as [->|Hih].
  - (* the task itself: it is Ready now, so it was not before *)
    unfold task_state in Hnew. rewrite Hi in Hnew. simpl in Hnew.
    assert (st = TASK_READY) as -> by congruence.
    unfold task_set_state. rewrite Ht, decide_False by done.
    rewrite (bool_decide_eq_false_2 (state t = TASK_READY)) by done.
    rewrite (bool_decide_eq_true_2 (TASK_READY = TASK_READY)) by done.
    assert (h ∉ ready_queue s) as Hout
      by (by eapply ready_queue_absent_not_ready).
    simpl. rewrite ready_queue_insert_room.
    + apply elem_of_priority_insert. by left.
    + apply ready_queue_wf_outside; [done|].
      by apply ready_queue_wf_outside.
    + simpl. by rewrite !length_alter.
    + simpl. rewrite !list_lookup_alter_eq, Ht. by eauto.
    + done.
  - (* another task: its record is untouched *)
    rewrite tasks_other_task_set_state in Hi by done.
    specialize (Hc i ti Hi Hsti Hidle).
    unfold task_set_state. rewrite Ht, decide_False by done.
    destruct (decide (state t = TASK_READY)) as [Hold|Hold].
    + rewrite (bool_decide_eq_true_2 (state t = TASK_READY)) by done.
      rewrite (bool_decide_eq_false_2 (st = TASK_READY)) by congruence.
      simpl. by apply remove_first_other.
    + rewrite (bool_decide_eq_false_2 (state t = TASK_READY)) by done. simpl.
      destruct (decide (st = TASK_READY)) as [->|Hnot].
      * rewrite (bool_decide_eq_true_2 (TASK_READY = TASK_READY)) by done.
        simpl. unfold ready_queue_insert. repeat case_match; try done.
        simpl. apply elem_of_priority_insert. by right.
      * by rewrite (bool_decide_eq_false_2 (st = TASK_READY)) by done.
Qed.

Lemma ready_queue_exact_enqueue s h t f :
  ready_queue_exact s → tasks s !! h = Some t → state t ≠ TASK_READY →
  state (f t) = TASK_READY →
  ready_queue_exact (ready_queue_insert (upd_task h f s) h).
Proof.
  intros (Hwf & Hc & Hlen) Ht Hold Hnew.
  assert (h ∉ ready_queue s) as Hout
    by (by eapply ready_queue_absent_not_ready).
  assert (ready_queue_wf (upd_task h f s)) as Hwf1
    by (by apply ready_queue_wf_outside).
  assert (tasks (upd_task h f s) !! h = Some (f t)) as Ht1.
  { by rewrite tasks_upd_task, list_lookup_alter_eq, Ht. }
  split_and!.
  - apply ready_queue_wf_insert; [done| |done].
    unfold task_state. rewrite Ht1. simpl. by rewrite Hnew.
  - intros i ti Hi Hsti Hidle. rewrite ready_queue_insert_room.
    + apply elem_of_priority_insert.
      destruct (decide (i = h)) as [->|Hne]; [by left|right].
      rewrite tasks_ready_queue_insert, tasks_upd_task,
        list_lookup_alter_ne in Hi by done.
      apply (Hc i ti Hi Hsti).
      by rewrite (proj_ready_queue_insert idle_task) in Hidle.
    + done.
    + simpl. by rewrite length_alter.
    + by eauto.
    + done.
  - rewrite tasks_ready_queue_insert. simpl. by rewrite length_alter.
Qed.

Lemma ready_queue_exact_dequeue s h f :
  ready_queue_exact s → (∀ t, state (f t) ≠ TASK_READY) →
  ready_queue_exact (upd_task h f (ready_queue_remove s h)).
Proof.
  intros (Hwf & Hc & Hlen) Hf. split_and!.
  - apply ready_queue_wf_outside; [|by apply ready_queue_wf_remove].
    simpl. apply remove_first_gone, Hwf.
  - intros i ti Hi Hsti Hidle. simpl in *.
    destruct (decide (i = h)) as [->|Hne].
    + rewrite list_lookup_alter_eq in Hi.
      destruct (tasks s !! h) as [t|]; simplify_eq/=. by destruct (Hf t).
    + rewrite list_lookup_alter_ne in Hi by done.
      apply remove_first_other; [done|]. by eapply Hc.
  - simpl. by rewrite length_alter.
Qed.

Lemma ready_queue_exact_context_switch s from to :
  ready_queue_exact s → ready_queue_exact (scheduler_context_switch s from to).
Proof.
  intros Hex. unfold scheduler_context_switch.
  destruct to as [n|]; [|done]. case_decide as Hne; [done|].
  match goal with
  | |- context [ready_queue_remove ?x n] => set (s1 := x)
  end.
  assert (ready_queue_exact s1) as Hex1.
  { unfold s1. destruct from as [c|]; [|done].
    case_decide as Hrun; [|done].
    unfold task_state in Hrun.
    destruct (tasks s !! c) as [tc|] eqn:Hc; [|done].
    simpl in Hrun. injection Hrun as Hrun.
    apply ready_queue_exact_fields; [done..|].
    eapply ready_queue_exact_enqueue; [done..|congruence|done]. }
  apply (ready_queue_exact_elsewhere
           (upd_task n (set_state TASK_RUNNING) (ready_queue_remove s1 n)));
    [done..|].
  by apply ready_queue_exact_dequeue.
Qed.

Lemma ready_queue_exact_schedule s :
  ready_queue_exact s → ready_queue_exact (scheduler_schedule s).
Proof.
  intros Hex. unfold scheduler_schedule.
  repeat (case_match || case_decide);
    first [done | by apply ready_queue_exact_context_switch].
Qed.

Lemma ready_queue_exact_resort s h t f :
  ready_queue_exact s → tasks s !! h = Some t →
  (∀ t0, state (f t0) = state t0) →
  ready_queue_exact
    (if decide (state t = TASK_READY) then
       ready_queue_insert (ready_queue_remove (upd_task h f s) h) h
     else upd_task h f s).
Proof.
  intros (Hwf & Hc & Hlen) Ht Hf. split_and!.
  { by apply ready_queue_wf_resort. }
  2: { case_decide; rewrite ?tasks_ready_queue_insert; simpl;
         by rewrite length_alter. }
  intros i ti Hi Hsti Hidle.
  assert (idle_task s ≠ Some i) as Hidle'.
  { revert Hidle. case_decide;
      by rewrite ?(proj_ready_queue_insert idle_task). }
  assert (∃ ti0, tasks s !! i = Some ti0 ∧ state ti0 = TASK_READY)
    as (ti0 & Hi0 & Hsti0).
  { revert Hi. case_decide; rewrite ?tasks_ready_queue_insert; simpl;
      (destruct (decide (i = h)) as [->|Hne];
       [rewrite list_lookup_alter_eq, Ht; intros [= <-]; exists t;
        by rewrite <- Hf
       |rewrite list_lookup_alter_ne by done; by eauto]). }
  specialize (Hc i ti0 Hi0 Hsti0 Hidle').
  case_decide as Hst; [|done].
  rewrite ready_queue_remove_upd_task, ready_queue_insert_room.
  - apply elem_of_priority_insert.
    destruct (decide (i = h)) as [->|Hne]; [by left|right].
    simpl. by apply remove_first_other.
  - apply ready_queue_wf_outside; [|by apply ready_queue_wf_remove].
    simpl. apply remove_first_gone, Hwf.
  - simpl. by rewrite length_alter.
  - simpl. rewrite list_lookup_alter_eq, Ht. by eauto.
  - simpl. apply remove_first_gone, Hwf.
Qed.

Lemma ready_queue_exact_priority_inherit_rec fuel s h p s' :
  ready_queue_exact s → priority_inherit_rec fuel s h p = Some s' →
  ready_queue_exact s'.
Proof.
  revert s h. induction fuel as [|fuel IH]; intros s h Hex; simpl.
  - repeat case_match; intros; by simplify_eq.
  - destruct (tasks s !! h) as [t|] eqn:Ht; [|intros; by simplify_eq].
    destruct (p >=? priority t); [intros; by simplify_eq|].
    assert (ready_queue_exact (boost_step s h t p)) as Hstep.
    { unfold boost_step. apply ready_queue_exact_resort; [done..|].
      apply state_boost_task. }
    destruct (chain_next _ t); intros Hrec; [|by simplify_eq].
    by eapply IH.
Qed.

Lemma ready_queue_exact_priority_inherit s h p :
  ready_queue_exact s → ready_queue_exact (priority_inherit s h p).
Proof.
  intros Hex. unfold priority_inherit.
  destruct (priority_inherit_rec _ s h p) eqn:E; simpl; [|done].
  by eapply ready_queue_exact_priority_inherit_rec.
Qed.

Lemma ready_queue_exact_priority_restore s h :
  ready_queue_exact s → ready_queue_exact (priority_restore s h).
Proof.
  intros Hex. unfold priority_restore.
  destruct (tasks s !! h) as [t|] eqn:Ht; [|done].
  destruct (priority_inherited t); simpl; [|done].
  apply ready_queue_exact_resort; [done..|]. apply state_restore_task.
Qed.

Lemma ready_queue_exact_task_set_priority s h p :
  ready_queue_exact s → ready_queue_exact (task_set_priority s h p).
Proof.
  intros Hex. unfold task_set_priority.
  destruct (tasks s !! h) as [t|] eqn:Ht; [|done].
  by apply ready_queue_exact_resort.
Qed.

Lemma ready_queue_exact_add_held_mutex s h m :
  ready_queue_exact s → ready_queue_exact (task_add_held_mutex s h m).
Proof.
  intros Hex. unfold task_add_held_mutex. case_match; [|done].
  by apply ready_queue_exact_fields.
Qed.

Lemma ready_queue_exact_remove_held_mutex s h m :
  ready_queue_exact s → ready_queue_exact (task_remove_held_mutex s h m).
Proof.
  intros Hex. unfold task_remove_held_mutex. case_match; [|done].
  by apply ready_queue_exact_fields.
Qed.

Lemma ready_queue_exact_mutex_lock s m h :
  ready_queue_exact s → ready_queue_exact (mutex_lock s m h).
Proof.
  intros Hex. unfold mutex_lock.
  destruct (mutexes s !! m) as [mx|]; [|done].
  destruct (tasks s !! h) as [t|]; [|done].
  destruct (locked mx); simpl.
  - apply ready_queue_exact_schedule.
    match goal with
    | |- ready_queue_exact (wait_queue_insert ?x m h) =>
        apply (ready_queue_exact_elsewhere x)
    end; try (unfold wait_queue_insert; by repeat case_match).
    apply ready_queue_exact_task_set_state, ready_queue_exact_fields;
      [done..|].
    repeat case_match; try done. by apply ready_queue_exact_priority_inherit.
  - apply ready_queue_exact_add_held_mutex.
    by apply (ready_queue_exact_elsewhere s).
Qed.

Lemma ready_queue_exact_mutex_handoff s m :
  ready_queue_exact s → ready_queue_exact (mutex_handoff s m).
Proof.
  intros Hex. unfold mutex_handoff, wait_queue_pop.
  destruct (mutexes s !! m) as [mx|];
    [|by apply (ready_queue_exact_elsewhere s)].
  destruct (wait_queue mx) as [|w rest];
    [by apply (ready_queue_exact_elsewhere s)|].
  apply ready_queue_exact_task_set_state, ready_queue_exact_add_held_mutex.
  match goal with
  | |- ready_queue_exact (upd_mutex m _ ?x) =>
      apply (ready_queue_exact_elsewhere x); [done..|]
  end.
  apply ready_queue_exact_fields; [done..|].
  by apply (ready_queue_exact_elsewhere s).
Qed.

Lemma ready_queue_exact_mutex_unlock s m h :
  ready_queue_exact s → ready_queue_exact (mutex_unlock s m h).
Proof.
  intros Hex. unfold mutex_unlock.
  destruct (mutexes s !! m) as [mx|]; [|done].
  destruct (tasks s !! h) as [t|]; [|done].
  case_decide; [|done].
  apply ready_queue_exact_schedule, ready_queue_exact_mutex_handoff.
  case_match.
  - by apply ready_queue_exact_priority_restore,
      ready_queue_exact_remove_held_mutex.
  - by apply ready_queue_exact_remove_held_mutex.
Qed.

Lemma ready_queue_exact_fold_left {A} (f : System → A → System) l s :
  (∀ s x, ready_queue_exact s → ready_queue_exact (f s x)) →
  ready_queue_exact s → ready_queue_exact (fold_left f l s).
Proof.
  intros Hf. revert s. induction l as [|x l IH]; intros s Hex; simpl; auto.
Qed.

Lemma ready_queue_exact_task_suspend s h :
  ready_queue_exact s → ready_queue_exact (task_suspend s h).
Proof.
  intros Hex. unfold task_suspend.
  repeat case_match; first [done | by apply ready_queue_exact_task_set_state].
Qed.

Lemma ready_queue_exact_task_resume s h :
  ready_queue_exact s → ready_queue_exact (task_resume s h).
Proof.
  intros Hex. unfold task_resume.
  repeat case_match; first [done | by apply ready_queue_exact_task_set_state].
Qed.

Lemma ready_queue_exact_semaphore_wait s k h :
  ready_queue_exact s → ready_queue_exact (semaphore_wait s k h).
Proof.
  intros Hex. unfold semaphore_wait.
  destruct (semaphores s !! k) as [sm|]; [|done].
  destruct (tasks s !! h); [|done].
  case_match; [by apply (ready_queue_exact_elsewhere s)|].
  apply ready_queue_exact_schedule.
  match goal with
  | |- ready_queue_exact (sem_wait_queue_insert ?x k h) =>
      apply (ready_queue_exact_elsewhere x)
  end; try (unfold sem_wait_queue_insert; by repeat case_match).
  by apply ready_queue_exact_task_set_state.
Qed.

Lemma ready_queue_exact_semaphore_signal s k :
  ready_queue_exact s → ready_queue_exact (semaphore_signal s k).
Proof.
  intros Hex. unfold semaphore_signal.
  destruct (semaphores s !! k) as [sm|]; [|done].
  destruct (sem_wait_queue sm).
  - case_match; [|done]. by apply (ready_queue_exact_elsewhere s).
  - apply ready_queue_exact_schedule, ready_queue_exact_task_set_state.
    by apply (ready_queue_exact_elsewhere s).
Qed.

Lemma ready_queue_exact_release_if_due s h :
  ready_queue_exact s → ready_queue_exact (release_if_due s h).
Proof.
  intros Hex. unfold release_if_due.
  destruct (tasks s !! h) as [t|]; [|done].
  case_decide; [done|]. destruct (period t =? 0); [done|].
  destruct (_ && _); [|done].
  by apply ready_queue_exact_task_set_state, ready_queue_exact_fields.
Qed.

Lemma ready_queue_exact_check_deadline s h :
  ready_queue_exact s → ready_queue_exact (check_deadline s h).
Proof.
  intros Hex. unfold check_deadline.
  destruct (tasks s !! h) as [t|]; [|done].
  destruct (deadline_missed s h t); [|done].
  by apply ready_queue_exact_fields.
Qed.

Lemma ready_queue_exact_tick_handler s :
  ready_queue_exact s → ready_queue_exact (tick_handler s).
Proof.
  intros Hex. unfold tick_handler, check_deadlines, check_periodic_releases.
  apply ready_queue_exact_fold_left; [apply ready_queue_exact_check_deadline|].
  apply ready_queue_exact_fold_left; [apply ready_queue_exact_release_if_due|].
  assert (ready_queue_exact (set_system_ticks (wrap64 (system_ticks s + 1)) s))
    as Hex1 by (by apply (ready_queue_exact_elsewhere s)).
  simpl. destruct (current_task s); [|done]. case_decide; [|done].
  apply ready_queue_exact_fields; [| |done]; intros t; by repeat case_match.
Qed.

Lemma ready_queue_exact_advance_time s n :
  ready_queue_exact s → ready_queue_exact (advance_time s n).
Proof.
  intros Hex. unfold advance_time. induction n as [|n IH]; simpl; [done|].
  by apply ready_queue_exact_schedule, ready_queue_exact_tick_handler.
Qed.

Lemma ready_queue_exact_simulate_work_loop n s h :
  ready_queue_exact s → ready_queue_exact (simulate_work_loop n s h).
Proof.
  revert s. induction n as [|n IH]; intros s Hex; simpl; [done|].
  case_decide; [|done]. case_match.
  - by apply ready_queue_exact_schedule, ready_queue_exact_tick_handler.
  - by apply IH, ready_queue_exact_tick_handler.
Qed.

Lemma ready_queue_exact_simulate_work s h n :
  ready_queue_exact s → ready_queue_exact (simulate_work s h n).
Proof.
  intros Hex. unfold simulate_work. case_match; [|done].
  by apply ready_queue_exact_simulate_work_loop, ready_queue_exact_fields.
Qed.

Lemma ready_queue_exact_init pol pi :
  ready_queue_exact (scheduler_init pol pi).
Proof.
  split_and!.
  - apply ready_queue_wf_init.
  - intros h t Ht Hst Hidle.
    destruct (registry_wf_init pol pi) as (_ & _ & _ & Hi & _).
    assert (length (tasks (scheduler_init pol pi)) = 1%nat) as Hl
      by (by vm_compute).
    apply lookup_lt_Some in Ht. rewrite Hl in Ht.
    destruct h; [|lia]. congruence.
  - assert (length (tasks (scheduler_init pol pi)) = 1%nat) as ->
      by (by vm_compute).
    unfold MAX_READY_TASKS. lia.
Qed.

Lemma ready_queue_exact_task_create s prio period0 deadline wcet :
  registry_wf s → ready_queue_exact s →
  ready_queue_exact (fst (task_create s prio period0 deadline wcet)).
Proof.
  intros Hreg (Hwf & Hc & Hlen).
  pose proof (registry_wf_task_create s prio period0 deadline wcet Hreg)
    as (_ & Hcap' & _).
  pose proof (ready_queue_wf_task_create s prio period0 deadline wcet Hwf)
    as Hwf'.
  split_and!; [done| |done].
  revert Hcap' Hwf'. unfold task_create. case_match; simpl; [done|].
  rewrite tasks_ready_queue_insert. simpl. rewrite length_app. simpl.
  intros Hcap' Hwf' i ti Hi Hsti Hidle.
  rewrite (proj_ready_queue_insert idle_task) in Hidle by done.
  rewrite tasks_ready_queue_insert in Hi.
  simpl in Hidle, Hi.
  assert (length (ready_queue s) ≤ length (tasks s))%nat as Hle.
  { destruct Hwf as (_ & Hnd & Hready & _).
    apply NoDup_bounded_length; [done|]. intros x Hx.
    specialize (Hready x Hx). unfold task_state in Hready.
    destruct (tasks s !! x) eqn:E; [|done]. by eapply lookup_lt_Some. }
  unfold ready_queue_insert. simpl.
  rewrite lookup_app_r, Nat.sub_diag by done. simpl.
  destruct (Nat.leb_spec MAX_READY_TASKS (length (ready_queue s)));
    [unfold MAX_READY_TASKS, MAX_ALL_TASKS in *; lia|].
  simpl. apply elem_of_priority_insert.
  apply lookup_app_Some in Hi as [Hi|[Hge Hi]].
  - right. by eapply Hc.
  - left. apply list_lookup_singleton_Some in Hi as [Hz _]. lia.
Qed.

Lemma ready_queue_exact_rms_recalculate qsort s :
  registry_wf s → ready_queue_exact s →
  ready_queue_exact (rms_recalculate_priorities qsort s).
Proof.
  intros (Hall & Hcap & _) (Hwf & Hc & Hlen).
  assert (same_proj state s (rms_recalculate_priorities qsort s)) as Hsame.
  { by apply tasks_rel_rms_recalculate; [apply _|]. }
  split_and!.
  - by apply ready_queue_wf_rms_recalculate.
  - intros i ti Hi Hsti Hidle.
    rewrite (proj_rms_recalculate idle_task) in Hidle by done.
    unfold rms_recalculate_priorities in *.
    match goal with
    | |- context [assign_ranks s 0 ?l] => set (ranked := l) in *
    end.
    set (s1 := assign_ranks s 0 ranked) in *.
    destruct (assign_ranks_scalars s 0 ranked) as (Hidle1 & Hall1 & _).
    fold s1 in Hidle1, Hall1.
    destruct (tasks_rebuild_ready_queue s1) as [Ht1 Hq1].
    { rewrite Hall1, Hall, length_seq. done. }
    rewrite Hq1. apply list_elem_of_filter. rewrite Ht1 in Hi. split.
    + unfold is_ready_task. rewrite Hi, Hidle1.
      rewrite bool_decide_eq_true_2 by done.
      by rewrite bool_decide_eq_false_2.
    + rewrite Hall1, Hall. apply elem_of_seq.
      apply lookup_lt_Some in Hi.
      rewrite (tasks_rel_length (proj_eq state) s s1) in Hi; [lia|].
      apply assign_ranks_same_proj; by intros.
  - by rewrite (tasks_rel_length _ _ _ Hsame).
Qed.

Lemma ready_queue_exact_step qsort s o :
  registry_wf s → ready_queue_exact s → ready_queue_exact (run_op qsort o s).
Proof.
  intros Hreg Hex. destruct o; simpl.
  - by apply ready_queue_exact_task_create.
  - by apply ready_queue_exact_task_set_state.
  - by apply ready_queue_exact_task_suspend.
  - by apply ready_queue_exact_task_resume.
  - by apply ready_queue_exact_task_set_state.
  - by apply ready_queue_exact_task_set_priority.
  - by apply (ready_queue_exact_elsewhere s).
  - by apply ready_queue_exact_mutex_lock.
  - by apply ready_queue_exact_mutex_unlock.
  - by apply ready_queue_exact_priority_inherit.
  - by apply ready_queue_exact_priority_restore.
  - by apply (ready_queue_exact_elsewhere s).
  - by apply ready_queue_exact_semaphore_wait.
  - by apply ready_queue_exact_semaphore_signal.
  - by apply ready_queue_exact_schedule.
  - by apply ready_queue_exact_tick_handler.
  - by apply ready_queue_exact_advance_time.
  - by apply ready_queue_exact_simulate_work.
  - by apply ready_queue_exact_rms_recalculate.
Qed.

Lemma ready_queue_exact_reachable qsort allowed s :
  reachable qsort allowed s → ready_queue_exact s.
Proof.
  induction 1 as [pol pi|s o Hreach IH Hd].
  - apply ready_queue_exact_init.
  - apply ready_queue_exact_step; [|done].
    by eapply registry_wf_reachable.
Qed.

(** X15. In every state that any sequence of operations reaches from
    [scheduler_init], a task other than the idle task is in the ready queue
    exactly when its state is Ready; the queue is never longer than the
    arena, the arena never exceeds [MAX_READY_TASKS], and so an insertion of
    an absent task is never dropped for lack of room. *)
Theorem ready_queue_complete qsort s :
  reachable qsort any_op s →
  (∀ h t, tasks s !! h = Some t → idle_task s ≠ Some h →
          (h ∈ ready_queue s ↔ state t = TASK_READY))
  ∧ (length (ready_queue s) ≤ length (tasks s))%nat
  ∧ (length (tasks s) ≤ MAX_READY_TASKS)%nat
  ∧ (∀ h, is_Some (tasks s !! h) → h ∉ ready_queue s →
          ready_queue (ready_queue_insert s h)
          = priority_insert s h (ready_queue s)).
Proof.
  intros Hreach.
  destruct (ready_queue_exact_reachable _ _ _ Hreach) as (Hwf & Hc & Hlen).
  split_and!; try done.
  - intros h t Ht Hidle. split.
    + intros Hin. destruct Hwf as (_ & _ & Hready & _).
      specialize (Hready h Hin). unfold task_state in Hready.
      rewrite Ht in Hready. simpl in Hready. congruence.
    + intros Hst. by eapply Hc.
  - destruct Hwf as (_ & Hnd & Hready & _).
    apply NoDup_bounded_length; [done|]. intros x Hx.
    specialize (Hready x Hx). unfold task_state in Hready.
    destruct (tasks s !! x) eqn:E; [|done]. by eapply lookup_lt_Some.
  - intros h Hh Hout. by apply ready_queue_insert_room.
Qed.

(** ** Dispatch, case by case *)

Lemma remove_first_head (n : nat) q : remove_first n (n :: q) = q.
Proof. simpl. by rewrite decide_True. Qed.

Lemma next_task_removed s n :
  scheduler_get_next_task s = Some n →
  remove_first n (ready_queue s) = tail (ready_queue s).
Proof.
  unfold scheduler_get_next_task, ready_queue_peek.
  destruct (ready_queue s) as [|x q]; simpl; [done|].
  intros [= ->]. by rewrite decide_True.
Qed.

Lemma next_task_gone s n :
  scheduler_get_next_task s = Some n → NoDup (ready_queue s) →
  n ∉ tail (ready_queue s).
Proof.
  unfold scheduler_get_next_task, ready_queue_peek.
  destruct (ready_queue s) as [|x q]; simpl.
  - intros _ _. apply not_elem_of_nil.
  - intros [= ->] Hnd. by apply NoDup_cons in Hnd as [? _].
Qed.

Lemma context_switch_preempt s c n tc tn :
  tasks s !! c = Some tc → tasks s !! n = Some tn → c ≠ n →
  state tc = TASK_RUNNING →
  let s' := scheduler_context_switch s (Some c) (Some n) in
  tasks s' !! c =
    Some (set_preemptions (wrap32 (preemptions tc + 1))
            (set_ready_since (system_ticks s) (set_state TASK_READY tc)))
  ∧ tasks s' !! n = Some (set_state TASK_RUNNING tn)
  ∧ (∀ i, i ≠ c → i ≠ n → tasks s' !! i = tasks s !! i)
  ∧ current_task s' = Some n
  ∧ context_switches s' = wrap64 (context_switches s + 1)
  ∧ ready_queue s' =
      remove_first n
        (if (MAX_READY_TASKS <=? length (ready_queue s))%nat
         then ready_queue s
         else priority_insert s c (ready_queue s)).
Proof.
  intros Hc Hn Hne Hrun. unfold scheduler_context_switch.
  rewrite decide_False by congruence.
  rewrite decide_True by (unfold task_state; rewrite Hc; simpl; congruence).
  unfold ready_queue_insert. rewrite tasks_upd_task, list_lookup_alter_eq, Hc.
  simpl.
  destruct (Nat.leb_spec MAX_READY_TASKS (length (ready_queue s))); simpl.
  - split_and!; try done.
    + rewrite list_lookup_alter_ne, !list_lookup_alter_eq, Hc by done. done.
    + rewrite list_lookup_alter_eq, !list_lookup_alter_ne, Hn by done. done.
    + intros i H1 H2. by rewrite !list_lookup_alter_ne by done.
  - split_and!; try done.
    + rewrite list_lookup_alter_ne, !list_lookup_alter_eq, Hc by done. done.
    + rewrite list_lookup_alter_eq, !list_lookup_alter_ne, Hn by done. done.
    + intros i H1 H2. by rewrite !list_lookup_alter_ne by done.
    + f_equal. apply priority_insert_ext. intros i.
      apply task_get_priority_same_proj, same_proj_upd_task. done.
Qed.

Lemma running_task_leaves_room qsort s c tc :
  reachable qsort any_op s →
  tasks s !! c = Some tc → state tc = TASK_RUNNING →
  (length (ready_queue s) < MAX_READY_TASKS)%nat ∧ NoDup (ready_queue s).
Proof.
  intros Hreach Hc Hrun.
  destruct (ready_queue_exact_reachable _ _ _ Hreach) as (Hwf & _ & Hlen).
  split; [|by destruct Hwf as (_ & ? & _)].
  apply (ready_queue_room s c); [done..|by eexists|].
  intros Hin. destruct Hwf as (_ & _ & Hready & _).
  specialize (Hready c Hin). unfold task_state in Hready.
  rewrite Hc in Hready. simpl in Hready. congruence.
Qed.

(** C7.  [scheduler_schedule] takes as next task the head of the ready
    queue, or the idle task when the queue is empty.  It changes nothing
    when that is the current task, and nothing when the current task is
    running and the next one's priority number is not strictly smaller
    (a tie keeps the incumbent).  Otherwise it switches.  A running
    current task becomes ready and has its preemption counter
    incremented; it is put back into the ready queue if the queue holds
    fewer than [MAX_READY_TASKS] entries, and is dropped from it
    otherwise.  The next task leaves the ready queue (the queue loses
    its head), becomes running and current, and the switch counter is
    incremented; no other task record changes.  In every state that the
    operations reach from [scheduler_init], a running current task
    finds room in the ready queue, and the queue lists no task twice. *)
Theorem scheduler_schedule_dispatch s :
  let next := scheduler_get_next_task s in
  let curr := current_task s in
  let s' := scheduler_schedule s in
  next = match ready_queue s with n :: _ => Some n | [] => idle_task s end
  ∧ (next = curr → s' = s)
  ∧ (∀ c tc n,
       curr = Some c → tasks s !! c = Some tc → next = Some n →
       state tc = TASK_RUNNING → priority tc ≤ task_get_priority s n →
       s' = s)
  ∧ (∀ c tc n tn,
       curr = Some c → tasks s !! c = Some tc →
       next = Some n → tasks s !! n = Some tn → n ≠ c →
       state tc = TASK_RUNNING → priority tn < priority tc →
       tasks s' !! c =
         Some (set_preemptions (wrap32 (preemptions tc + 1))
                 (set_ready_since (system_ticks s)
                    (set_state TASK_READY tc)))
       ∧ tasks s' !! n = Some (set_state TASK_RUNNING tn)
       ∧ (∀ i, i ≠ c → i ≠ n → tasks s' !! i = tasks s !! i)
       ∧ current_task s' = Some n
       ∧ context_switches s' = wrap64 (context_switches s + 1)
       ∧ ((length (ready_queue s) < MAX_READY_TASKS)%nat →
          ready_queue s' = priority_insert s c (tail (ready_queue s))
          ∧ ready_queue s' ≡ₚ c :: tail (ready_queue s)
          ∧ c ∈ ready_queue s')
       ∧ ((MAX_READY_TASKS ≤ length (ready_queue s))%nat →
          ready_queue s' = tail (ready_queue s))
       ∧ (NoDup (ready_queue s) → n ∉ ready_queue s'))
  ∧ (∀ n tn,
       next = Some n → tasks s !! n = Some tn → next ≠ curr →
       (∀ c, curr = Some c → task_state s c ≠ Some TASK_RUNNING) →
       tasks s' !! n = Some (set_state TASK_RUNNING tn)
       ∧ (∀ i, i ≠ n → tasks s' !! i = tasks s !! i)
       ∧ ready_queue s' = tail (ready_queue s)
       ∧ (NoDup (ready_queue s) → n ∉ ready_queue s')
       ∧ current_task s' = Some n
       ∧ context_switches s' = wrap64 (context_switches s + 1))
  ∧ (∀ qsort c tc,
       reachable qsort any_op s →
       curr = Some c → tasks s !! c = Some tc → state tc = TASK_RUNNING →
       (length (ready_queue s) < MAX_READY_TASKS)%nat
       ∧ NoDup (ready_queue s)).
Proof.
  intros next curr s'. split_and!.
  - unfold next, scheduler_get_next_task, ready_queue_peek.
    by destruct (ready_queue s).
  - intros E. unfold s', scheduler_schedule. fold next curr.
    by rewrite decide_True.
  - intros c tc n Hcurr Hc Hnext Hrun Hle.
    unfold s', scheduler_schedule. fold next curr.
    case_decide; [done|]. rewrite Hcurr, Hnext.
    rewrite decide_True by (unfold task_state; rewrite Hc; simpl; congruence).
    rewrite (task_get_priority_lookup s c tc Hc).
    destruct (Z.geb_spec (task_get_priority s n) (priority tc)); [done|lia].
  - intros c tc n tn Hcurr Hc Hnext Hn Hne Hrun Hlt.
    assert (s' = scheduler_context_switch s (Some c) (Some n)) as ->.
    { unfold s', scheduler_schedule. fold next curr. rewrite Hcurr, Hnext.
      rewrite decide_False by congruence.
      rewrite decide_True
        by (unfold task_state; rewrite Hc; simpl; congruence).
      rewrite (task_get_priority_lookup s c tc Hc).
      rewrite (task_get_priority_lookup s n tn Hn).
      destruct (Z.geb_spec (priority tn) (priority tc)); [lia|done]. }
    destruct (context_switch_preempt s c n tc tn)
      as (H1 & H2 & H3 & H4 & H5 & H6); [done..|].
    assert (remove_first n (priority_insert s c (ready_queue s)) =
            priority_insert s c (tail (ready_queue s))) as Hq.
    { unfold next, scheduler_get_next_task, ready_queue_peek in Hnext.
      destruct (ready_queue s) as [|x q]; simpl in Hnext.
      - simpl. rewrite priority_insert_nil. simpl.
        by destruct (decide (c = n)).
      - simplify_eq. rewrite priority_insert_cons.
        rewrite (task_get_priority_lookup s c tc Hc).
        rewrite (task_get_priority_lookup s n tn Hn).
        destruct (Z.ltb_spec (priority tc) (priority tn)); [lia|].
        simpl. by destruct (decide (n = n)). }
    assert ((length (ready_queue s) < MAX_READY_TASKS)%nat →
            ready_queue (scheduler_context_switch s (Some c) (Some n))
            = priority_insert s c (tail (ready_queue s))) as Hroom.
    { intros Hr. rewrite H6.
      destruct (Nat.leb_spec MAX_READY_TASKS (length (ready_queue s)));
        [lia|done]. }
    assert ((MAX_READY_TASKS ≤ length (ready_queue s))%nat →
            ready_queue (scheduler_context_switch s (Some c) (Some n))
            = tail (ready_queue s)) as Hfull.
    { intros Hr. rewrite H6.
      destruct (Nat.leb_spec MAX_READY_TASKS (length (ready_queue s)));
        [|lia].
      by apply next_task_removed. }
    split_and!; try done.
    + intros Hr. rewrite (Hroom Hr). split_and!; [done| |].
      * apply priority_insert_perm.
      * apply elem_of_priority_insert. by left.
    + intros Hnd.
      pose proof (next_task_gone s n Hnext Hnd) as Hgone.
      destruct (Nat.ltb_spec (length (ready_queue s)) MAX_READY_TASKS)
        as [Hr|Hr].
      * rewrite (Hroom Hr). rewrite elem_of_priority_insert.
        intros [->|Hin]; done.
      * by rewrite (Hfull Hr).
  - intros n tn Hnext Hn Hne Hnot.
    assert (s' = scheduler_context_switch s curr (Some n)) as ->.
    { unfold s', scheduler_schedule. fold next curr.
      rewrite decide_False by done. rewrite Hnext.
      destruct curr as [c|] eqn:Hcurr; [|done].
      rewrite decide_False; [done|]. by apply Hnot. }
    destruct (context_switch_idle s curr n tn)
      as (H1 & H2 & H3 & H4 & H5); [done|congruence|done|].
    rewrite (next_task_removed s n Hnext) in H3.
    split_and!; try done.
    intros Hnd. rewrite H3. by apply next_task_gone.
  - intros qsort c tc Hreach _ Hc Hrun.
    by eapply running_task_leaves_room.
Qed.

Lemma scheduler_schedule_dispatch_witness :
  ready_queue preempt_state = [2%nat]
  ∧ current_task preempt_state = Some 1%nat
  ∧ task_state (scheduler_schedule preempt_state) 1 = Some TASK_READY
  ∧ task_state (scheduler_schedule preempt_state) 2 = Some TASK_RUNNING
  ∧ current_task (scheduler_schedule preempt_state) = Some 2%nat
  ∧ ready_queue (scheduler_schedule preempt_state) ≡ₚ [1%nat]
  ∧ (2%nat ∉ ready_queue (scheduler_schedule preempt_state)).
Proof.
  split; [reflexivity|]. split; [reflexivity|].
  destruct (scheduler_schedule_dispatch preempt_state)
    as (_ & _ & _ & H & _).
  destruct (H 1%nat _ 2%nat _ eq_refl eq_refl eq_refl eq_refl)
    as (H1 & H2 & _ & H4 & _ & H6 & _ & H8).
  - discriminate.
  - reflexivity.
  - vm_compute. reflexivity.
  - split_and!.
    + unfold task_state. by rewrite H1.
    + unfold task_state. by rewrite H2.
    + exact H4.
    + apply H6. vm_compute. lia.
    + apply H8. change (ready_queue preempt_state) with [2%nat].
      apply NoDup_singleton.
Defined.

(** With the ready array at its capacity, the displaced task is not put
    back: [ready_queue_insert] reports "queue full" and returns, so the
    task that was running ends Ready and outside the ready queue. *)
Theorem scheduler_schedule_drops_displaced :
  length (ready_queue crowded_state) = MAX_READY_TASKS
  ∧ current_task crowded_state = Some 1%nat
  ∧ task_state crowded_state 1 = Some TASK_RUNNING
  ∧ scheduler_get_next_task crowded_state = Some 2%nat
  ∧ task_get_priority crowded_state 2 < task_get_priority crowded_state 1
  ∧ current_task (scheduler_schedule crowded_state) = Some 2%nat
  ∧ task_state (scheduler_schedule crowded_state) 1 = Some TASK_READY
  ∧ (1%nat ∉ ready_queue (scheduler_schedule crowded_state)).
Proof.
  split_and!; try (vm_compute; reflexivity).
  apply (bool_decide_unpack (1%nat ∉ _)). vm_compute. exact I.
Qed.

(** ** The release pass *)

Lemma release_due_spec s h t :
  release_due s h t = true ↔
  idle_task s ≠ Some h ∧ period t ≠ 0 ∧ state t = TASK_SUSPENDED
  ∧ system_ticks s = next_release t.
Proof.
  unfold release_due.
  rewrite !andb_true_iff, !negb_true_iff, !bool_decide_eq_false,
    bool_decide_eq_true, Z.eqb_neq, Z.geb_le, !Z.eqb_eq.
  split; [tauto|]. intros (H1 & H2 & H3 & H4). split_and!; try done.
  - lia.
  - by rewrite H4, Z.sub_diag, Zmod_0_l.
Qed.

Lemma release_if_due_self s h t :
  tasks s !! h = Some t →
  (release_due s h t = false → release_if_due s h = s)
  ∧ (release_due s h t = true →
     tasks (release_if_due s h) !! h = Some (release_task (system_ticks s) t)).
Proof.
  intros Ht. unfold release_if_due, release_due. rewrite Ht. split.
  - intros Hno. case_decide as Hidle.
    { done. }
    rewrite bool_decide_eq_false_2 in Hno by done. simpl in Hno.
    destruct (period t =? 0); [done|]. simpl in Hno. by rewrite Hno.
  - intros Hyes. case_decide as Hidle.
    { by rewrite bool_decide_eq_true_2 in Hyes. }
    rewrite bool_decide_eq_false_2 in Hyes by done. simpl in Hyes.
    destruct (period t =? 0); [done|]. simpl in Hyes. rewrite Hyes.
    apply andb_true_iff in Hyes as [Hyes _].
    apply andb_true_iff in Hyes as [Hyes _].
    apply andb_true_iff in Hyes as [Hst _].
    apply bool_decide_eq_true in Hst.
    unfold task_set_state. simpl. rewrite list_lookup_alter_eq, Ht. simpl.
    rewrite Hst. simpl. rewrite tasks_ready_queue_insert. simpl.
    rewrite !list_lookup_alter_eq, Ht. done.
Qed.

Lemma release_if_due_other s h i :
  i ≠ h → tasks (release_if_due s h) !! i = tasks s !! i.
Proof.
  intros Hne. unfold release_if_due. repeat (case_match || case_decide);
    try done.
  rewrite tasks_other_task_set_state by done.
  by rewrite tasks_upd_task, list_lookup_alter_ne.
Qed.

Lemma release_due_ext s s' h t :
  system_ticks s' = system_ticks s → idle_task s' = idle_task s →
  release_due s' h t = release_due s h t.
Proof. intros H1 H2. unfold release_due. by rewrite H1, H2. Qed.

Lemma release_due_released s s' h t :
  release_due s' h (release_task (system_ticks s) t) = false.
Proof.
  unfold release_due, release_task. simpl. by rewrite andb_false_r.
Qed.

Lemma fold_release_kept l s h t :
  tasks s !! h = Some t → release_due s h t = false →
  tasks (fold_left release_if_due l s) !! h = Some t.
Proof.
  revert s. induction l as [|x l IH]; intros s Ht Hno; simpl; [done|].
  apply IH.
  - destruct (decide (h = x)) as [->|Hne].
    + by rewrite (proj1 (release_if_due_self s x t Ht)).
    + by rewrite release_if_due_other.
  - rewrite (release_due_ext s); [done|..].
    + by apply (proj_release_if_due system_ticks).
    + by apply (proj_release_if_due idle_task).
Qed.

Lemma fold_release_released l s h t :
  tasks s !! h = Some t → release_due s h t = true → h ∈ l →
  tasks (fold_left release_if_due l s) !! h
  = Some (release_task (system_ticks s) t).
Proof.
  revert s. induction l as [|x l IH]; intros s Ht Hyes Hin; simpl.
  { by apply elem_of_nil in Hin. }
  destruct (decide (h = x)) as [->|Hne].
  - apply fold_release_kept.
    + by apply release_if_due_self.
    + apply release_due_released.
  - assert (system_ticks (release_if_due s x) = system_ticks s) as <-
      by (by apply (proj_release_if_due system_ticks)).
    apply IH.
    + by rewrite release_if_due_other.
    + rewrite (release_due_ext s); [done|..].
      * by apply (proj_release_if_due system_ticks).
      * by apply (proj_release_if_due idle_task).
    + apply elem_of_cons in Hin as [?|?]; done.
Qed.

(** X16. The release pass releases exactly the registered periodic tasks,
    other than the idle task, that are Suspended when the clock equals their
    [next_release]: such a task becomes Ready with its next release one
    period ahead, a fresh absolute deadline, an execution time of zero and
    one more invocation, while its remaining work and its priority fields
    stay; a task that is the idle task, aperiodic, not Suspended, or not due
    keeps its record. *)
Theorem check_periodic_releases_release s h t :
  tasks s !! h = Some t →
  (h ∈ all_tasks s → idle_task s ≠ Some h → period t ≠ 0 →
   state t = TASK_SUSPENDED → system_ticks s = next_release t →
   ∃ t',
     tasks (check_periodic_releases s) !! h = Some t'
     ∧ state t' = TASK_READY
     ∧ next_release t' = wrap64 (system_ticks s + period t)
     ∧ absolute_deadline t' = wrap64 (system_ticks s + relative_deadline t)
     ∧ exec_time t' = 0
     ∧ invocations t' = wrap32 (invocations t + 1)
     ∧ ready_since t' = system_ticks s
     ∧ remaining_work t' = remaining_work t
     ∧ static_fields t' = static_fields t)
  ∧ (idle_task s = Some h ∨ period t = 0 ∨ state t ≠ TASK_SUSPENDED
     ∨ system_ticks s ≠ next_release t →
     tasks (check_periodic_releases s) !! h = Some t).
Proof.
  intros Ht. unfold check_periodic_releases. split.
  - intros Hin Hidle Hper Hst Hnow.
    exists (release_task (system_ticks s) t). split; [|done].
    apply fold_release_released; [done| |done].
    by apply release_due_spec.
  - intros Hnot. apply fold_release_kept; [done|].
    destruct (release_due s h t) eqn:E; [|done].
    apply release_due_spec in E. tauto.
Qed.

(** ** The tick *)

Lemma tick_handler_unfold s :
  tick_handler s =
  check_deadlines
    (check_periodic_releases
       (match current_task s with
        | Some c =>
            if decide (task_state s c = Some TASK_RUNNING) then
              upd_task c account_tick
                (set_system_ticks (wrap64 (system_ticks s + 1)) s)
            else set_system_ticks (wrap64 (system_ticks s + 1)) s
        | None => set_system_ticks (wrap64 (system_ticks s + 1)) s
        end)).
Proof. reflexivity. Qed.

Lemma same_proj_check_deadline {A} (proj : TaskControlBlock → A) s h :
  (∀ t, proj (record_miss t) = proj t) →
  same_proj proj s (check_deadline s h).
Proof.
  intros Hp. unfold check_deadline. repeat case_match;
    first [apply same_proj_refl | by apply same_proj_upd_task].
Qed.

Lemma same_proj_check_deadlines {A} (proj : TaskControlBlock → A) s :
  (∀ t, proj (record_miss t) = proj t) →
  same_proj proj s (check_deadlines s).
Proof.
  intros Hp. unfold check_deadlines.
  apply tasks_rel_fold_left; [apply _|].
  intros. by apply same_proj_check_deadline.
Qed.

Lemma same_proj_release_if_due {A} (proj : TaskControlBlock → A) s h :
  (∀ st t, proj (set_state st t) = proj t) →
  (∀ v t, proj (set_ready_since v t) = proj t) →
  (∀ v t, proj (set_invocations v t) = proj t) →
  (∀ v t, proj (set_exec_time v t) = proj t) →
  (∀ v t, proj (set_absolute_deadline v t) = proj t) →
  (∀ v t, proj (set_next_release v t) = proj t) →
  same_proj proj s (release_if_due s h).
Proof.
  intros H1 H2 H3 H4 H5 H6. unfold release_if_due.
  destruct (tasks s !! h) as [t|]; [|apply same_proj_refl].
  case_decide; [apply same_proj_refl|].
  destruct (period t =? 0); [apply same_proj_refl|].
  destruct (_ && _); [|apply same_proj_refl].
  eapply same_proj_trans;
    [|apply tasks_rel_task_set_state;
      [apply _|intros; apply H1|intros; apply H2]].
  apply same_proj_upd_task. intros t0. by rewrite H3, H4, H5, H6.
Qed.

Lemma release_pass_keeps_running s c t :
  tasks s !! c = Some t → state t ≠ TASK_SUSPENDED →
  tasks (check_periodic_releases s) !! c = Some t.
Proof.
  intros Ht Hst. apply fold_release_kept; [done|].
  destruct (release_due s c t) eqn:E; [|done].
  apply release_due_spec in E. tauto.
Qed.

Lemma state_account_tick t : state (account_tick t) = state t.
Proof. unfold account_tick. by repeat case_match. Qed.

Lemma static_fields_account_tick t :
  static_fields (account_tick t) = static_fields t.
Proof. unfold account_tick. by repeat case_match. Qed.

Lemma account_tick_counters t :
  exec_time (account_tick t) = wrap64 (exec_time t + 1)
  ∧ total_exec_time (account_tick t) = wrap64 (total_exec_time t + 1)
  ∧ remaining_work (account_tick t) =
      (if remaining_work t >? 0 then remaining_work t - 1
       else remaining_work t)
  ∧ wcet_observed (account_tick t) =
      Z.max (wcet_observed t) (wrap64 (exec_time t + 1)).
Proof.
  unfold account_tick. simpl.
  destruct (remaining_work t >? 0); simpl;
    destruct (Z.gtb_spec (wrap64 (exec_time t + 1)) (wcet_observed t));
    simpl; split_and!; try done; lia.
Qed.

Lemma tick_handler_running s c t :
  current_task s = Some c → tasks s !! c = Some t → state t = TASK_RUNNING →
  ∃ t',
    tasks (tick_handler s) !! c = Some t'
    ∧ outside_deadline t' = outside_deadline (account_tick t).
Proof.
  intros Hc Ht Hst. rewrite tick_handler_unfold, Hc. unfold task_state.
  rewrite Ht. simpl. rewrite decide_True by (by rewrite Hst).
  set (s2 := upd_task c account_tick _).
  assert (tasks (check_periodic_releases s2) !! c = Some (account_tick t))
    as H2.
  { apply release_pass_keeps_running.
    - unfold s2. simpl. by rewrite list_lookup_alter_eq, Ht.
    - rewrite state_account_tick. congruence. }
  apply (same_proj_lookup_Some outside_deadline
           (check_periodic_releases s2)); [|done].
  by apply same_proj_check_deadlines.
Qed.

Lemma tick_handler_not_running s :
  (∀ c, current_task s = Some c → task_state s c ≠ Some TASK_RUNNING) →
  same_proj work_counters s (tick_handler s).
Proof.
  intros Hidle. rewrite tick_handler_unfold.
  match goal with
  | |- context [check_periodic_releases ?x] => set (s2 := x)
  end.
  assert (tasks s2 = tasks s) as H1.
  { unfold s2. destruct (current_task s) as [c|]; [|done].
    rewrite decide_False; [done|]. by apply Hidle. }
  eapply same_proj_trans; [by apply tasks_rel_tasks; [apply _|]|].
  eapply same_proj_trans; [|by apply same_proj_check_deadlines].
  unfold check_periodic_releases.
  apply tasks_rel_fold_left; [apply _|]. intros.
  by apply same_proj_release_if_due.
Qed.

(** X17. One tick charges the current task if it is Running: its execution
    time and total execution time grow by one, its remaining work shrinks by
    one unless it is already zero, its observed worst case becomes the
    larger of the old value and the new execution time, and it stays
    Running.  If the current task is not Running the tick charges nobody: no
    task's total execution time, remaining work or observed worst case
    changes. *)
Theorem tick_handler_accounting s c t :
  current_task s = Some c → tasks s !! c = Some t →
  (state t = TASK_RUNNING →
   ∃ t',
     tasks (tick_handler s) !! c = Some t'
     ∧ state t' = TASK_RUNNING
     ∧ exec_time t' = wrap64 (exec_time t + 1)
     ∧ total_exec_time t' = wrap64 (total_exec_time t + 1)
     ∧ remaining_work t' =
         (if remaining_work t >? 0 then remaining_work t - 1
          else remaining_work t)
     ∧ wcet_observed t' = Z.max (wcet_observed t) (wrap64 (exec_time t + 1))
     ∧ static_fields t' = static_fields t)
  ∧ (state t ≠ TASK_RUNNING →
     ∀ i ti, tasks s !! i = Some ti →
       ∃ ti', tasks (tick_handler s) !! i = Some ti'
              ∧ work_counters ti' = work_counters ti).
Proof.
  intros Hc Ht. split.
  - intros Hst.
    destruct (tick_handler_running s c t Hc Ht Hst) as (t' & Ht' & E).
    exists t'. split; [done|].
    destruct (account_tick_counters t) as (E1 & E2 & E3 & E4).
    unfold outside_deadline, work_counters in E.
    rewrite state_account_tick, static_fields_account_tick in E.
    injection E as F1 F2 F3 F4 F5 F6.
    split_and!; try congruence. unfold static_fields. congruence.
  - intros Hst i ti Hi.
    apply (same_proj_lookup_Some work_counters s); [|done].
    apply tick_handler_not_running. intros c0 Hc0.
    rewrite Hc in Hc0. injection Hc0 as <-.
    unfold task_state. rewrite Ht. simpl. congruence.
Qed.

(** ** Simulated work *)

Lemma release_pass_idle l s :
  (∀ i ti, tasks s !! i = Some ti → state ti ≠ TASK_SUSPENDED) →
  fold_left release_if_due l s = s.
Proof.
  intros Hno. induction l as [|x l IH]; simpl; [done|].
  assert (release_if_due s x = s) as ->; [|done].
  destruct (tasks s !! x) as [t|] eqn:Ht.
  - apply (release_if_due_self s x t Ht).
    destruct (release_due s x t) eqn:E; [|done].
    apply release_due_spec in E. destruct (Hno x t Ht). tauto.
  - unfold release_if_due. by rewrite Ht.
Qed.

Lemma tick_handler_quiet s :
  (∀ i ti, tasks s !! i = Some ti → state ti ≠ TASK_SUSPENDED) →
  ready_queue (tick_handler s) = ready_queue s
  ∧ same_proj state s (tick_handler s).
Proof.
  intros Hno. rewrite tick_handler_unfold.
  match goal with
  | |- context [check_periodic_releases ?x] => set (s2 := x)
  end.
  assert (ready_queue s2 = ready_queue s ∧ same_proj state s s2) as [Hq2 H2].
  { unfold s2. repeat (case_match || case_decide);
      (split; [done|]); try (by apply tasks_rel_tasks; [apply _|]).
    eapply same_proj_trans; [|apply same_proj_upd_task, state_account_tick].
    by apply tasks_rel_tasks; [apply _|]. }
  assert (check_periodic_releases s2 = s2) as ->.
  { apply release_pass_idle. intros i ti Hi.
    destruct (tasks_rel_lookup_r _ _ _ _ _ H2 Hi) as (ti0 & Hi0 & E).
    unfold proj_eq in E. rewrite E. by eapply Hno. }
  split.
  - unfold check_deadlines.
    rewrite (proj_fold_left ready_queue)
      by (intros; by apply proj_check_deadline).
    done.
  - eapply same_proj_trans; [exact H2|].
    by apply same_proj_check_deadlines.
Qed.

Lemma simulate_work_loop_quiet n s h t :
  current_task s = Some h → ready_queue s = [] →
  (∀ i ti, tasks s !! i = Some ti → state ti ≠ TASK_SUSPENDED) →
  tasks s !! h = Some t → state t = TASK_RUNNING →
  remaining_work t = Z.of_nat n →
  simulate_work_loop n s h = Nat.iter n tick_handler s
  ∧ current_task (simulate_work_loop n s h) = Some h
  ∧ ready_queue (simulate_work_loop n s h) = []
  ∧ ∃ t',
      tasks (simulate_work_loop n s h) !! h = Some t'
      ∧ state t' = TASK_RUNNING
      ∧ remaining_work t' = 0
      ∧ static_fields t' = static_fields t.
Proof.
  revert s t. induction n as [|n IH]; intros s t Hc Hq Hno Ht Hst Hrw.
  { simpl. split_and!; try done. by exists t. }
  simpl. rewrite decide_True by done.
  destruct (tick_handler_quiet s Hno) as [Hq1 Hst1].
  assert (current_task (tick_handler s) = Some h) as Hc1.
  { by rewrite (proj_tick_handler current_task). }
  assert (scheduler_needs_preemption (tick_handler s) = false) as ->.
  { unfold scheduler_needs_preemption, ready_queue_peek.
    by rewrite Hc1, Hq1, Hq. }
  destruct (tick_handler_running s h t Hc Ht Hst) as (t1 & Ht1 & E).
  destruct (account_tick_counters t) as (_ & _ & E3 & _).
  unfold outside_deadline, work_counters in E.
  rewrite state_account_tick, static_fields_account_tick in E.
  injection E as F1 _ _ F4 _ F6.
  destruct (IH (tick_handler s) t1) as (G1 & G2 & G3 & t' & G4 & G5 & G6 & G7);
    try done.
  - congruence.
  - intros i ti Hi.
    destruct (tasks_rel_lookup_r _ _ _ _ _ Hst1 Hi) as (ti0 & Hi0 & E).
    unfold proj_eq in E. rewrite E. by eapply Hno.
  - congruence.
  - rewrite F4, E3. destruct (Z.gtb_spec (remaining_work t) 0); lia.
  - split_and!; try done.
    + rewrite G1.
      change (tick_handler (Nat.iter n tick_handler s))
        with (Nat.iter (S n) tick_handler s).
      by rewrite Nat.iter_succ_r.
    + exists t'. split_and!; try done. unfold static_fields in *. congruence.
Qed.

(** X18. [simulate_work] for a task that is not the current task only
    records the work as remaining and lets no time pass; for a current
    Running task with nothing else to run (empty ready queue, no Suspended
    task) it is exactly [n] ticks, after which the task is still the current
    Running task and has no work left. *)
Theorem simulate_work_runs s h t n :
  tasks s !! h = Some t →
  (current_task s ≠ Some h →
   simulate_work s h n = upd_task h (set_remaining_work (Z.of_nat n)) s)
  ∧ (current_task s = Some h → state t = TASK_RUNNING →
     ready_queue s = [] →
     (∀ i ti, tasks s !! i = Some ti → state ti ≠ TASK_SUSPENDED) →
     simulate_work s h n
     = Nat.iter n tick_handler
         (upd_task h (set_remaining_work (Z.of_nat n)) s)
     ∧ current_task (simulate_work s h n) = Some h
     ∧ ∃ t',
         tasks (simulate_work s h n) !! h = Some t'
         ∧ state t' = TASK_RUNNING
         ∧ remaining_work t' = 0
         ∧ static_fields t' = static_fields t).
Proof.
  intros Ht. unfold simulate_work. rewrite Ht. split.
  - intros Hc. destruct n as [|n]; simpl; [done|].
    by rewrite decide_False.
  - intros Hc Hst Hq Hno.
    destruct (simulate_work_loop_quiet n
                (upd_task h (set_remaining_work (Z.of_nat n)) s) h
                (set_remaining_work (Z.of_nat n) t))
      as (G1 & G2 & G3 & t' & G4 & G5 & G6 & G7); try done.
    + intros i ti Hi. simpl in Hi.
      destruct (decide (h = i)) as [->|Hne].
      * rewrite list_lookup_alter_eq, Ht in Hi. simplify_eq/=. congruence.
      * rewrite list_lookup_alter_ne in Hi by done. by eapply Hno.
    + simpl. by rewrite list_lookup_alter_eq, Ht.
    + split_and!; try done. by exists t'.
Qed.

(** ** The period comparison *)

(** X19. The comparison that [rms_recalculate_priorities] hands to the sort
    is a consistent three-way order: its value is -1, 0 or 1, swapping the
    arguments negates it, it is transitive, it puts a periodic task before
    an aperiodic one and a shorter period before a longer one, and it is 0
    exactly for equal periods. *)
Theorem cmp_period_consistent s a b c ta tb tc :
  tasks s !! a = Some ta → tasks s !! b = Some tb → tasks s !! c = Some tc →
  (cmp_period s a b = -1 ∨ cmp_period s a b = 0 ∨ cmp_period s a b = 1)
  ∧ cmp_period s b a = - cmp_period s a b
  ∧ (cmp_period s a b ≤ 0 → cmp_period s b c ≤ 0 → cmp_period s a c ≤ 0)
  ∧ (cmp_period s a b < 0 ↔
     period ta ≠ 0 ∧ (period tb = 0 ∨ period ta < period tb))
  ∧ (cmp_period s a b = 0 ↔ period ta = period tb).
Proof.
  intros Ha Hb Hc. unfold cmp_period. rewrite Ha, Hb, Hc.
  destruct (Z.eqb_spec (period ta) 0), (Z.eqb_spec (period tb) 0),
    (Z.eqb_spec (period tc) 0); simpl;
    destruct (Z.ltb_spec (period ta) (period tb)),
      (Z.ltb_spec (period tb) (period ta)),
      (Z.ltb_spec (period tb) (period tc)),
      (Z.ltb_spec (period ta) (period tc)),
      (Z.gtb_spec (period ta) (period tb)),
      (Z.gtb_spec (period tb) (period ta)),
      (Z.gtb_spec (period tb) (period tc)),
      (Z.gtb_spec (period ta) (period tc));
    split_and!; try lia; try tauto.
Qed.

(** ** Semaphores *)

Lemma semaphores_semaphore_wait s k h sm t :
  semaphores s !! k = Some sm → tasks s !! h = Some t →
  semaphores (semaphore_wait s k h) =
  if sem_count sm >? 0 then
    alter (set_sem_count (sem_count sm - 1)) k (semaphores s)
  else if (SEM_WAIT_QUEUE_CAP <=? length (sem_wait_queue sm))%nat then
    semaphores s
  else
    alter
      (set_sem_wait_queue
         (priority_insert (task_set_state s h TASK_BLOCKED) h
            (sem_wait_queue sm))) k (semaphores s).
Proof.
  intros Hk Ht. unfold semaphore_wait. rewrite Hk, Ht.
  destruct (sem_count sm >? 0); [done|].
  rewrite (proj_schedule semaphores) by done.
  unfold sem_wait_queue_insert.
  rewrite (proj_task_set_state semaphores) by done. rewrite Hk.
  case_match; [by rewrite (proj_task_set_state semaphores)|].
  simpl. by rewrite (proj_task_set_state semaphores).
Qed.

Lemma semaphores_semaphore_signal s k sm :
  semaphores s !! k = Some sm →
  semaphores (semaphore_signal s k) =
  match sem_wait_queue sm with
  | w :: rest => alter (set_sem_wait_queue rest) k (semaphores s)
  | [] =>
      if sem_count sm <? sem_max_count sm then
        alter (set_sem_count (sem_count sm + 1)) k (semaphores s)
      else semaphores s
  end.
Proof.
  intros Hk. unfold semaphore_signal. rewrite Hk.
  destruct (sem_wait_queue sm).
  - by case_match.
  - rewrite (proj_schedule semaphores) by done.
    by rewrite (proj_task_set_state semaphores).
Qed.

Lemma Forall_alter_at {A} (P : A → Prop) (f : A → A) (l : list A) i x :
  l !! i = Some x → P (f x) → Forall P l → Forall P (alter f i l).
Proof.
  intros Hi Hf Hall. rewrite Forall_lookup in *. intros j y Hj.
  destruct (decide (i = j)) as [->|Hne].
  - rewrite list_lookup_alter_eq, Hi in Hj. by simplify_eq/=.
  - rewrite list_lookup_alter_ne in Hj by done. by eapply Hall.
Qed.

Lemma semaphore_wf_wait s k h :
  Forall semaphore_wf (semaphores s) →
  Forall semaphore_wf (semaphores (semaphore_wait s k h)).
Proof.
  intros Hall.
  destruct (semaphores s !! k) as [sm|] eqn:Hk;
    [|unfold semaphore_wait; by rewrite Hk].
  destruct (tasks s !! h) as [t|] eqn:Ht;
    [|unfold semaphore_wait; by rewrite Hk, Ht].
  rewrite (semaphores_semaphore_wait s k h sm t) by done.
  pose proof (proj1 (Forall_lookup _ _) Hall k sm Hk) as (H1 & H2 & H3).
  destruct (Z.gtb_spec (sem_count sm) 0).
  - eapply Forall_alter_at; [done| |done].
    unfold semaphore_wf. simpl. split_and!; try lia; try done.
    intros Hq. specialize (H2 Hq). lia.
  - destruct (Nat.leb_spec SEM_WAIT_QUEUE_CAP (length (sem_wait_queue sm)));
      [done|].
    eapply Forall_alter_at; [done| |done].
    unfold semaphore_wf. simpl. split_and!; try lia.
    rewrite (Permutation_length (priority_insert_perm _ _ _)). simpl. lia.
Qed.

Lemma semaphore_wf_signal s k :
  Forall semaphore_wf (semaphores s) →
  Forall semaphore_wf (semaphores (semaphore_signal s k)).
Proof.
  intros Hall.
  destruct (semaphores s !! k) as [sm|] eqn:Hk;
    [|unfold semaphore_signal; by rewrite Hk].
  rewrite (semaphores_semaphore_signal s k sm) by done.
  pose proof (proj1 (Forall_lookup _ _) Hall k sm Hk) as (H1 & H2 & H3).
  destruct (sem_wait_queue sm) as [|w rest] eqn:Hq.
  - destruct (Z.ltb_spec (sem_count sm) (sem_max_count sm)); [|done].
    eapply Forall_alter_at; [done| |done].
    unfold semaphore_wf. simpl. rewrite Hq. simpl.
    split_and!; try lia; try done.
  - eapply Forall_alter_at; [done| |done].
    unfold semaphore_wf. simpl. simpl in H3. split_and!; try lia.
    intros _. by apply H2.
Qed.

Lemma semaphore_wf_step qsort s o :
  semaphore_discipline s o → Forall semaphore_wf (semaphores s) →
  Forall semaphore_wf (semaphores (run_op qsort o s)).
Proof.
  intros Hd Hall. destruct o; cbn [run_op semaphore_discipline] in *.
  - rewrite (proj_task_create_plain semaphores) by done. done.
  - rewrite (proj_task_set_state semaphores) by done. done.
  - rewrite (proj_task_suspend semaphores) by done. done.
  - rewrite (proj_task_resume semaphores) by done. done.
  - unfold task_terminate.
    rewrite (proj_task_set_state semaphores) by done. done.
  - rewrite (proj_task_set_priority semaphores) by done. done.
  - done.
  - rewrite (proj_mutex_lock semaphores) by done. done.
  - rewrite (proj_mutex_unlock semaphores) by done. done.
  - rewrite (proj_priority_inherit semaphores) by done. done.
  - rewrite (proj_priority_restore semaphores) by done. done.
  - apply Forall_app. split; [done|]. constructor; [|done].
    unfold semaphore_wf. simpl. split_and!; try lia. done.
  - by apply semaphore_wf_wait.
  - by apply semaphore_wf_signal.
  - rewrite (proj_schedule semaphores) by done. done.
  - rewrite (proj_tick_handler semaphores) by done. done.
  - rewrite (proj_advance_time semaphores) by done. done.
  - rewrite (proj_simulate_work semaphores) by done. done.
  - rewrite (proj_rms_recalculate semaphores) by done. done.
Qed.

(** X20. If every semaphore is created with an initial count between zero
    and its maximum, then in every reachable state each semaphore's count
    lies between zero and its maximum, tasks wait on it only while its count
    is zero, and its wait queue holds at most [SEM_WAIT_QUEUE_CAP] tasks. *)
Theorem semaphore_bounds qsort s k sm :
  reachable qsort semaphore_discipline s → semaphores s !! k = Some sm →
  0 ≤ sem_count sm ≤ sem_max_count sm
  ∧ (sem_wait_queue sm ≠ [] → sem_count sm = 0)
  ∧ (length (sem_wait_queue sm) ≤ SEM_WAIT_QUEUE_CAP)%nat.
Proof.
  intros Hreach Hk.
  assert (Forall semaphore_wf (semaphores s)) as Hall.
  { clear Hk. induction Hreach as [pol pi|s o Hreach IH Hd].
    - assert (semaphores (scheduler_init pol pi) = []) as ->
        by (by vm_compute).
      constructor.
    - by apply semaphore_wf_step. }
  exact (proj1 (Forall_lookup _ _) Hall k sm Hk).
Qed.

(** ** Signalling a semaphore *)

Lemma context_switch_ready_task s from n w tw :
  tasks s !! w = Some tw → state tw = TASK_READY →
  ∃ tw',
    tasks (scheduler_context_switch s from (Some n)) !! w = Some tw'
    ∧ (state tw' = TASK_READY ∨ state tw' = TASK_RUNNING).
Proof.
  intros Hw Hst. unfold scheduler_context_switch.
  case_decide; [by eauto|].
  match goal with
  | |- context [ready_queue_remove ?x n] => set (s1 := x)
  end.
  assert (tasks s1 !! w = Some tw) as Hw1.
  { unfold s1. destruct from as [c|]; [|done]. case_decide as Hrun; [|done].
    assert (c ≠ w) as Hc.
    { intros ->. unfold task_state in Hrun. rewrite Hw in Hrun.
      simpl in Hrun. congruence. }
    rewrite tasks_upd_task, list_lookup_alter_ne by done.
    by rewrite tasks_ready_queue_insert, tasks_upd_task,
      list_lookup_alter_ne. }
  simpl. destruct (decide (n = w)) as [->|Hne].
  - rewrite list_lookup_alter_eq, Hw1. simpl. by eauto.
  - rewrite list_lookup_alter_ne by done. by eauto.
Qed.

Lemma schedule_ready_task s w tw :
  tasks s !! w = Some tw → state tw = TASK_READY →
  ∃ tw',
    tasks (scheduler_schedule s) !! w = Some tw'
    ∧ (state tw' = TASK_READY ∨ state tw' = TASK_RUNNING).
Proof.
  intros Hw Hst. unfold scheduler_schedule.
  destruct (scheduler_get_next_task s) as [n|].
  - repeat (case_match || case_decide);
      first [by eauto | by eapply context_switch_ready_task].
  - repeat (case_match || case_decide); by eauto.
Qed.

(** X21. A signal on a semaphore with waiters takes the first waiter off the
    wait queue, leaves the count as it is, and makes that task Ready or
    Running without touching its priority fields; a signal without waiters
    adds one token unless the count has reached the maximum, in which case
    it changes nothing. *)
Theorem semaphore_signal_wakes s k sm :
  semaphores s !! k = Some sm →
  (∀ w rest tw,
     sem_wait_queue sm = w :: rest → tasks s !! w = Some tw →
     semaphores (semaphore_signal s k) !! k = Some (set_sem_wait_queue rest sm)
     ∧ ∃ tw',
         tasks (semaphore_signal s k) !! w = Some tw'
         ∧ (state tw' = TASK_READY ∨ state tw' = TASK_RUNNING)
         ∧ static_fields tw' = static_fields tw)
  ∧ (sem_wait_queue sm = [] →
     semaphore_signal s k =
     if sem_count sm <? sem_max_count sm then
       upd_semaphore k (set_sem_count (sem_count sm + 1)) s
     else s).
Proof.
  intros Hk. split.
  - intros w rest tw Hq Hw. split.
    + rewrite (semaphores_semaphore_signal s k sm Hk), Hq.
      by rewrite list_lookup_alter_eq, Hk.
    + unfold semaphore_signal. rewrite Hk, Hq.
      set (s1 := upd_semaphore k (set_sem_wait_queue rest) s).
      assert (tasks s1 !! w = Some tw) as Hw1 by done.
      pose proof (task_set_state_state s1 w TASK_READY tw Hw1) as Hready.
      unfold task_state in Hready.
      destruct (tasks (task_set_state s1 w TASK_READY) !! w) as [tw1|] eqn:Hw2;
        [|done].
      simpl in Hready. injection Hready as Hready.
      destruct (schedule_ready_task _ w tw1 Hw2 Hready) as (tw' & Hw' & Hst').
      exists tw'. split_and!; try done.
      assert (same_proj static_fields s1
                (scheduler_schedule (task_set_state s1 w TASK_READY)))
        as Hsame.
      { eapply same_proj_trans.
        - apply tasks_rel_set_state_any; [apply _|apply static_fields_stable].
        - apply tasks_rel_schedule_any; [apply _|apply static_fields_stable]. }
      destruct (same_proj_lookup_Some _ _ _ _ _ Hsame Hw1) as (tw'' & ? & E).
      congruence.
  - intros Hq. unfold semaphore_signal. by rewrite Hk, Hq.
Qed.

Lemma set_sem_count_same sm : set_sem_count (sem_count sm) sm = sm.
Proof. by destruct sm. Qed.

(** X22. On a semaphore without waiters, taking a token and giving it back,
    or giving one and taking it, returns the scheduler to the state it was
    in, provided the count stays within zero and the maximum. *)
Theorem semaphore_wait_signal_roundtrip s k h sm t :
  semaphores s !! k = Some sm → tasks s !! h = Some t →
  sem_wait_queue sm = [] →
  (0 < sem_count sm ≤ sem_max_count sm →
   semaphore_signal (semaphore_wait s k h) k = s)
  ∧ (0 ≤ sem_count sm < sem_max_count sm →
     semaphore_wait (semaphore_signal s k) k h = s).
Proof.
  intros Hk Ht Hq.
  assert (∀ c, alter (set_sem_count (sem_count sm)) k
                 (alter (set_sem_count c) k (semaphores s)) = semaphores s)
    as Hround.
  { intros c. rewrite alter_alter. apply (alter_same _ _ k sm Hk).
    simpl. by destruct sm. }
  split.
  - intros [Hpos Hmax]. unfold semaphore_wait. rewrite Hk, Ht.
    destruct (Z.gtb_spec (sem_count sm) 0); [|lia].
    unfold semaphore_signal. simpl. rewrite list_lookup_alter_eq, Hk. simpl.
    rewrite Hq.
    destruct (Z.ltb_spec (sem_count sm - 1) (sem_max_count sm)); [|lia].
    unfold upd_semaphore. simpl.
    replace (sem_count sm - 1 + 1) with (sem_count sm) by lia.
    rewrite Hround. by destruct s.
  - intros [Hpos Hmax]. unfold semaphore_signal. rewrite Hk, Hq.
    destruct (Z.ltb_spec (sem_count sm) (sem_max_count sm)); [|lia].
    unfold semaphore_wait. simpl. rewrite list_lookup_alter_eq, Hk, Ht. simpl.
    destruct (Z.gtb_spec (sem_count sm + 1) 0); [|lia].
    unfold upd_semaphore. simpl.
    replace (sem_count sm + 1 - 1) with (sem_count sm) by lia.
    rewrite Hround. by destruct s.
Qed.

(** ** The deadline pass *)

Lemma outside_tasks_check_deadline s h :
  outside_tasks (check_deadline s h) = outside_tasks s.
Proof. by apply proj_check_deadline. Qed.

Lemma deadline_missed_disarmed s h t :
  system_ticks s ≤ UINT64_MAX → deadline_missed s h (record_miss t) = false.
Proof.
  intros Hk. unfold deadline_missed, record_miss. simpl.
  destruct (Z.gtb_spec (system_ticks s) UINT64_MAX) as [?|_]; [lia|].
  by rewrite !andb_false_r.
Qed.

Lemma outside_tasks_fields s s' :
  outside_tasks s' = outside_tasks s →
  idle_task s' = idle_task s ∧ system_ticks s' = system_ticks s
  ∧ all_tasks s' = all_tasks s.
Proof. unfold outside_tasks. intros E. injection E. intros. by split_and!. Qed.

Lemma deadline_missed_outside s s' h t :
  outside_tasks s' = outside_tasks s →
  deadline_missed s' h t = deadline_missed s h t.
Proof.
  intros E. destruct (outside_tasks_fields _ _ E) as (Ei & Ek & _).
  unfold deadline_missed. by rewrite Ei, Ek.
Qed.

(** A task is settled when the deadline pass would pass it over. *)
Lemma check_deadline_settles s x h :
  system_ticks s ≤ UINT64_MAX →
  (h = x ∨ ∀ t, tasks s !! h = Some t → deadline_missed s h t = false) →
  ∀ t, tasks (check_deadline s x) !! h = Some t →
       deadline_missed (check_deadline s x) h t = false.
Proof.
  intros Hk Hh t Ht.
  rewrite (deadline_missed_outside s) by apply outside_tasks_check_deadline.
  unfold check_deadline in Ht.
  destruct (tasks s !! x) as [tx|] eqn:Hx; cycle 1.
  { destruct Hh as [->|Hh]; [congruence|by apply Hh]. }
  destruct (deadline_missed s x tx) eqn:Hm; cycle 1.
  { destruct Hh as [->|Hh]; [congruence|by apply Hh]. }
  destruct (decide (h = x)) as [->|Hne].
  - unfold upd_task in Ht. simpl in Ht.
    rewrite list_lookup_alter_eq, Hx in Ht. simpl in Ht.
    injection Ht as <-. by apply deadline_missed_disarmed.
  - unfold upd_task in Ht. simpl in Ht.
    rewrite list_lookup_alter_ne in Ht by done.
    destruct Hh as [->|Hh]; [done|by apply Hh].
Qed.

Lemma check_deadlines_settles l :
  ∀ s, system_ticks s ≤ UINT64_MAX →
  ∀ h, (h ∈ l ∨ ∀ t, tasks s !! h = Some t → deadline_missed s h t = false) →
  ∀ t, tasks (fold_left check_deadline l s) !! h = Some t →
       deadline_missed (fold_left check_deadline l s) h t = false.
Proof.
  induction l as [|x l IH]; intros s Hk h Hh; simpl.
  - destruct Hh as [Hh|Hh]; [by apply elem_of_nil in Hh|done].
  - apply IH.
    + destruct (outside_tasks_fields _ _ (outside_tasks_check_deadline s x))
        as (_ & -> & _). done.
    + destruct Hh as [Hh|Hh].
      * apply elem_of_cons in Hh as [->|Hh]; [|by left].
        right. apply check_deadline_settles; [done|by left].
      * right. apply check_deadline_settles; [done|by right].
Qed.

Lemma check_deadlines_settled l s :
  (∀ h t, h ∈ l → tasks s !! h = Some t → deadline_missed s h t = false) →
  fold_left check_deadline l s = s.
Proof.
  induction l as [|x l IH]; intros Hl; simpl; [done|].
  assert (check_deadline s x = s) as ->.
  { unfold check_deadline. destruct (tasks s !! x) as [tx|] eqn:Hx; [|done].
    rewrite (Hl x tx); [done|by left|done]. }
  apply IH. intros h t Hh. apply Hl. by right.
Qed.

Lemma check_deadline_records s x h t :
  system_ticks s ≤ UINT64_MAX →
  tasks s !! h = Some t →
  ∃ t', tasks (check_deadline s x) !! h = Some t'
        ∧ (t' = t ∨ (t' = record_miss t ∧ deadline_missed s h t = true)).
Proof.
  intros Hk Ht. unfold check_deadline.
  destruct (tasks s !! x) as [tx|] eqn:Hx; [|by eauto].
  destruct (deadline_missed s x tx) eqn:Hm; [|by eauto].
  destruct (decide (h = x)) as [->|Hne].
  - exists (record_miss t). unfold upd_task. simpl.
    rewrite list_lookup_alter_eq, Ht. simpl. split; [done|].
    right. split; [done|]. congruence.
  - exists t. unfold upd_task. simpl.
    rewrite list_lookup_alter_ne by done. by eauto.
Qed.

Lemma check_deadlines_records l :
  ∀ s h t,
    system_ticks s ≤ UINT64_MAX →
    tasks s !! h = Some t →
    ∃ t', tasks (fold_left check_deadline l s) !! h = Some t'
          ∧ (t' = t ∨ (t' = record_miss t ∧ deadline_missed s h t = true)).
Proof.
  induction l as [|x l IH]; intros s h t Hk Ht; simpl; [by eauto|].
  assert (outside_tasks (check_deadline s x) = outside_tasks s) as E
    by apply outside_tasks_check_deadline.
  assert (system_ticks (check_deadline s x) ≤ UINT64_MAX) as Hk'.
  { destruct (outside_tasks_fields _ _ E) as (_ & -> & _). done. }
  destruct (check_deadline_records s x h t Hk Ht) as (t1 & Ht1 & H1).
  destruct (IH _ h t1 Hk' Ht1) as (t2 & Ht2 & H2).
  exists t2. split; [done|].
  destruct H1 as [->|[-> Hm]].
  - destruct H2 as [->|[-> Hm2]]; [by left|].
    right. split; [done|]. by rewrite <- (deadline_missed_outside s _ h t E).
  - destruct H2 as [->|[-> Hm2]]; [by right|].
    rewrite (deadline_missed_outside s _ h _ E) in Hm2.
    by rewrite deadline_missed_disarmed in Hm2.
Qed.

(** X23. The deadline pass counts a miss once: a second pass right after the
    first changes nothing.  The pass changes no field of the scheduler
    outside the task records, and each task record is either kept as it is
    or, if the task has missed its deadline, gets one more deadline miss and
    the disarmed deadline [UINT64_MAX], with every other field kept. *)
Theorem check_deadlines_once s :
  system_ticks s ≤ UINT64_MAX →
  check_deadlines (check_deadlines s) = check_deadlines s
  ∧ outside_tasks (check_deadlines s) = outside_tasks s
  ∧ length (tasks (check_deadlines s)) = length (tasks s)
  ∧ ∀ h t,
      tasks s !! h = Some t →
      ∃ t', tasks (check_deadlines s) !! h = Some t'
            ∧ (t' = t
               ∨ (deadline_missed s h t = true
                  ∧ t' = set_absolute_deadline UINT64_MAX
                           (set_deadline_misses
                              (wrap32 (deadline_misses t + 1)) t))).
Proof.
  intros Hk.
  assert (outside_tasks (check_deadlines s) = outside_tasks s) as E.
  { unfold check_deadlines. apply (proj_fold_left outside_tasks).
    intros. by apply proj_check_deadline. }
  split_and!.
  - unfold check_deadlines at 1.
    apply check_deadlines_settled. intros h t Hh Ht.
    assert (all_tasks (check_deadlines s) = all_tasks s) as Ea.
    { by destruct (outside_tasks_fields _ _ E) as (_ & _ & ->). }
    rewrite Ea in Hh. revert Ht. unfold check_deadlines.
    apply check_deadlines_settles; [done|by left].
  - done.
  - apply (tasks_rel_length (proj_eq outside_deadline)).
    by apply same_proj_check_deadlines.
  - intros h t Ht. unfold check_deadlines.
    destruct (check_deadlines_records (all_tasks s) s h t Hk Ht)
      as (t' & Ht' & H).
    exists t'. split; [done|].
    destruct H as [->|[-> Hm]]; [by left|by right].
Qed.

(** ** A current task that is not running *)

Lemma advance_time_stalled n s c t :
  current_task s = Some c → ready_queue_peek s = Some c →
  tasks s !! c = Some t → state t ≠ TASK_RUNNING →
  (∀ i ti, tasks s !! i = Some ti → state ti ≠ TASK_SUSPENDED) →
  advance_time s n = Nat.iter n tick_handler s
  ∧ current_task (advance_time s n) = Some c
  ∧ ready_queue (advance_time s n) = ready_queue s
  ∧ same_proj (λ t, (state t, work_counters t)) s (advance_time s n).
Proof.
  intros Hc Hpeek Ht Hst Hno.
  induction n as [|n (IH1 & IH2 & IH3 & IH4)].
  { split_and!; try done. apply same_proj_refl. }
  change (advance_time s (S n))
    with (scheduler_schedule (tick_handler (advance_time s n))).
  set (s1 := advance_time s n) in *.
  assert (∀ i ti, tasks s1 !! i = Some ti → state ti ≠ TASK_SUSPENDED)
    as Hno1.
  { intros i ti Hi.
    destruct (tasks_rel_lookup_r _ _ _ _ _ IH4 Hi) as (ti0 & Hi0 & E).
    unfold proj_eq in E. injection E as E _. rewrite E. by eapply Hno. }
  destruct (tick_handler_quiet s1 Hno1) as [Hq1 Hst1].
  assert (current_task (tick_handler s1) = Some c) as Hc1.
  { by rewrite (proj_tick_handler current_task). }
  assert (scheduler_schedule (tick_handler s1) = tick_handler s1) as ->.
  { unfold scheduler_schedule, scheduler_get_next_task, ready_queue_peek.
    rewrite Hq1, IH3, Hc1. unfold ready_queue_peek in Hpeek.
    rewrite Hpeek. by rewrite decide_True. }
  split_and!.
  - by rewrite IH1.
  - done.
  - by rewrite Hq1.
  - eapply same_proj_trans; [exact IH4|].
    assert (same_proj work_counters s1 (tick_handler s1)) as Hw.
    { apply tick_handler_not_running. intros c0 Hc0.
      rewrite IH2 in Hc0. injection Hc0 as <-.
      destruct (tasks_rel_lookup _ _ _ _ _ IH4 Ht) as (t1 & Ht1 & E).
      unfold proj_eq in E. injection E as E _.
      unfold task_state. rewrite Ht1. simpl. congruence. }
    unfold same_proj, tasks_rel in *.
    apply Forall2_same_length_lookup. split.
    + by eapply Forall2_length.
    + intros i x y Hx Hy.
      pose proof (Forall2_lookup_lr _ _ _ _ _ _ Hst1 Hx Hy) as E1.
      pose proof (Forall2_lookup_lr _ _ _ _ _ _ Hw Hx Hy) as E2.
      unfold proj_eq in *. by rewrite E1, E2.
Qed.

(** X24. A current task that is not Running but heads the ready queue is
    never dispatched: [scheduler_schedule] sees that the next task is the
    current one and returns.  With no Suspended task to release, any number
    of ticks leaves the current task, the ready queue and every task's state
    as they are, and charges no task: the system stalls.  Suspending and
    resuming the running task reaches such a state. *)
Theorem advance_time_stall s c t n :
  current_task s = Some c → ready_queue_peek s = Some c →
  tasks s !! c = Some t → state t ≠ TASK_RUNNING →
  (∀ i ti, tasks s !! i = Some ti → state ti ≠ TASK_SUSPENDED) →
  current_task (advance_time s n) = Some c
  ∧ ready_queue (advance_time s n) = ready_queue s
  ∧ ∀ i ti,
      tasks s !! i = Some ti →
      ∃ ti', tasks (advance_time s n) !! i = Some ti'
             ∧ state ti' = state ti
             ∧ total_exec_time ti' = total_exec_time ti
             ∧ remaining_work ti' = remaining_work ti.
Proof.
  intros Hc Hpeek Ht Hst Hno.
  destruct (advance_time_stalled n s c t Hc Hpeek Ht Hst Hno)
    as (_ & H2 & H3 & H4).
  split_and!; try done.
  intros i ti Hi.
  destruct (same_proj_lookup_Some _ _ _ _ _ H4 Hi) as (ti' & Hi' & E).
  exists ti'. unfold work_counters in E. by simplify_eq.
Qed.

Lemma script_allowed_any qsort l s : script_allowed qsort any_op l s.
Proof. revert s. induction l as [|o l IH]; intros s; simpl; [done|]. by split. Qed.

Lemma reachable_any_script qsort pol pi l :
  reachable qsort any_op (run_ops qsort l (scheduler_init pol pi)).
Proof.
  apply reachable_run_ops; [constructor|apply script_allowed_any].
Qed.

Lemma dispatch_keeps_static_fields_witness :
  mutexes (run_op isort OpTick contended_state) = mutexes contended_state.
Proof.
  refine (proj1 (dispatch_keeps_static_fields isort OpTick contended_state _)).
  reflexivity.
Defined.

Lemma registry_dense_witness :
  all_tasks rate_monotonic_state = seq 0 (length (tasks rate_monotonic_state)).
Proof.
  refine (proj1 (proj2 (registry_dense isort rate_monotonic_state _))).
  change rate_monotonic_state
    with (run_ops isort rate_monotonic_script
            (scheduler_init SCHED_RATE_MONOTONIC false)).
  apply reachable_any_script.
Defined.

Lemma advance_time_stall_witness :
  current_task (advance_time stall_state 5) = Some 1%nat
  ∧ ready_queue (advance_time stall_state 5) = ready_queue stall_state.
Proof.
  refine (let H := advance_time_stall stall_state 1 _ 5 _ _ _ _ _ in
          conj (proj1 H) (proj1 (proj2 H))).
  - reflexivity.
  - reflexivity.
  - vm_compute. reflexivity.
  - vm_compute. discriminate.
  - intros [|[|i]] ti Hi; vm_compute in Hi; simplify_eq; vm_compute;
      discriminate.
Defined.

Lemma mutex_lock_inherits_witness :
  task_get_priority contended_state 1 = 20
  ∧ task_get_priority (mutex_lock contended_state 0 2) 1 = 5.
Proof.
  split; [reflexivity|].
  exact (proj1 (mutex_lock_inherits contended_state 0 2 _ _ 1 _
                  eq_refl eq_refl eq_refl eq_refl eq_refl)).
Defined.

Lemma priority_inherit_absorbs_witness :
  priority_inherit (priority_inherit contended_state 1 5) 1 7
  = priority_inherit contended_state 1 5.
Proof. apply priority_inherit_absorbs. lia. Defined.

Lemma mutex_lock_unlock_roundtrip_witness :
  mutex_unlock (mutex_lock lone_state 0 1) 0 1 = scheduler_schedule lone_state.
Proof.
  eapply mutex_lock_unlock_roundtrip.
  - vm_compute. reflexivity.
  - vm_compute. reflexivity.
  - reflexivity.
  - reflexivity.
  - reflexivity.
  - simpl. apply not_elem_of_nil.
  - by left.
Defined.

Lemma ready_queue_wf_script pol pi l :
  ready_queue_wf (run_ops isort l (scheduler_init pol pi)).
Proof.
  eapply ready_queue_exact_reachable, reachable_any_script.
Qed.

Lemma full_queue_state_eq :
  full_queue_state
  = run_ops isort full_queue_script (scheduler_init SCHED_PRIORITY false).
Proof. vm_compute. reflexivity. Qed.

Lemma full_semaphore_state_eq :
  full_semaphore_state
  = run_ops isort full_semaphore_script (scheduler_init SCHED_PRIORITY false).
Proof. vm_compute. reflexivity. Qed.

Lemma full_queue_state_wf : ready_queue_wf full_queue_state.
Proof. rewrite full_queue_state_eq. apply ready_queue_wf_script. Qed.

Lemma full_semaphore_state_wf : ready_queue_wf full_semaphore_state.
Proof. rewrite full_semaphore_state_eq. apply ready_queue_wf_script. Qed.

Lemma mutex_lock_full_queue_witness :
  ∃ mx, mutexes full_queue_state !! 0%nat = Some mx
    ∧ length (wait_queue mx) = MUTEX_WAIT_QUEUE_CAP
    ∧ mutexes (mutex_lock full_queue_state 0 18) = mutexes full_queue_state.
Proof.
  eexists. split; [vm_compute; reflexivity|]. split; [reflexivity|].
  refine (proj1 (mutex_lock_full_queue full_queue_state 0 18 _ _
                   full_queue_state_wf _ _ _ _ _)).
  - vm_compute. discriminate.
  - vm_compute. reflexivity.
  - vm_compute. reflexivity.
  - reflexivity.
  - vm_compute. lia.
Defined.

Lemma semaphore_wait_full_queue_witness :
  ∃ sm, semaphores full_semaphore_state !! 0%nat = Some sm
    ∧ length (sem_wait_queue sm) = SEM_WAIT_QUEUE_CAP
    ∧ semaphores (semaphore_wait full_semaphore_state 0 17)
      = semaphores full_semaphore_state.
Proof.
  eexists. split; [vm_compute; reflexivity|]. split; [reflexivity|].
  refine (proj1 (semaphore_wait_full_queue full_semaphore_state 0 17 _ _
                   full_semaphore_state_wf _ _ _ _ _)).
  - vm_compute. discriminate.
  - vm_compute. reflexivity.
  - vm_compute. reflexivity.
  - simpl. lia.
  - vm_compute. lia.
Defined.

Lemma mutex_lock_enqueues_witness :
  ∃ mx l1 l2,
    mutexes wake_order_state !! 0%nat = Some mx
    ∧ wait_queue mx = l1 ++ l2
    ∧ mutexes (mutex_lock wake_order_state 0 4) !! 0%nat
      = Some (set_wait_queue (l1 ++ 4%nat :: l2) mx).
Proof.
  eexists.
  destruct (mutex_lock_enqueues wake_order_state 0 4 _ _
              eq_refl eq_refl eq_refl) as (l1 & l2 & H1 & H2 & _).
  - vm_compute. lia.
  - exists l1, l2. split; [reflexivity|]. by split.
Defined.

Lemma wake_order_reachable : reachable isort any_op wake_order_state.
Proof.
  change wake_order_state
    with (run_ops isort wake_order_script
            (scheduler_init SCHED_PRIORITY true)).
  apply reachable_any_script.
Qed.

Lemma mutex_ownership_witness :
  ∃ mx t,
    mutexes wake_order_state !! 0%nat = Some mx
    ∧ tasks wake_order_state !! 1%nat = Some t
    ∧ (locked mx = true ↔ is_Some (owner mx))
    ∧ (0%nat ∈ held_mutexes t ↔ owner mx = Some 1%nat).
Proof.
  eexists. eexists. split; [reflexivity|]. split; [reflexivity|].
  destruct (mutex_ownership isort wake_order_state 0 _
              wake_order_reachable eq_refl) as (H1 & _ & _ & _ & H5).
  split; [exact H1|]. by apply (H5 1%nat).
Defined.

Lemma scheduler_schedule_highest_witness :
  task_get_priority (scheduler_schedule contended_state) 2
  ≤ task_get_priority (scheduler_schedule contended_state) 1.
Proof.
  apply scheduler_schedule_highest.
  - change (ready_queue contended_state) with [1%nat].
    repeat constructor.
  - reflexivity.
  - change (ready_queue (scheduler_schedule contended_state)) with [1%nat].
    apply list_elem_of_singleton. reflexivity.
Defined.

Lemma needs_preemption_agrees_witness :
  scheduler_needs_preemption contended_state = false
  ∧ scheduler_schedule contended_state = contended_state.
Proof.
  split; [reflexivity|].
  refine (proj1 (needs_preemption_agrees contended_state 2 _ 1 _ _ _ _) _).
  - reflexivity.
  - vm_compute. reflexivity.
  - reflexivity.
  - reflexivity.
  - reflexivity.
Defined.

Lemma ready_queue_insert_remove_witness :
  ready_queue (ready_queue_insert contended_state 2) = [2%nat; 1%nat]
  ∧ ready_queue_remove (ready_queue_insert contended_state 2) 2
    = contended_state.
Proof.
  split; [reflexivity|].
  refine (proj1 (proj1 (ready_queue_insert_remove contended_state 2 _ _ _) _)).
  - vm_compute. reflexivity.
  - change (ready_queue contended_state) with [1%nat].
    intros Hin. apply list_elem_of_singleton in Hin. discriminate.
  - vm_compute. lia.
Defined.

Lemma contended_reachable : reachable isort any_op contended_state.
Proof.
  change contended_state
    with (run_ops isort contended_script
            (scheduler_init SCHED_PRIORITY true)).
  apply reachable_any_script.
Qed.

Lemma task_suspend_resume_witness :
  ready_queue contended_state ≡ₚ
  ready_queue (task_resume (task_suspend contended_state 1) 1).
Proof.
  symmetry.
  refine (proj1 (proj2 (task_suspend_resume contended_state 1 _ _ _ _ _ _))).
  - eapply ready_queue_exact_reachable, contended_reachable.
  - vm_compute. lia.
  - vm_compute. reflexivity.
  - reflexivity.
  - vm_compute. constructor.
Defined.

Lemma ready_queue_complete_witness :
  ∃ t, tasks contended_state !! 1%nat = Some t
    ∧ (1%nat ∈ ready_queue contended_state ↔ state t = TASK_READY).
Proof.
  eexists. split; [reflexivity|].
  refine (proj1 (ready_queue_complete isort contended_state
                   contended_reachable) 1%nat _ eq_refl _).
  vm_compute. discriminate.
Defined.

Lemma check_periodic_releases_release_witness :
  ∃ t t',
    tasks release_state !! 1%nat = Some t
    ∧ state t = TASK_SUSPENDED
    ∧ system_ticks release_state = next_release t
    ∧ tasks (check_periodic_releases release_state) !! 1%nat = Some t'
    ∧ state t' = TASK_READY
    ∧ next_release t' = 20.
Proof.
  destruct (proj1 (check_periodic_releases_release release_state 1 _ eq_refl))
    as (t' & H1 & H2 & H3 & _).
  - vm_compute. by repeat constructor.
  - vm_compute. discriminate.
  - vm_compute. discriminate.
  - reflexivity.
  - reflexivity.
  - eexists. exists t'. split; [reflexivity|]. split; [reflexivity|].
    split; [reflexivity|]. split; [exact H1|]. split; [exact H2|].
    rewrite H3. reflexivity.
Defined.

Lemma tick_handler_accounting_witness :
  ∃ t t',
    tasks contended_state !! 2%nat = Some t
    ∧ tasks (tick_handler contended_state) !! 2%nat = Some t'
    ∧ total_exec_time t' = wrap64 (total_exec_time t + 1)
    ∧ remaining_work t' = 9.
Proof.
  destruct (proj1 (tick_handler_accounting contended_state 2 _
                     eq_refl eq_refl) eq_refl)
    as (t' & H1 & _ & _ & H2 & H3 & _).
  eexists. exists t'. split; [reflexivity|]. split; [exact H1|].
  split; [exact H2|]. rewrite H3. reflexivity.
Defined.

Lemma simulate_work_runs_witness :
  simulate_work token_state 1 3
  = Nat.iter 3 tick_handler
      (upd_task 1 (set_remaining_work 3) token_state)
  ∧ current_task (simulate_work token_state 1 3) = Some 1%nat.
Proof.
  destruct (proj2 (simulate_work_runs token_state 1 _ 3 eq_refl))
    as (H1 & H2 & _).
  - reflexivity.
  - reflexivity.
  - reflexivity.
  - intros [|[|i]] ti Hi; vm_compute in Hi; simplify_eq; vm_compute;
      discriminate.
  - split; [exact H1|exact H2].
Defined.

Lemma cmp_period_consistent_witness :
  cmp_period rate_monotonic_state 2 1 = - cmp_period rate_monotonic_state 1 2
  ∧ cmp_period rate_monotonic_state 1 3 < 0.
Proof.
  destruct (cmp_period_consistent rate_monotonic_state 1 2 3 _ _ _
              eq_refl eq_refl eq_refl) as (_ & H1 & _).
  split; [exact H1|].
  apply (cmp_period_consistent rate_monotonic_state 1 3 3 _ _ _
           eq_refl eq_refl eq_refl).
  vm_compute. split; [discriminate|by right].
Defined.

Lemma semaphore_block_reachable :
  reachable isort semaphore_discipline semaphore_block_state.
Proof.
  change semaphore_block_state
    with (run_ops isort semaphore_block_script
            (scheduler_init SCHED_PRIORITY true)).
  apply reachable_run_ops; [constructor|].
  do 2 (apply script_allowed_cons; [exact I|]).
  apply script_allowed_cons; [simpl; lia|].
  apply script_allowed_cons; [exact I|]. exact I.
Qed.

Lemma semaphore_bounds_witness :
  ∃ sm,
    semaphores semaphore_block_state !! 0%nat = Some sm
    ∧ sem_wait_queue sm = [1%nat]
    ∧ 0 ≤ sem_count sm ≤ sem_max_count sm
    ∧ (sem_wait_queue sm ≠ [] → sem_count sm = 0).
Proof.
  eexists. split; [reflexivity|]. split; [reflexivity|].
  destruct (semaphore_bounds isort semaphore_block_state 0 _
              semaphore_block_reachable eq_refl) as (H1 & H2 & _).
  split; [exact H1|exact H2].
Defined.

Lemma semaphore_signal_wakes_witness :
  ∃ sm tw',
    semaphores semaphore_block_state !! 0%nat = Some sm
    ∧ sem_wait_queue sm = [1%nat]
    ∧ semaphores (semaphore_signal semaphore_block_state 0) !! 0%nat
      = Some (set_sem_wait_queue [] sm)
    ∧ tasks (semaphore_signal semaphore_block_state 0) !! 1%nat = Some tw'
    ∧ (state tw' = TASK_READY ∨ state tw' = TASK_RUNNING).
Proof.
  destruct (proj1 (semaphore_signal_wakes semaphore_block_state 0 _ eq_refl)
              1%nat [] _ eq_refl eq_refl)
    as (H1 & tw' & H2 & H3 & _).
  eexists. exists tw'. split; [reflexivity|]. split; [reflexivity|].
  split; [exact H1|]. split; [exact H2|exact H3].
Defined.

Lemma semaphore_wait_signal_roundtrip_witness :
  semaphore_signal (semaphore_wait token_state 0 1) 0 = token_state
  ∧ semaphore_wait (semaphore_signal token_state 0) 0 1 = token_state.
Proof.
  destruct (semaphore_wait_signal_roundtrip token_state 0 1 _ _
              eq_refl eq_refl eq_refl) as [H1 H2].
  split; [apply H1|apply H2]; simpl; lia.
Defined.

Lemma check_deadlines_once_witness :
  ∃ t t',
    tasks overdue_state !! 1%nat = Some t
    ∧ deadline_missed overdue_state 1 t = true
    ∧ tasks (check_deadlines overdue_state) !! 1%nat = Some t'
    ∧ deadline_misses t' = 1
    ∧ check_deadlines (check_deadlines overdue_state)
      = check_deadlines overdue_state.
Proof.
  eexists. eexists. split; [reflexivity|]. split; [reflexivity|].
  split; [reflexivity|]. split; [reflexivity|].
  apply check_deadlines_once. vm_compute. discriminate.
Defined.
